(** * lndhub.go, package service: invoices and the double-entry ledger

    A shallow embedding of [lib/service/invoices.go].  The service talks
    to two outside parties: the relational store (bun, [svc.DB]) and the
    Lightning node ([svc.LndClient]).  Both are modelled by a [World]
    that is threaded through every operation; the Go functions become
    functions in a small state monad over that world, and they keep Go's
    result shape: a value together with an optional [error]. *)

From Stdlib Require Import ZArith List String Ascii Bool Lia.
From Stdlib.Strings Require Import Byte.
From stdpp Require Import gmap.
Import ListNotations.

Local Open Scope string_scope.
Local Open Scope Z_scope.

(** ** Go's [error] values met in this file *)

Inductive error : Type :=
| NotFound                         (* sql.ErrNoRows: a SELECT matched nothing *)
| InsufficientBalance              (* the store's balance constraint fired *)
| StoreError                       (* any other failure of a statement *)
| ErrLength                        (* encoding/hex: odd length hex string *)
| InvalidByteError (b : byte)      (* encoding/hex: invalid byte *)
| LndError (msg : string)          (* the node client returned an error *)
| ErrorsNew (msg : string).        (* errors.New(msg) *)

(** [err.Error()] *)
Definition Error (e : error) : string :=
  match e with
  | NotFound => "sql: no rows in result set"
  | InsufficientBalance => "invalid balance"
  | StoreError => "store failure"
  | ErrLength => "encoding/hex: odd length hex string"
  | InvalidByteError b => "encoding/hex: invalid byte: " ++ String (ascii_of_byte b) EmptyString
  | LndError msg => msg
  | ErrorsNew msg => msg
  end.

(** ** encoding/hex *)

Module hex.

Definition hextable : string := "0123456789abcdef".

(** [hextable[i]] for [i < 16] *)
Definition digit (i : N) : byte :=
  nth (N.to_nat i) (list_byte_of_string hextable) x30.

Definition encode_byte (v : byte) : list byte :=
  [digit (N.shiftr (Byte.to_N v) 4); digit (N.land (Byte.to_N v) 15)].

(** [hex.EncodeToString]: two digits per byte, high nibble first. *)
Definition EncodeToString (src : list byte) : string :=
  string_of_list_byte (flat_map encode_byte src).

Definition in_range (lo hi c : byte) : bool :=
  (Byte.to_N lo <=? Byte.to_N c)%N && (Byte.to_N c <=? Byte.to_N hi)%N.

(** [fromHexChar]: both cases of the letters are accepted. *)
Definition fromHexChar (c : byte) : option N :=
  if in_range x30 x39 c then Some (Byte.to_N c - 48)%N
  else if in_range x61 x66 c then Some (Byte.to_N c - 97 + 10)%N
  else if in_range x41 x46 c then Some (Byte.to_N c - 65 + 10)%N
  else None.

Definition join (a b : N) : byte :=
  match Byte.of_N (N.lor (N.shiftl a 4) b) with
  | Some v => v
  | None => x00
  end.

(** [hex.Decode]: the bytes decoded before the first error are kept. *)
Fixpoint Decode (src : list byte) : list byte * option error :=
  match src with
  | [] => ([], None)
  | [p] =>
      match fromHexChar p with
      | None => ([], Some (InvalidByteError p))
      | Some _ => ([], Some ErrLength)
      end
  | p :: q :: rest =>
      match fromHexChar p with
      | None => ([], Some (InvalidByteError p))
      | Some a =>
          match fromHexChar q with
          | None => ([], Some (InvalidByteError q))
          | Some b =>
              let (out, err) := Decode rest in
              (join a b :: out, err)
          end
      end
  end.

Definition DecodeString (s : string) : list byte * option error :=
  Decode (list_byte_of_string s).

End hex.

(** ** package common: the enumerations *)

Inductive InvoiceType := InvoiceTypeIncoming | InvoiceTypeOutgoing.

Inductive InvoiceState :=
| InvoiceStateInitialized
| InvoiceStateOpen
| InvoiceStateSettled
| InvoiceStateError.

Inductive AccountType :=
| AccountTypeCurrent
| AccountTypeIncoming
| AccountTypeOutgoing
| AccountTypeFees.

Definition InvoiceType_eqb (a b : InvoiceType) : bool :=
  match a, b with
  | InvoiceTypeIncoming, InvoiceTypeIncoming
  | InvoiceTypeOutgoing, InvoiceTypeOutgoing => true
  | _, _ => false
  end.

Definition InvoiceState_eqb (a b : InvoiceState) : bool :=
  match a, b with
  | InvoiceStateInitialized, InvoiceStateInitialized
  | InvoiceStateOpen, InvoiceStateOpen
  | InvoiceStateSettled, InvoiceStateSettled
  | InvoiceStateError, InvoiceStateError => true
  | _, _ => false
  end.

Definition AccountType_eqb (a b : AccountType) : bool :=
  match a, b with
  | AccountTypeCurrent, AccountTypeCurrent
  | AccountTypeIncoming, AccountTypeIncoming
  | AccountTypeOutgoing, AccountTypeOutgoing
  | AccountTypeFees, AccountTypeFees => true
  | _, _ => false
  end.

(** ** package models: the rows

    Integers are Go [int64] held as [Z]; the Go code of this file
    performs no arithmetic on them.  A zero id is "not assigned yet"
    (and a zero [ParentID] is NULL), instants are nanoseconds, a
    nullable instant is an [option].  [DestinationCustomRecords] is a Go
    map and may be nil.  The column created_at, which the store fills
    and this file never reads, is left out. *)

Record Account := {
  AccountID : Z;
  AccountUserID : Z;
  AccountKind : AccountType
}.

Record TransactionEntry := {
  EntryID : Z;
  EntryUserID : Z;
  InvoiceID : Z;
  ParentID : Z;
  CreditAccountID : Z;
  DebitAccountID : Z;
  EntryAmount : Z
}.

Record Invoice := {
  ID : Z;
  Type_ : InvoiceType;
  UserID : Z;
  Amount : Z;
  Fee : Z;
  Memo : string;
  DescriptionHash : string;
  PaymentRequest : string;
  DestinationPubkeyHex : string;
  DestinationCustomRecords : option (gmap Z (list byte));
  RHash : string;
  Preimage : string;
  Internal : bool;
  Keysend : bool;
  State : InvoiceState;
  ErrorMessage : string;
  AddIndex : Z;
  ExpiresAt : option Z;
  SettledAt : option Z
}.

(** Field assignment on the Go structs. *)

Definition with_ID (v : Z) (i : Invoice) : Invoice :=
  {| ID := v; Type_ := Type_ i; UserID := UserID i; Amount := Amount i; Fee := Fee i;
     Memo := Memo i; DescriptionHash := DescriptionHash i;
     PaymentRequest := PaymentRequest i; DestinationPubkeyHex := DestinationPubkeyHex i;
     DestinationCustomRecords := DestinationCustomRecords i; RHash := RHash i;
     Preimage := Preimage i; Internal := Internal i; Keysend := Keysend i;
     State := State i; ErrorMessage := ErrorMessage i; AddIndex := AddIndex i;
     ExpiresAt := ExpiresAt i; SettledAt := SettledAt i |}.

Definition with_Fee (v : Z) (i : Invoice) : Invoice :=
  {| ID := ID i; Type_ := Type_ i; UserID := UserID i; Amount := Amount i; Fee := v;
     Memo := Memo i; DescriptionHash := DescriptionHash i;
     PaymentRequest := PaymentRequest i; DestinationPubkeyHex := DestinationPubkeyHex i;
     DestinationCustomRecords := DestinationCustomRecords i; RHash := RHash i;
     Preimage := Preimage i; Internal := Internal i; Keysend := Keysend i;
     State := State i; ErrorMessage := ErrorMessage i; AddIndex := AddIndex i;
     ExpiresAt := ExpiresAt i; SettledAt := SettledAt i |}.

Definition with_PaymentRequest (v : string) (i : Invoice) : Invoice :=
  {| ID := ID i; Type_ := Type_ i; UserID := UserID i; Amount := Amount i; Fee := Fee i;
     Memo := Memo i; DescriptionHash := DescriptionHash i;
     PaymentRequest := v; DestinationPubkeyHex := DestinationPubkeyHex i;
     DestinationCustomRecords := DestinationCustomRecords i; RHash := RHash i;
     Preimage := Preimage i; Internal := Internal i; Keysend := Keysend i;
     State := State i; ErrorMessage := ErrorMessage i; AddIndex := AddIndex i;
     ExpiresAt := ExpiresAt i; SettledAt := SettledAt i |}.

Definition with_DestinationPubkeyHex (v : string) (i : Invoice) : Invoice :=
  {| ID := ID i; Type_ := Type_ i; UserID := UserID i; Amount := Amount i; Fee := Fee i;
     Memo := Memo i; DescriptionHash := DescriptionHash i;
     PaymentRequest := PaymentRequest i; DestinationPubkeyHex := v;
     DestinationCustomRecords := DestinationCustomRecords i; RHash := RHash i;
     Preimage := Preimage i; Internal := Internal i; Keysend := Keysend i;
     State := State i; ErrorMessage := ErrorMessage i; AddIndex := AddIndex i;
     ExpiresAt := ExpiresAt i; SettledAt := SettledAt i |}.

Definition with_DestinationCustomRecords (v : option (gmap Z (list byte))) (i : Invoice) : Invoice :=
  {| ID := ID i; Type_ := Type_ i; UserID := UserID i; Amount := Amount i; Fee := Fee i;
     Memo := Memo i; DescriptionHash := DescriptionHash i;
     PaymentRequest := PaymentRequest i; DestinationPubkeyHex := DestinationPubkeyHex i;
     DestinationCustomRecords := v; RHash := RHash i;
     Preimage := Preimage i; Internal := Internal i; Keysend := Keysend i;
     State := State i; ErrorMessage := ErrorMessage i; AddIndex := AddIndex i;
     ExpiresAt := ExpiresAt i; SettledAt := SettledAt i |}.

Definition with_RHash (v : string) (i : Invoice) : Invoice :=
  {| ID := ID i; Type_ := Type_ i; UserID := UserID i; Amount := Amount i; Fee := Fee i;
     Memo := Memo i; DescriptionHash := DescriptionHash i;
     PaymentRequest := PaymentRequest i; DestinationPubkeyHex := DestinationPubkeyHex i;
     DestinationCustomRecords := DestinationCustomRecords i; RHash := v;
     Preimage := Preimage i; Internal := Internal i; Keysend := Keysend i;
     State := State i; ErrorMessage := ErrorMessage i; AddIndex := AddIndex i;
     ExpiresAt := ExpiresAt i; SettledAt := SettledAt i |}.

Definition with_Preimage (v : string) (i : Invoice) : Invoice :=
  {| ID := ID i; Type_ := Type_ i; UserID := UserID i; Amount := Amount i; Fee := Fee i;
     Memo := Memo i; DescriptionHash := DescriptionHash i;
     PaymentRequest := PaymentRequest i; DestinationPubkeyHex := DestinationPubkeyHex i;
     DestinationCustomRecords := DestinationCustomRecords i; RHash := RHash i;
     Preimage := v; Internal := Internal i; Keysend := Keysend i;
     State := State i; ErrorMessage := ErrorMessage i; AddIndex := AddIndex i;
     ExpiresAt := ExpiresAt i; SettledAt := SettledAt i |}.

Definition with_Internal (v : bool) (i : Invoice) : Invoice :=
  {| ID := ID i; Type_ := Type_ i; UserID := UserID i; Amount := Amount i; Fee := Fee i;
     Memo := Memo i; DescriptionHash := DescriptionHash i;
     PaymentRequest := PaymentRequest i; DestinationPubkeyHex := DestinationPubkeyHex i;
     DestinationCustomRecords := DestinationCustomRecords i; RHash := RHash i;
     Preimage := Preimage i; Internal := v; Keysend := Keysend i;
     State := State i; ErrorMessage := ErrorMessage i; AddIndex := AddIndex i;
     ExpiresAt := ExpiresAt i; SettledAt := SettledAt i |}.

Definition with_State (v : InvoiceState) (i : Invoice) : Invoice :=
  {| ID := ID i; Type_ := Type_ i; UserID := UserID i; Amount := Amount i; Fee := Fee i;
     Memo := Memo i; DescriptionHash := DescriptionHash i;
     PaymentRequest := PaymentRequest i; DestinationPubkeyHex := DestinationPubkeyHex i;
     DestinationCustomRecords := DestinationCustomRecords i; RHash := RHash i;
     Preimage := Preimage i; Internal := Internal i; Keysend := Keysend i;
     State := v; ErrorMessage := ErrorMessage i; AddIndex := AddIndex i;
     ExpiresAt := ExpiresAt i; SettledAt := SettledAt i |}.

Definition with_ErrorMessage (v : string) (i : Invoice) : Invoice :=
  {| ID := ID i; Type_ := Type_ i; UserID := UserID i; Amount := Amount i; Fee := Fee i;
     Memo := Memo i; DescriptionHash := DescriptionHash i;
     PaymentRequest := PaymentRequest i; DestinationPubkeyHex := DestinationPubkeyHex i;
     DestinationCustomRecords := DestinationCustomRecords i; RHash := RHash i;
     Preimage := Preimage i; Internal := Internal i; Keysend := Keysend i;
     State := State i; ErrorMessage := v; AddIndex := AddIndex i;
     ExpiresAt := ExpiresAt i; SettledAt := SettledAt i |}.

Definition with_AddIndex (v : Z) (i : Invoice) : Invoice :=
  {| ID := ID i; Type_ := Type_ i; UserID := UserID i; Amount := Amount i; Fee := Fee i;
     Memo := Memo i; DescriptionHash := DescriptionHash i;
     PaymentRequest := PaymentRequest i; DestinationPubkeyHex := DestinationPubkeyHex i;
     DestinationCustomRecords := DestinationCustomRecords i; RHash := RHash i;
     Preimage := Preimage i; Internal := Internal i; Keysend := Keysend i;
     State := State i; ErrorMessage := ErrorMessage i; AddIndex := v;
     ExpiresAt := ExpiresAt i; SettledAt := SettledAt i |}.

Definition with_SettledAt (v : option Z) (i : Invoice) : Invoice :=
  {| ID := ID i; Type_ := Type_ i; UserID := UserID i; Amount := Amount i; Fee := Fee i;
     Memo := Memo i; DescriptionHash := DescriptionHash i;
     PaymentRequest := PaymentRequest i; DestinationPubkeyHex := DestinationPubkeyHex i;
     DestinationCustomRecords := DestinationCustomRecords i; RHash := RHash i;
     Preimage := Preimage i; Internal := Internal i; Keysend := Keysend i;
     State := State i; ErrorMessage := ErrorMessage i; AddIndex := AddIndex i;
     ExpiresAt := ExpiresAt i; SettledAt := v |}.

(** The zero value [models.Invoice{}]; Go's empty [Type] and [State]
    strings have no member in the enumerations, and every literal of
    this file sets both. *)
Definition Invoice_zero (t : InvoiceType) (s : InvoiceState) : Invoice :=
  {| ID := 0; Type_ := t; UserID := 0; Amount := 0; Fee := 0; Memo := "";
     DescriptionHash := ""; PaymentRequest := ""; DestinationPubkeyHex := "";
     DestinationCustomRecords := None; RHash := ""; Preimage := "";
     Internal := false; Keysend := false; State := s; ErrorMessage := "";
     AddIndex := 0; ExpiresAt := None; SettledAt := None |}.

(** ** package lnrpc: the messages exchanged with the node *)

Inductive FeeLimit := FeeLimit_Fixed (Fixed : Z) | FeeLimit_Percent (Percent : Z).

Inductive FeatureBit := FeatureBit_TLV_ONION_REQ.

Record SendRequest := {
  Dest : list byte;
  Amt : Z;
  ReqPaymentHash : list byte;
  ReqPaymentRequest : string;
  ReqFeeLimit : option FeeLimit;
  DestFeatures : list FeatureBit;
  DestCustomRecords : option (gmap Z (list byte))
}.

Record LnRoute := { LnTotalAmt : Z; LnTotalFees : Z }.

(** [lnrpc.SendResponse]; the preimage slice and the route pointer may
    be nil. *)
Record SendResponse := {
  RespPaymentError : string;
  RespPaymentPreimage : option (list byte);
  RespPaymentRoute : option LnRoute;
  RespPaymentHash : list byte
}.

Record LnInvoice := {
  LnMemo : string;
  LnDescriptionHash : list byte;
  LnValue : Z;
  RPreimage : list byte;
  Expiry : Z
}.

Record AddInvoiceResponse := {
  AddRHash : list byte;
  AddPaymentRequest : string;
  AddAddIndex : Z
}.

(** [lnd.LightningClientWrapper], as far as this file calls it: the
    node's answer to each request. *)
Record LightningClientWrapper := {
  LndSendPaymentSync : SendRequest -> SendResponse + error;
  LndAddInvoice : LnInvoice -> AddInvoiceResponse + error
}.

(** ** The response of the service *)

Record Route := { TotalAmt : Z; TotalFees : Z }.

(** [TransactionEntry] and [Invoice] are pointers in Go.  The entry
    pointed to is never written again, so its value is stored; the
    invoice pointed to is the caller's own object, which [PayInvoice]
    keeps changing: [RespInvoice] holds its value as of the moment the
    function that returns the response returns. *)
Record SendPaymentResponse := {
  PaymentPreimage : list byte;
  PaymentPreimageStr : string;
  PaymentError : string;
  PaymentHash : list byte;
  PaymentHashStr : string;
  PaymentRoute : option Route;
  RespTransactionEntry : option TransactionEntry;
  RespInvoice : option Invoice
}.

Definition SendPaymentResponse_zero : SendPaymentResponse :=
  {| PaymentPreimage := []; PaymentPreimageStr := ""; PaymentError := "";
     PaymentHash := []; PaymentHashStr := ""; PaymentRoute := None;
     RespTransactionEntry := None; RespInvoice := None |}.

(** ** The world outside the Go code

    [DB] is the relational store: each table is the list of its rows,
    the most recently inserted first, with the identity sequence that
    numbers the next row. *)

Record DB := {
  accounts : list Account;
  invoices : list Invoice;
  transaction_entries : list TransactionEntry;
  account_seq : Z;
  invoice_seq : Z;
  entry_seq : Z
}.

(** What the service does to the outside, in the order it does it
    (newest first): the writes it sends to the store, whether or not
    the store accepts them, and the calls it makes to the node. *)
Inductive Event :=
| SqlInsertInvoice (i : Invoice)
| SqlUpdateInvoice (i : Invoice)
| SqlInsertEntry (e : TransactionEntry)
| RpcSendPaymentSync (r : SendRequest)
| RpcAddInvoice (r : LnInvoice).

(** [faults] is the schedule of infrastructure failures of the store:
    every statement consumes the head, and fails when it is [true]; an
    exhausted schedule means no failure.  [clock] and [rand_src] are the
    readings to come of the wall clock and of math/rand's source, each
    consumed from the head (an exhausted one reads 0). *)
Record World := {
  db : DB;
  faults : list bool;
  clock : list Z;
  rand_src : list nat;
  trace : list Event
}.

Definition set_db (d : DB) (w : World) : World :=
  {| db := d; faults := faults w; clock := clock w;
     rand_src := rand_src w; trace := trace w |}.

Definition set_faults (f : list bool) (w : World) : World :=
  {| db := db w; faults := f; clock := clock w;
     rand_src := rand_src w; trace := trace w |}.

Definition set_clock (c : list Z) (w : World) : World :=
  {| db := db w; faults := faults w; clock := c;
     rand_src := rand_src w; trace := trace w |}.

Definition set_rand_src (r : list nat) (w : World) : World :=
  {| db := db w; faults := faults w; clock := clock w;
     rand_src := r; trace := trace w |}.

Definition set_trace (t : list Event) (w : World) : World :=
  {| db := db w; faults := faults w; clock := clock w;
     rand_src := rand_src w; trace := t |}.

(** ** The monad: a Go call either returns or panics *)

Inductive Outcome (A : Type) : Type :=
| Returned (a : A) (w : World)
| Panicked (w : World).

Arguments Returned {A} a w.
Arguments Panicked {A} w.

Definition M (A : Type) : Type := World -> Outcome A.

Definition ret {A} (a : A) : M A := fun w => Returned a w.

Definition bind {A B} (m : M A) (k : A -> M B) : M B :=
  fun w => match m w with
           | Returned a w' => k a w'
           | Panicked w' => Panicked w'
           end.

Definition panic {A} : M A := fun w => Panicked w.

Notation "x <- m ;; k" := (bind m (fun x => k))
  (at level 100, m at next level, right associativity).
Notation "m ;;; k" := (bind m (fun _ => k))
  (at level 100, right associativity).

Definition emit (ev : Event) : M unit :=
  fun w => Returned tt (set_trace (ev :: trace w) w).

(** The next entry of the failure schedule. *)
Definition exec_fault : M bool :=
  fun w => Returned (hd false (faults w)) (set_faults (tl (faults w)) w).

(** [time.Now()] *)
Definition time_Now : M Z :=
  fun w => Returned (hd 0 (clock w)) (set_clock (tl (clock w)) w).

(** [rand.Intn(n)], for [n > 0]: the next draw, reduced below [n]. *)
Definition rand_Intn (n : nat) : M nat :=
  fun w => Returned (hd 0%nat (rand_src w) mod n)%nat
                    (set_rand_src (tl (rand_src w)) w).

(** One statement sent to the store: it fails on an infrastructure
    fault, and otherwise does [f] to the tables. *)
Definition statement {A} (f : DB -> (A + error) * DB) : M (A + error) :=
  bad <- exec_fault ;;
  if bad : bool then ret (inr StoreError)
  else fun w => let (r, d) := f (db w) in Returned r (set_db d w).

(** ** The store *)

Definition set_accounts (l : list Account) (n : Z) (d : DB) : DB :=
  {| accounts := l; invoices := invoices d;
     transaction_entries := transaction_entries d;
     account_seq := n; invoice_seq := invoice_seq d; entry_seq := entry_seq d |}.

Definition set_invoices (l : list Invoice) (n : Z) (d : DB) : DB :=
  {| accounts := accounts d; invoices := l;
     transaction_entries := transaction_entries d;
     account_seq := account_seq d; invoice_seq := n; entry_seq := entry_seq d |}.

Definition set_transaction_entries (l : list TransactionEntry) (n : Z) (d : DB) : DB :=
  {| accounts := accounts d; invoices := invoices d;
     transaction_entries := l;
     account_seq := account_seq d; invoice_seq := invoice_seq d; entry_seq := n |}.

Definition with_EntryID (v : Z) (e : TransactionEntry) : TransactionEntry :=
  {| EntryID := v; EntryUserID := EntryUserID e; InvoiceID := InvoiceID e;
     ParentID := ParentID e; CreditAccountID := CreditAccountID e;
     DebitAccountID := DebitAccountID e; EntryAmount := EntryAmount e |}.

(** What one entry adds to the balance of account [a]. *)
Definition entry_effect (a : Z) (e : TransactionEntry) : Z :=
  (if CreditAccountID e =? a then EntryAmount e else 0)
  - (if DebitAccountID e =? a then EntryAmount e else 0).

(** Modelled from the spec: the balance of an account, which the store
    computes from the entries (the spec's [BalanceOf], section 3: "the
    signed sum of entries where their Current account is credit minus
    debit"); the view it is read from is not in this file. *)
Fixpoint account_balance (a : Z) (es : list TransactionEntry) : Z :=
  match es with
  | [] => 0
  | e :: es' => entry_effect a e + account_balance a es'
  end.

Definition account_has_kind (d : DB) (k : AccountType) (a : Z) : bool :=
  existsb (fun acc => (AccountID acc =? a) && AccountType_eqb (AccountKind acc) k)
          (accounts d).

(** Modelled from the spec: the balance constraint of the store, whose
    definition (a migration) is not in this file.  Sections 3 and 6: a
    check "preventing any Current account balance from going negative
    as a result of a TransactionEntry insert".  An entry lowers the
    balance of its debit account; it is refused when that account is a
    Current account and would end below zero. *)
Definition balance_guard (d : DB) (e : TransactionEntry) : bool :=
  negb (account_has_kind d AccountTypeCurrent (DebitAccountID e))
  || (0 <=? account_balance (DebitAccountID e) (e :: transaction_entries d)).

(** [svc.DB.NewInsert().Model(&entry).Exec(ctx)]: the row gets the next
    id, which is written back to the Go struct. *)
Definition insert_entry (e : TransactionEntry) (d : DB)
  : (TransactionEntry + error) * DB :=
  if balance_guard d e then
    let e' := with_EntryID (entry_seq d) e in
    (inl e', set_transaction_entries (e' :: transaction_entries d) (entry_seq d + 1) d)
  else (inr InsufficientBalance, d).

(** [svc.DB.NewInsert().Model(&invoice).Exec(ctx)] *)
Definition insert_invoice (i : Invoice) (d : DB) : (Invoice + error) * DB :=
  let i' := with_ID (invoice_seq d) i in
  (inl i', set_invoices (i' :: invoices d) (invoice_seq d + 1) d).

(** [svc.DB.NewUpdate().Model(invoice).WherePK().Exec(ctx)]: the row
    with the id of the struct takes all its columns from the struct;
    matching no row is not an error. *)
Definition update_invoice (i : Invoice) (d : DB) : (unit + error) * DB :=
  (inl tt,
   set_invoices (map (fun r => if ID r =? ID i then i else r) (invoices d))
                (invoice_seq d) d).

(** [svc.DB.NewSelect().Model(&inv).Where("type = ? AND payment_request
    = ? AND state = ? ", t, pr, st).Limit(1).Scan(ctx)] *)
Definition select_invoice (t : InvoiceType) (pr : string) (st : InvoiceState)
                          (d : DB) : (Invoice + error) * DB :=
  match find (fun r => InvoiceType_eqb (Type_ r) t
                       && String.eqb (PaymentRequest r) pr
                       && InvoiceState_eqb (State r) st) (invoices d) with
  | Some r => (inl r, d)
  | None => (inr NotFound, d)
  end.

(** Modelled from the spec: the account of a user and kind, section
    4.1: [AccountFor] "returns the existing account or atomically
    creates it.  Fails with StoreError if persistence fails."  The Go
    function is in another file of the package. *)
Definition account_for (k : AccountType) (user : Z) (d : DB)
  : (Account + error) * DB :=
  match find (fun a => (AccountUserID a =? user) && AccountType_eqb (AccountKind a) k)
             (accounts d) with
  | Some a => (inl a, d)
  | None =>
      let a := {| AccountID := account_seq d; AccountUserID := user; AccountKind := k |} in
      (inl a, set_accounts (a :: accounts d) (account_seq d + 1) d)
  end.

Definition AccountFor (k : AccountType) (user : Z) : M (Account + error) :=
  statement (account_for k user).

(** Modelled from the spec: [CurrentUserBalance], section 4.2
    ([BalanceOf]): the balance of the user's Current account, computed
    from the entries.  The Go function is in another file of the
    package. *)
Definition current_user_balance (user : Z) (d : DB) : (Z + error) * DB :=
  match account_for AccountTypeCurrent user d with
  | (inl a, d') => (inl (account_balance (AccountID a) (transaction_entries d')), d')
  | (inr e, d') => (inr e, d')
  end.

Definition CurrentUserBalance (user : Z) : M (Z + error) :=
  statement (current_user_balance user).

(** The four statements as this file sends them. *)
Definition InsertEntry (e : TransactionEntry) : M (TransactionEntry + error) :=
  emit (SqlInsertEntry e) ;;; statement (insert_entry e).

Definition InsertInvoice (i : Invoice) : M (Invoice + error) :=
  emit (SqlInsertInvoice i) ;;; statement (insert_invoice i).

Definition UpdateInvoice (i : Invoice) : M (unit + error) :=
  emit (SqlUpdateInvoice i) ;;; statement (update_invoice i).

Definition SelectInvoice (t : InvoiceType) (pr : string) (st : InvoiceState)
  : M (Invoice + error) :=
  statement (select_invoice t pr st).

(** [svc.DB.NewSelect().Model(&invoice).Where("invoice.user_id = ? AND
    invoice.r_hash = ?", userId, rHash).Limit(1).Scan(ctx)] *)
Definition select_invoice_by_hash (userId : Z) (rHash : string) (d : DB)
  : (Invoice + error) * DB :=
  match find (fun r => (UserID r =? userId) && String.eqb (RHash r) rHash)
             (invoices d) with
  | Some r => (inl r, d)
  | None => (inr NotFound, d)
  end.

Definition SelectInvoiceByHash (userId : Z) (rHash : string) : M (Invoice + error) :=
  statement (select_invoice_by_hash userId rHash).

(** ** lib/service/invoices.go *)

Record LndhubService := {
  IdentityPubkey : string;
  LndClient : LightningClientWrapper
}.

(** [lnd.LNPayReq], the decoded payment request. *)
Record PayReq := {
  PayReqDestination : string;
  PayReqPaymentHash : string;
  NumSatoshis : Z;
  PayReqTimestamp : Z;
  PayReqExpiry : Z;
  PayReqDescription : string;
  PayReqDescriptionHash : string
}.

Record LNPayReq := { LNPayReq_PayReq : PayReq; LNPayReq_Keysend : bool }.

(** [time.Duration] counts nanoseconds. *)
Definition time_Second : Z := 1000000000.
Definition time_Hour : Z := 3600 * time_Second.

(** [int64(d.Seconds())], exact for the whole seconds met here. *)
Definition Duration_Seconds (d : Z) : Z := d / time_Second.

(** [time.Unix(sec, 0)] *)
Definition time_Unix (sec : Z) : Z := sec * time_Second.

(** [random.Hex] of labstack/gommon. *)
Definition hexBytes : string := "0123456789abcdef".

(** The loop of [makePreimageHex] over the [n] cells still to fill. *)
Fixpoint fill_hex (n : nat) : M (list byte) :=
  match n with
  | O => ret []
  | S n' =>
      k <- rand_Intn (String.length hexBytes) ;;
      match nth_error (list_byte_of_string hexBytes) k with
      | Some c => rest <- fill_hex n' ;; ret (c :: rest)
      | None => panic                       (* index out of range *)
      end
  end.

Definition makePreimageHex : M (list byte) := fill_hex 32.

(** [x == nil] on a slice. *)
Definition is_nil {A} (x : option A) : bool :=
  match x with None => true | Some _ => false end.

Section Service.

(** [crypto/sha256] and the constant [KEYSEND_CUSTOM_RECORD], which is
    declared in another file of the package. *)
Variable sha256 : list byte -> list byte.
Variable KEYSEND_CUSTOM_RECORD : Z.

Variable svc : LndhubService.

Set Default Proof Using "Type".

(** On failure Go returns the error with [&invoice], a pointer to the
    struct the scan never wrote to; that zero value has no member in
    the enumerations and holds no row: it is [None] here. *)
Definition FindInvoiceByPaymentHash (userId : Z) (rHash : string)
  : M (option Invoice * option error) :=
  r <- SelectInvoiceByHash userId rHash ;;
  match r with
  | inr err => ret (None, Some err)
  | inl invoice => ret (Some invoice, None)
  end.

(** The invoice is a pointer in Go and its custom records are written
    to: the function also returns the invoice as it leaves it. *)
Definition createLnRpcSendRequest (invoice : Invoice)
  : M ((SendRequest + error) * Invoice) :=
  let feeLimit := FeeLimit_Fixed 300 in
  if negb (Keysend invoice) then
    ret (inl {| Dest := []; Amt := Amount invoice; ReqPaymentHash := [];
                ReqPaymentRequest := PaymentRequest invoice;
                ReqFeeLimit := Some feeLimit; DestFeatures := [];
                DestCustomRecords := None |}, invoice)
  else
    preImage <- makePreimageHex ;;
    let pHash := sha256 preImage in
    match hex.DecodeString (DestinationPubkeyHex invoice) with
    | (_, Some err) => ret (inr err, invoice)
    | (destBytes, None) =>
        match DestinationCustomRecords invoice with
        | None => panic                   (* assignment to entry in nil map *)
        | Some records =>
            let records := <[KEYSEND_CUSTOM_RECORD := preImage]> records in
            let invoice := with_DestinationCustomRecords (Some records) invoice in
            ret (inl {| Dest := destBytes; Amt := Amount invoice;
                        ReqPaymentHash := pHash; ReqPaymentRequest := "";
                        ReqFeeLimit := Some feeLimit;
                        DestFeatures := [FeatureBit_TLV_ONION_REQ];
                        DestCustomRecords := DestinationCustomRecords invoice |},
                 invoice)
        end
    end.

Definition SendInternalPayment (invoice : Invoice)
  : M (SendPaymentResponse * option error) :=
  let sendPaymentResponse := SendPaymentResponse_zero in
  (* find invoice *)
  r <- SelectInvoice InvoiceTypeIncoming (PaymentRequest invoice) InvoiceStateOpen ;;
  match r with
  | inr err => ret (sendPaymentResponse, Some err)
  | inl incomingInvoice =>
  r <- AccountFor AccountTypeCurrent (UserID incomingInvoice) ;;
  match r with
  | inr err => ret (sendPaymentResponse, Some err)
  | inl recipientCreditAccount =>
  r <- AccountFor AccountTypeIncoming (UserID incomingInvoice) ;;
  match r with
  | inr err => ret (sendPaymentResponse, Some err)
  | inl recipientDebitAccount =>
  (* create recipient entry *)
  let recipientEntry :=
    {| EntryID := 0; EntryUserID := UserID incomingInvoice;
       InvoiceID := ID incomingInvoice; ParentID := 0;
       CreditAccountID := AccountID recipientCreditAccount;
       DebitAccountID := AccountID recipientDebitAccount;
       EntryAmount := Amount invoice |} in
  r <- InsertEntry recipientEntry ;;
  match r with
  | inr err => ret (sendPaymentResponse, Some err)
  | inl _ =>
  let (preimage, _) := hex.DecodeString (Preimage incomingInvoice) in
  let (paymentHash, _) := hex.DecodeString (RHash invoice) in
  let sendPaymentResponse :=
    {| PaymentPreimage := preimage;
       PaymentPreimageStr := Preimage incomingInvoice;
       PaymentError := "";
       PaymentHash := paymentHash;
       PaymentHashStr := RHash invoice;
       PaymentRoute := Some {| TotalAmt := Amount invoice; TotalFees := 0 |};
       RespTransactionEntry := None;
       RespInvoice := Some invoice |} in
  let incomingInvoice := with_Internal true incomingInvoice in
  let incomingInvoice := with_State InvoiceStateSettled incomingInvoice in
  now <- time_Now ;;
  let incomingInvoice := with_SettledAt (Some now) incomingInvoice in
  r <- UpdateInvoice incomingInvoice ;;
  match r with
  | inr err => ret (sendPaymentResponse, Some err)
  | inl _ => ret (sendPaymentResponse, None)
  end end end end end.

Definition SendPaymentSync (invoice : Invoice)
  : M (SendPaymentResponse * option error * Invoice) :=
  let sendPaymentResponse := SendPaymentResponse_zero in
  r <- createLnRpcSendRequest invoice ;;
  let (req, invoice) := r in
  match req with
  | inr err => ret (sendPaymentResponse, Some err, invoice)
  | inl sendPaymentRequest =>
  (* Execute the payment *)
  emit (RpcSendPaymentSync sendPaymentRequest) ;;;
  match LndSendPaymentSync (LndClient svc) sendPaymentRequest with
  | inr err => ret (sendPaymentResponse, Some err, invoice)
  | inl sendPaymentResult =>
  (* If there was a payment error we return an error *)
  if negb (String.eqb (RespPaymentError sendPaymentResult) "")
     || is_nil (RespPaymentPreimage sendPaymentResult) then
    ret (sendPaymentResponse,
         Some (ErrorsNew (RespPaymentError sendPaymentResult)), invoice)
  else
    let preimage := default [] (RespPaymentPreimage sendPaymentResult) in
    let paymentHash := RespPaymentHash sendPaymentResult in
    match RespPaymentRoute sendPaymentResult with
    | None => panic                       (* nil pointer dereference *)
    | Some route =>
        ret ({| PaymentPreimage := preimage;
                PaymentPreimageStr := hex.EncodeToString preimage;
                PaymentError := "";
                PaymentHash := paymentHash;
                PaymentHashStr := hex.EncodeToString paymentHash;
                PaymentRoute := Some {| TotalAmt := LnTotalAmt route;
                                        TotalFees := LnTotalFees route |};
                RespTransactionEntry := None;
                RespInvoice := None |}, None, invoice)
    end
  end end.

(** The calls to the logger and to sentry are left out here and
    below: they change neither the store nor what is returned. *)
Definition HandleFailedPayment (invoice : Invoice) (entryToRevert : TransactionEntry)
                               (failedPaymentError : option error)
  : M (option error * Invoice) :=
  (* add transaction entry with reverted credit/debit account id *)
  let entry :=
    {| EntryID := 0; EntryUserID := UserID invoice; InvoiceID := ID invoice;
       ParentID := 0;
       CreditAccountID := DebitAccountID entryToRevert;
       DebitAccountID := CreditAccountID entryToRevert;
       EntryAmount := Amount invoice |} in
  r <- InsertEntry entry ;;
  match r with
  | inr err => ret (Some err, invoice)
  | inl _ =>
  let invoice := with_State InvoiceStateError invoice in
  let invoice :=
    match failedPaymentError with
    | Some e => with_ErrorMessage (Error e) invoice
    | None => invoice
    end in
  r <- UpdateInvoice invoice ;;
  match r with
  | inr err => ret (Some err, invoice)
  | inl _ => ret (None, invoice)
  end end.

Definition HandleSuccessfulPayment (invoice : Invoice) (parentEntry : TransactionEntry)
  : M (option error * Invoice) :=
  let invoice := with_State InvoiceStateSettled invoice in
  now <- time_Now ;;
  let invoice := with_SettledAt (Some now) invoice in
  (* a failure of this update is logged, and then overwritten *)
  UpdateInvoice invoice ;;;
  r <- AccountFor AccountTypeFees (UserID invoice) ;;
  match r with
  | inr err => ret (Some err, invoice)
  | inl feeAccount =>
  (* add transaction entry for fee *)
  let entry :=
    {| EntryID := 0; EntryUserID := UserID invoice; InvoiceID := ID invoice;
       ParentID := EntryID parentEntry;
       CreditAccountID := AccountID feeAccount;
       DebitAccountID := DebitAccountID parentEntry;
       EntryAmount := Fee invoice |} in
  r <- InsertEntry entry ;;
  match r with
  | inr err => ret (Some err, invoice)
  | inl entry =>
  r <- CurrentUserBalance (EntryUserID entry) ;;
  match r with
  | inr err => ret (Some err, invoice)
  | inl userBalance =>
      (* a negative balance is only reported *)
      ret (None, invoice)
  end end end.

(** The response points to the caller's invoice when
    [SendInternalPayment] built it: it is read again on return. *)
Definition PayInvoice (invoice : Invoice)
  : M (option SendPaymentResponse * option error * Invoice) :=
  let userId := UserID invoice in
  (* Get the user's current and outgoing account for the transaction entry *)
  r <- AccountFor AccountTypeCurrent userId ;;
  match r with
  | inr err => ret (None, Some err, invoice)
  | inl debitAccount =>
  r <- AccountFor AccountTypeOutgoing userId ;;
  match r with
  | inr err => ret (None, Some err, invoice)
  | inl creditAccount =>
  let entry :=
    {| EntryID := 0; EntryUserID := userId; InvoiceID := ID invoice;
       ParentID := 0;
       CreditAccountID := AccountID creditAccount;
       DebitAccountID := AccountID debitAccount;
       EntryAmount := Amount invoice |} in
  (* The DB constraints make sure the user actually has enough balance *)
  r <- InsertEntry entry ;;
  match r with
  | inr err => ret (None, Some err, invoice)
  | inl entry =>
  let success (paymentResponse : SendPaymentResponse) (invoice : Invoice) :=
    match PaymentRoute paymentResponse with
    | None => panic                       (* nil pointer dereference *)
    | Some route =>
        let invoice := with_Preimage (PaymentPreimageStr paymentResponse) invoice in
        let invoice := with_Fee (TotalFees route) invoice in
        r <- HandleSuccessfulPayment invoice entry ;;
        let (err, invoice) := r in
        ret (Some {| PaymentPreimage := PaymentPreimage paymentResponse;
                     PaymentPreimageStr := PaymentPreimageStr paymentResponse;
                     PaymentError := PaymentError paymentResponse;
                     PaymentHash := PaymentHash paymentResponse;
                     PaymentHashStr := PaymentHashStr paymentResponse;
                     PaymentRoute := PaymentRoute paymentResponse;
                     RespTransactionEntry := Some entry;
                     RespInvoice :=
                       match RespInvoice paymentResponse with
                       | Some _ => Some invoice
                       | None => None
                       end |},
             err, invoice)
    end in
  (* Check the destination pubkey if it is an internal invoice *)
  if String.eqb (IdentityPubkey svc) (DestinationPubkeyHex invoice) then
    r <- SendInternalPayment invoice ;;
    match r with
    | (_, Some err) =>
        r <- HandleFailedPayment invoice entry (Some err) ;;
        ret (None, Some err, snd r)
    | (paymentResponse, None) => success paymentResponse invoice
    end
  else
    r <- SendPaymentSync invoice ;;
    match r with
    | (_, Some err, invoice) =>
        r <- HandleFailedPayment invoice entry (Some err) ;;
        ret (None, Some err, snd r)
    | (paymentResponse, None, invoice) => success paymentResponse invoice
    end
  end end end.

Definition AddOutgoingInvoice (userID : Z) (paymentRequest : string)
                              (lnPayReq : LNPayReq)
  : M (option Invoice * option error) :=
  let p := LNPayReq_PayReq lnPayReq in
  (* Initialize new DB invoice *)
  let invoice :=
    {| ID := 0; Type_ := InvoiceTypeOutgoing; UserID := userID;
       Amount := NumSatoshis p; Fee := 0; Memo := PayReqDescription p;
       DescriptionHash := PayReqDescriptionHash p;
       PaymentRequest := paymentRequest;
       DestinationPubkeyHex := PayReqDestination p;
       DestinationCustomRecords := None;
       RHash := PayReqPaymentHash p; Preimage := ""; Internal := false;
       Keysend := LNPayReq_Keysend lnPayReq;
       State := InvoiceStateInitialized; ErrorMessage := ""; AddIndex := 0;
       ExpiresAt := Some (time_Unix (PayReqTimestamp p) + PayReqExpiry p * time_Second);
       SettledAt := None |} in
  (* Save invoice *)
  r <- InsertInvoice invoice ;;
  match r with
  | inr err => ret (None, Some err)
  | inl invoice => ret (Some invoice, None)
  end.

Definition AddIncomingInvoice (userID amount : Z) (memo descriptionHashStr : string)
  : M (option Invoice * option error) :=
  preimage <- makePreimageHex ;;
  let expiry := time_Hour * 24 in         (* invoice expires in 24h *)
  (* Initialize new DB invoice *)
  now <- time_Now ;;
  let invoice :=
    {| ID := 0; Type_ := InvoiceTypeIncoming; UserID := userID;
       Amount := amount; Fee := 0; Memo := memo;
       DescriptionHash := descriptionHashStr; PaymentRequest := "";
       DestinationPubkeyHex := ""; DestinationCustomRecords := None;
       RHash := ""; Preimage := ""; Internal := false; Keysend := false;
       State := InvoiceStateInitialized; ErrorMessage := ""; AddIndex := 0;
       ExpiresAt := Some (now + expiry); SettledAt := None |} in
  (* Save invoice - we save the invoice early to have a record in case
     the LN call fails *)
  r <- InsertInvoice invoice ;;
  match r with
  | inr err => ret (None, Some err)
  | inl invoice =>
  match hex.DecodeString descriptionHashStr with
  | (_, Some err) => ret (None, Some err)
  | (descriptionHash, None) =>
  (* Initialize lnrpc invoice *)
  let lnInvoice :=
    {| LnMemo := memo; LnDescriptionHash := descriptionHash; LnValue := amount;
       RPreimage := preimage; Expiry := Duration_Seconds expiry |} in
  (* Call LND *)
  emit (RpcAddInvoice lnInvoice) ;;;
  match LndAddInvoice (LndClient svc) lnInvoice with
  | inr err => ret (None, Some err)
  | inl lnInvoiceResult =>
  (* Update the DB invoice with the data from the LND gRPC call *)
  let invoice := with_PaymentRequest (AddPaymentRequest lnInvoiceResult) invoice in
  let invoice := with_RHash (hex.EncodeToString (AddRHash lnInvoiceResult)) invoice in
  let invoice := with_Preimage (hex.EncodeToString preimage) invoice in
  let invoice := with_AddIndex (AddAddIndex lnInvoiceResult) invoice in
  let invoice := with_DestinationPubkeyHex (IdentityPubkey svc) invoice in
  let invoice := with_State InvoiceStateOpen invoice in
  r <- UpdateInvoice invoice ;;
  match r with
  | inr err => ret (None, Some err)
  | inl _ => ret (Some invoice, None)
  end end end end.


(** * Vocabulary of the properties *)

(** The alphabet [makePreimageHex] draws from. *)
Definition hex_alphabet : list byte := list_byte_of_string hexBytes.

Definition hex_value (c : byte) : N := default 0%N (hex.fromHexChar c).

(** A string of hex digits read as a number in base 16, and the [len]
    digits of a number. *)
Definition preimage_code (p : list byte) : N :=
  fold_left (fun acc c => (acc * 16 + hex_value c)%N) p 0%N.

Fixpoint code_preimage (len : nat) (n : N) : list byte :=
  match len with
  | O => []
  | S l => code_preimage l (n / 16)%N ++ [hex.digit (n mod 16)%N]
  end.

(** The account a user has of a kind, if any. *)
Definition lookup_account (k : AccountType) (user : Z) (d : DB) : option Account :=
  find (fun a => (AccountUserID a =? user) && AccountType_eqb (AccountKind a) k)
       (accounts d).

(** The two halves of [account_for]. *)
Definition the_account (k : AccountType) (user : Z) (d : DB) : Account :=
  match lookup_account k user d with
  | Some a => a
  | None => {| AccountID := account_seq d; AccountUserID := user; AccountKind := k |}
  end.

Definition with_account (k : AccountType) (user : Z) (d : DB) : DB :=
  snd (account_for k user d).

(** The primary key of the accounts: ids are distinct and were drawn
    from the sequence. *)
Definition accounts_ok (d : DB) : Prop :=
  List.NoDup (map AccountID (accounts d))
  /\ Forall (fun a => AccountID a < account_seq d) (accounts d).

(** The balance [CurrentUserBalance] reads for a user. *)
Definition current_balance (user : Z) (d : DB) : Z :=
  account_balance (AccountID (the_account AccountTypeCurrent user d))
                  (transaction_entries d).

(** The entries of one invoice. *)
Definition entries_of (invoice_id : Z) (d : DB) : list TransactionEntry :=
  List.filter (fun e => InvoiceID e =? invoice_id) (transaction_entries d).

(** A world in which the store has no failure to come. *)
Definition world (d : DB) (c : list Z) (r : list nat) (t : list Event) : World :=
  {| db := d; faults := []; clock := c; rand_src := r; trace := t |}.

(** An insert of [e] that the store accepts. *)
Definition post_entry (e : TransactionEntry) (d : DB) : DB :=
  set_transaction_entries (with_EntryID (entry_seq d) e :: transaction_entries d)
                          (entry_seq d + 1) d.

(** The store once [PayInvoice] has resolved the payer's two accounts,
    and the entry it then sends. *)
Definition reserved (invoice : Invoice) (d : DB) : DB :=
  with_account AccountTypeOutgoing (UserID invoice)
    (with_account AccountTypeCurrent (UserID invoice) d).

Definition principal_entry (invoice : Invoice) (d : DB) : TransactionEntry :=
  {| EntryID := 0; EntryUserID := UserID invoice; InvoiceID := ID invoice;
     ParentID := 0;
     CreditAccountID :=
       AccountID (the_account AccountTypeOutgoing (UserID invoice)
                    (with_account AccountTypeCurrent (UserID invoice) d));
     DebitAccountID := AccountID (the_account AccountTypeCurrent (UserID invoice) d);
     EntryAmount := Amount invoice |}.

(** What [PayInvoice] does with the answer of the path it took, [entry]
    being the provisional entry as the store returned it. *)
Definition reconcile (entry : TransactionEntry)
                     (routed : SendPaymentResponse * option error * Invoice)
  : M (option SendPaymentResponse * option error * Invoice) :=
  match routed with
  | (_, Some err, invoice) =>
      r <- HandleFailedPayment invoice entry (Some err) ;;
      ret (None, Some err, snd r)
  | (paymentResponse, None, invoice) =>
      match PaymentRoute paymentResponse with
      | None => panic
      | Some route =>
          let invoice := with_Preimage (PaymentPreimageStr paymentResponse) invoice in
          let invoice := with_Fee (TotalFees route) invoice in
          r <- HandleSuccessfulPayment invoice entry ;;
          let (err, invoice) := r in
          ret (Some {| PaymentPreimage := PaymentPreimage paymentResponse;
                       PaymentPreimageStr := PaymentPreimageStr paymentResponse;
                       PaymentError := PaymentError paymentResponse;
                       PaymentHash := PaymentHash paymentResponse;
                       PaymentHashStr := PaymentHashStr paymentResponse;
                       PaymentRoute := PaymentRoute paymentResponse;
                       RespTransactionEntry := Some entry;
                       RespInvoice :=
                         match RespInvoice paymentResponse with
                         | Some _ => Some invoice
                         | None => None
                         end |},
               err, invoice)
      end
  end.

(** The calls made to the node among the events. *)
Definition is_rpc (ev : Event) : bool :=
  match ev with
  | RpcSendPaymentSync _ | RpcAddInvoice _ => true
  | _ => false
  end.

Definition rpc_calls (t : list Event) : list Event := List.filter is_rpc t.

(** The world a call leaves, whether it returned or panicked. *)
Definition world_of {A} (o : Outcome A) : World :=
  match o with
  | Returned _ w => w
  | Panicked w => w
  end.

(** A computation that makes no call to the node, and one that leaves
    the store alone. *)
Definition no_rpc {A} (m : M A) : Prop :=
  forall w, rpc_calls (trace (world_of (m w))) = rpc_calls (trace w).

Definition keeps_db {A} (m : M A) : Prop :=
  forall w, db (world_of (m w)) = db w /\ faults (world_of (m w)) = faults w
            /\ clock (world_of (m w)) = clock w.

(** The row [SendInternalPayment] looks for. *)
Definition find_open_incoming (pr : string) (d : DB) : option Invoice :=
  find (fun r => InvoiceType_eqb (Type_ r) InvoiceTypeIncoming
                 && String.eqb (PaymentRequest r) pr
                 && InvoiceState_eqb (State r) InvoiceStateOpen) (invoices d).

(** What [SendInternalPayment] builds for the recipient's row
    [incoming]: the entry, the row as settled at instant [now], the
    response, and the store it leaves. *)
Definition recipient_entry (invoice incoming : Invoice) (d : DB) : TransactionEntry :=
  {| EntryID := 0; EntryUserID := UserID incoming; InvoiceID := ID incoming;
     ParentID := 0;
     CreditAccountID :=
       AccountID (the_account AccountTypeCurrent (UserID incoming) d);
     DebitAccountID :=
       AccountID (the_account AccountTypeIncoming (UserID incoming)
                    (with_account AccountTypeCurrent (UserID incoming) d));
     EntryAmount := Amount invoice |}.

Definition settled_incoming (incoming : Invoice) (now : Z) : Invoice :=
  with_SettledAt (Some now)
    (with_State InvoiceStateSettled (with_Internal true incoming)).

Definition internal_response (invoice incoming : Invoice) : SendPaymentResponse :=
  {| PaymentPreimage := fst (hex.DecodeString (Preimage incoming));
     PaymentPreimageStr := Preimage incoming;
     PaymentError := "";
     PaymentHash := fst (hex.DecodeString (RHash invoice));
     PaymentHashStr := RHash invoice;
     PaymentRoute := Some {| TotalAmt := Amount invoice; TotalFees := 0 |};
     RespTransactionEntry := None;
     RespInvoice := Some invoice |}.

Definition received (invoice incoming : Invoice) (now : Z) (d : DB) : DB :=
  snd (update_invoice (settled_incoming incoming now)
         (post_entry (recipient_entry invoice incoming d)
            (with_account AccountTypeIncoming (UserID incoming)
               (with_account AccountTypeCurrent (UserID incoming) d)))).

(** What [HandleFailedPayment] builds: the reversing entry, the invoice
    as failed, and the store it leaves. *)
Definition reversal (invoice : Invoice) (entry : TransactionEntry) : TransactionEntry :=
  {| EntryID := 0; EntryUserID := UserID invoice; InvoiceID := ID invoice;
     ParentID := 0;
     CreditAccountID := DebitAccountID entry;
     DebitAccountID := CreditAccountID entry;
     EntryAmount := Amount invoice |}.

Definition failed (invoice : Invoice) (e : error) : Invoice :=
  with_ErrorMessage (Error e) (with_State InvoiceStateError invoice).

Definition reverted (invoice : Invoice) (entry : TransactionEntry) (e : error)
                    (d : DB) : DB :=
  snd (update_invoice (failed invoice e) (post_entry (reversal invoice entry) d)).

(** What [HandleSuccessfulPayment] builds: the invoice as settled at
    [now], the fee entry, and the store it leaves. *)
Definition settled (invoice : Invoice) (now : Z) : Invoice :=
  with_SettledAt (Some now) (with_State InvoiceStateSettled invoice).

Definition fee_entry (invoice : Invoice) (parent : TransactionEntry) (d : DB)
  : TransactionEntry :=
  {| EntryID := 0; EntryUserID := UserID invoice; InvoiceID := ID invoice;
     ParentID := EntryID parent;
     CreditAccountID := AccountID (the_account AccountTypeFees (UserID invoice) d);
     DebitAccountID := DebitAccountID parent;
     EntryAmount := Fee invoice |}.

Definition charged (invoice : Invoice) (parent : TransactionEntry) (now : Z)
                   (d : DB) : DB :=
  let d1 := snd (update_invoice (settled invoice now) d) in
  with_account AccountTypeCurrent (UserID invoice)
    (post_entry (fee_entry invoice parent d1)
       (with_account AccountTypeFees (UserID invoice) d1)).

(** The store once the provisional entry is in, and that entry as the
    store returned it. *)
Definition provisioned (invoice : Invoice) (d : DB) : DB :=
  post_entry (principal_entry invoice d) (reserved invoice d).

Definition principal (invoice : Invoice) (d : DB) : TransactionEntry :=
  with_EntryID (entry_seq d) (principal_entry invoice d).

(** The invoice as [PayInvoice] stamps it from a response. *)
Definition stamped (resp : SendPaymentResponse) (fee : Z) (invoice : Invoice) : Invoice :=
  with_Fee fee (with_Preimage (PaymentPreimageStr resp) invoice).

(** The response as [PayInvoice] hands it to its caller, the caller's
    invoice being [final] by then. *)
Definition handed (resp : SendPaymentResponse) (entry : TransactionEntry)
                  (final : Invoice) : SendPaymentResponse :=
  {| PaymentPreimage := PaymentPreimage resp;
     PaymentPreimageStr := PaymentPreimageStr resp;
     PaymentError := PaymentError resp;
     PaymentHash := PaymentHash resp;
     PaymentHashStr := PaymentHashStr resp;
     PaymentRoute := PaymentRoute resp;
     RespTransactionEntry := Some entry;
     RespInvoice := match RespInvoice resp with
                    | Some _ => Some final
                    | None => None
                    end |}.

(** [d'] has the accounts of [d], and finds them as [d] does. *)
Definition grows (d d' : DB) : Prop :=
  (forall a, In a (accounts d) -> In a (accounts d'))
  /\ (accounts_ok d -> accounts_ok d')
  /\ (forall k user a, lookup_account k user d = Some a ->
                       lookup_account k user d' = Some a).

(** [b] is the invoice [a] but for its custom records, which is all
    [createLnRpcSendRequest] writes to. *)
Definition same_payment (a b : Invoice) : Prop :=
  b = with_DestinationCustomRecords (DestinationCustomRecords b) a.

(** The node never answers a payment as made without its route. *)
Definition routes_reported (lnd : LightningClientWrapper) : Prop :=
  forall req res,
    LndSendPaymentSync lnd req = inl res ->
    RespPaymentError res = "" ->
    RespPaymentPreimage res <> None ->
    RespPaymentRoute res <> None.

(** The largest fee the node may report for a payment it made. *)
Definition fees_within (lnd : LightningClientWrapper) (limit : Z) : Prop :=
  forall req res route,
    LndSendPaymentSync lnd req = inl res ->
    RespPaymentRoute res = Some route ->
    LnTotalFees route <= limit.

(** [rev] undoes [entry]: the same amount between the same two
    accounts, the other way round. *)
Definition exact_reversal (rev entry : TransactionEntry) : Prop :=
  CreditAccountID rev = DebitAccountID entry
  /\ DebitAccountID rev = CreditAccountID entry
  /\ EntryAmount rev = EntryAmount entry
  /\ EntryUserID rev = EntryUserID entry
  /\ InvoiceID rev = InvoiceID entry.

(** Every row of the store with the id of [invoice] is [invoice]. *)
Definition stored (invoice : Invoice) (d : DB) : Prop :=
  forall row, In row (invoices d) -> ID row = ID invoice -> row = invoice.

(** Whatever the store and the node do, [m] adds to the ledger only
    entries that satisfy [P], none is removed or changed, and what it
    returns satisfies [R]. *)
Definition inserts {A} (P : TransactionEntry -> Prop) (R : A -> Prop) (m : M A) : Prop :=
  forall w,
    (exists delta,
        transaction_entries (db (world_of (m w)))
        = (delta ++ transaction_entries (db w))%list
        /\ Forall P delta)
    /\ (forall a w', m w = Returned a w' -> R a).

(** The amount of a fee entry [PayInvoice] may insert for [invoice]:
    zero on the internal path, the total fees of a route the node
    reported otherwise. *)
Definition route_fee (svc : LndhubService) (invoice : Invoice) (fee : Z) : Prop :=
  if String.eqb (IdentityPubkey svc) (DestinationPubkeyHex invoice)
  then fee = 0
  else exists req res route,
         LndSendPaymentSync (LndClient svc) req = inl res
         /\ RespPaymentRoute res = Some route
         /\ fee = LnTotalFees route.

(** What [AddIncomingInvoice] builds: the invoice as first sent to the
    store at instant [now], the message to the node, and the invoice
    opened with the node's answer. *)
Definition initialized_invoice (userID amount : Z) (memo descriptionHashStr : string)
                               (now : Z) : Invoice :=
  {| ID := 0; Type_ := InvoiceTypeIncoming; UserID := userID;
     Amount := amount; Fee := 0; Memo := memo;
     DescriptionHash := descriptionHashStr; PaymentRequest := "";
     DestinationPubkeyHex := ""; DestinationCustomRecords := None;
     RHash := ""; Preimage := ""; Internal := false; Keysend := false;
     State := InvoiceStateInitialized; ErrorMessage := ""; AddIndex := 0;
     ExpiresAt := Some (now + time_Hour * 24); SettledAt := None |}.

Definition opened_invoice (svc : LndhubService) (answer : AddInvoiceResponse)
                          (preimage : list byte) (row : Invoice) : Invoice :=
  with_State InvoiceStateOpen
    (with_DestinationPubkeyHex (IdentityPubkey svc)
       (with_AddIndex (AddAddIndex answer)
          (with_Preimage (hex.EncodeToString preimage)
             (with_RHash (hex.EncodeToString (AddRHash answer))
                (with_PaymentRequest (AddPaymentRequest answer) row))))).

(** The invoice [AddOutgoingInvoice] builds from a decoded payment
    request. *)
Definition outgoing_invoice (userID : Z) (paymentRequest : string)
                            (lnPayReq : LNPayReq) : Invoice :=
  let p := LNPayReq_PayReq lnPayReq in
  {| ID := 0; Type_ := InvoiceTypeOutgoing; UserID := userID;
     Amount := NumSatoshis p; Fee := 0; Memo := PayReqDescription p;
     DescriptionHash := PayReqDescriptionHash p;
     PaymentRequest := paymentRequest;
     DestinationPubkeyHex := PayReqDestination p;
     DestinationCustomRecords := None;
     RHash := PayReqPaymentHash p; Preimage := ""; Internal := false;
     Keysend := LNPayReq_Keysend lnPayReq;
     State := InvoiceStateInitialized; ErrorMessage := ""; AddIndex := 0;
     ExpiresAt := Some (time_Unix (PayReqTimestamp p) + PayReqExpiry p * time_Second);
     SettledAt := None |}.

(** The next [n] readings of math/rand's source, and the character
    [makePreimageHex] writes for a reading. *)
Fixpoint draws (n : nat) (r : list nat) : list nat :=
  match n with
  | O => []
  | S n' => hd 0%nat r :: draws n' (tl r)
  end.

Definition hex_pick (k : nat) : byte :=
  nth (k mod 16) (list_byte_of_string hexBytes) x00.

(** The primary key of the invoices, and a computation that leaves the
    invoices of others alone: it adds and removes no row, and changes
    none but rows with the id of [invoice] and Open incoming rows for
    its payment request. *)
Definition invoices_ok (d : DB) : Prop := List.NoDup (map ID (invoices d)).

Definition spares {A} (invoice : Invoice) (m : M A) : Prop :=
  forall w,
    invoices_ok (db w) ->
    map ID (invoices (db (world_of (m w)))) = map ID (invoices (db w))
    /\ forall row,
         In row (invoices (db w)) ->
         ID row <> ID invoice ->
         (Type_ row = InvoiceTypeIncoming -> State row = InvoiceStateOpen ->
          PaymentRequest row <> PaymentRequest invoice) ->
         In row (invoices (db (world_of (m w)))).

(** ** A small ledger to run the code on

    User 1 holds 1000 on a Current account (id 1), funded from their
    Incoming account (id 2); user 2 has an Open incoming invoice (id
    20) for 500; rows 21 to 24 are outgoing invoices about to be paid:
    21 and 22 by user 1 for the payment request of row 20, 23 by user 3
    (who holds nothing), 24 by user 1 to a foreign node.  The node
    answers every payment as made, with a fee of 3, and every invoice
    with the payment request "lnbc500". *)

Definition ex_invoice (id : Z) (t : InvoiceType) (user amount : Z) (pr dest : string)
                      (st : InvoiceState) (preimage : string) : Invoice :=
  {| ID := id; Type_ := t; UserID := user; Amount := amount; Fee := 0; Memo := "";
     DescriptionHash := ""; PaymentRequest := pr; DestinationPubkeyHex := dest;
     DestinationCustomRecords := None; RHash := "abcd"; Preimage := preimage;
     Internal := false; Keysend := false; State := st; ErrorMessage := "";
     AddIndex := 0; ExpiresAt := None; SettledAt := None |}.

Definition ex_incoming : Invoice :=
  ex_invoice 20 InvoiceTypeIncoming 2 500 "lnbc500" "02aa" InvoiceStateOpen "3031".

Definition ex_pay_internal : Invoice :=
  ex_invoice 21 InvoiceTypeOutgoing 1 500 "lnbc500" "02aa" InvoiceStateInitialized "".

Definition ex_pay_again : Invoice :=
  ex_invoice 22 InvoiceTypeOutgoing 1 500 "lnbc500" "02aa" InvoiceStateInitialized "".

Definition ex_pay_poor : Invoice :=
  ex_invoice 23 InvoiceTypeOutgoing 3 500 "lnbc9" "03bb" InvoiceStateInitialized "".

Definition ex_pay_external : Invoice :=
  ex_invoice 24 InvoiceTypeOutgoing 1 500 "lnbc9" "03bb" InvoiceStateInitialized "".

(** The whole balance of user 1, to a foreign node: nothing is left
    for the fee. *)
Definition ex_pay_all : Invoice :=
  ex_invoice 25 InvoiceTypeOutgoing 1 1000 "lnbc9" "03bb" InvoiceStateInitialized "".

Definition ex_keysend : Invoice :=
  with_DestinationCustomRecords (Some ∅)
    {| ID := 26; Type_ := InvoiceTypeOutgoing; UserID := 1; Amount := 10; Fee := 0;
       Memo := ""; DescriptionHash := ""; PaymentRequest := "";
       DestinationPubkeyHex := "03bb"; DestinationCustomRecords := None;
       RHash := ""; Preimage := ""; Internal := false; Keysend := true;
       State := InvoiceStateInitialized; ErrorMessage := ""; AddIndex := 0;
       ExpiresAt := None; SettledAt := None |}.

Definition ex_db : DB :=
  {| accounts := [ {| AccountID := 2; AccountUserID := 1; AccountKind := AccountTypeIncoming |};
                   {| AccountID := 1; AccountUserID := 1; AccountKind := AccountTypeCurrent |} ];
     invoices := [ex_pay_all; ex_pay_external; ex_pay_poor; ex_pay_again;
                  ex_pay_internal; ex_incoming];
     transaction_entries :=
       [ {| EntryID := 1; EntryUserID := 1; InvoiceID := 10; ParentID := 0;
            CreditAccountID := 1; DebitAccountID := 2; EntryAmount := 1000 |} ];
     account_seq := 3; invoice_seq := 27; entry_seq := 2 |}.

Definition ex_world : World := world ex_db [1000; 2000; 3000; 4000] [3; 20; 255]%nat [].

Definition ex_lnd : LightningClientWrapper :=
  {| LndSendPaymentSync := fun r =>
       inl {| RespPaymentError := ""; RespPaymentPreimage := Some [x01; x02];
              RespPaymentRoute := Some {| LnTotalAmt := 503; LnTotalFees := 3 |};
              RespPaymentHash := [xab; xcd] |};
     LndAddInvoice := fun r =>
       inl {| AddRHash := [xde; xad]; AddPaymentRequest := "lnbc500";
              AddAddIndex := 7 |} |}.

Definition ex_svc : LndhubService := {| IdentityPubkey := "02aa"; LndClient := ex_lnd |}.

(** A stand-in for the digest, and the record number of keysend. *)
Definition ex_digest (bs : list byte) : list byte := rev bs.

Definition ex_keysend_record : Z := 5482373484.

(** More to run the code on: a node that cannot be reached, a decoded
    payment request of 100 to a foreign node, keysend invoices with a
    nil map of custom records and with a destination that is not hex,
    and the small ledger under a schedule of store failures. *)
Definition ex_lnd_down : LightningClientWrapper :=
  {| LndSendPaymentSync := fun r => inr (LndError "unreachable");
     LndAddInvoice := fun r => inr (LndError "unreachable") |}.

Definition ex_svc_down : LndhubService :=
  {| IdentityPubkey := "02aa"; LndClient := ex_lnd_down |}.

Definition ex_payreq : LNPayReq :=
  {| LNPayReq_PayReq :=
       {| PayReqDestination := "03bb"; PayReqPaymentHash := "beef";
          NumSatoshis := 100; PayReqTimestamp := 1700000000; PayReqExpiry := 3600;
          PayReqDescription := "coffee"; PayReqDescriptionHash := "" |};
     LNPayReq_Keysend := false |}.

Definition ex_keysend_nil : Invoice := with_DestinationCustomRecords None ex_keysend.

Definition ex_keysend_bad : Invoice := with_DestinationPubkeyHex "zz" ex_keysend.

Definition ex_world_failing (f : list bool) : World := set_faults f ex_world.


Arguments hex.DecodeString : simpl never.
Arguments hex.EncodeToString : simpl never.

(** * Properties *)

(** ** encoding/hex: decoding undoes encoding *)

Lemma Decode_encode_byte (b : byte) (rest : list byte) :
  hex.Decode (hex.encode_byte b ++ rest)
  = (b :: fst (hex.Decode rest), snd (hex.Decode rest)).
Proof.
  destruct b; cbn [hex.encode_byte app];
    change (hex.Decode (?p :: ?q :: rest)) with
      (match hex.fromHexChar p with
       | None => ([], Some (InvalidByteError p))
       | Some a =>
           match hex.fromHexChar q with
           | None => ([], Some (InvalidByteError q))
           | Some c => let (out, err) := hex.Decode rest in (hex.join a c :: out, err)
           end
       end);
    destruct (hex.Decode rest); reflexivity.
Qed.

Lemma Decode_encode (bs : list byte) :
  hex.Decode (flat_map hex.encode_byte bs) = (bs, None).
Proof.
  induction bs as [|b bs IH]; [reflexivity|].
  cbn [flat_map]. rewrite Decode_encode_byte, IH. reflexivity.
Qed.

Lemma DecodeString_EncodeToString (bs : list byte) :
  hex.DecodeString (hex.EncodeToString bs) = (bs, None).
Proof.
  unfold hex.DecodeString, hex.EncodeToString.
  rewrite list_byte_of_string_of_list_byte. apply Decode_encode.
Qed.

(** ** makePreimageHex *)

Lemma hex_alphabet_nth (k : nat) :
  (k < 16)%nat ->
  exists c, nth_error (list_byte_of_string hexBytes) k = Some c /\ In c hex_alphabet.
Proof.
  intros Hk.
  destruct (nth_error (list_byte_of_string hexBytes) k) as [c|] eqn:E.
  - exists c. split; [reflexivity|]. eapply nth_error_In, E.
  - apply nth_error_None in E. cbn in E. lia.
Qed.

Lemma fill_hex_total (n : nat) (w : World) :
  exists p w', fill_hex n w = Returned p w'
    /\ length p = n /\ Forall (fun b => In b hex_alphabet) p
    /\ db w' = db w /\ faults w' = faults w /\ clock w' = clock w
    /\ trace w' = trace w.
Proof.
  revert w. induction n as [|n IH]; intros w.
  - exists [], w. cbn. repeat split; constructor.
  - cbn [fill_hex]. unfold bind at 1. cbn [rand_Intn].
    destruct (hex_alphabet_nth (hd 0%nat (rand_src w) mod String.length hexBytes))
      as (c & Hc & Hin).
    { apply Nat.mod_upper_bound. discriminate. }
    rewrite Hc.
    destruct (IH (set_rand_src (tl (rand_src w)) w))
      as (p & w' & Hp & Hlen & Hall & Hd & Hf & Hc' & Ht).
    exists (c :: p), w'. unfold bind. rewrite Hp. cbn in Hd, Hf, Hc', Ht |- *.
    repeat match goal with |- _ /\ _ => split end;
      [reflexivity | now rewrite Hlen | now constructor | exact Hd | exact Hf
      | exact Hc' | exact Ht].
Qed.

Lemma hex_alphabet_digit (c : byte) :
  In c hex_alphabet -> (hex_value c < 16)%N /\ hex.digit (hex_value c) = c.
Proof.
  cbn. intros H. repeat (destruct H as [<-|H]; [now vm_compute|]). destruct H.
Qed.

Lemma preimage_code_snoc (p : list byte) (c : byte) :
  preimage_code (p ++ [c]) = (preimage_code p * 16 + hex_value c)%N.
Proof. unfold preimage_code. now rewrite fold_left_app. Qed.

Lemma code_preimage_inverse (p : list byte) :
  Forall (fun b => In b hex_alphabet) p ->
  (preimage_code p < 16 ^ N.of_nat (length p))%N
  /\ code_preimage (length p) (preimage_code p) = p.
Proof.
  induction p as [|c p IH] using rev_ind; intros Hall.
  - cbn. split; [lia | reflexivity].
  - apply Forall_app in Hall as [Hp Hc]. inversion Hc as [|? ? Hin _]; subst.
    destruct (IH Hp) as [Hlt Hinv].
    destruct (hex_alphabet_digit c Hin) as [Hv Hd].
    rewrite preimage_code_snoc, length_app, Nat.add_comm. cbn [length Nat.add code_preimage].
    replace ((preimage_code p * 16 + hex_value c) / 16)%N with (preimage_code p)
      by (apply N.div_unique with (r := hex_value c); lia).
    replace ((preimage_code p * 16 + hex_value c) mod 16)%N with (hex_value c)
      by (apply N.mod_unique with (q := preimage_code p); lia).
    rewrite Hinv, Hd. split; [|reflexivity].
    rewrite Nat2N.inj_succ, N.pow_succ_r'. lia.
Qed.

(** C10: [makePreimageHex] always returns 32 bytes, each one a character
    of "0123456789abcdef"; read in base 16 they are a number below
    16^32 from which the 32 bytes are recovered, so that there are at
    most 16^32 preimages. *)
Theorem makePreimageHex_alphabet (w : World) :
  exists p w', makePreimageHex w = Returned p w'
    /\ length p = 32%nat
    /\ Forall (fun b => In b hex_alphabet) p
    /\ (preimage_code p < 16 ^ 32)%N
    /\ code_preimage 32 (preimage_code p) = p.
Proof.
  destruct (fill_hex_total 32 w) as (p & w' & Hp & Hlen & Hall & _).
  exists p, w'. destruct (code_preimage_inverse p Hall) as [Hlt Hinv].
  rewrite Hlen in Hlt, Hinv. auto.
Qed.

(** ** createLnRpcSendRequest and AddIncomingInvoice: the preimage *)

Lemma keysend_request_hash invoice w req invoice' w' :
  Keysend invoice = true ->
  createLnRpcSendRequest invoice w = Returned (inl req, invoice') w' ->
  exists preimage w1 records,
    makePreimageHex w = Returned preimage w1
    /\ DestCustomRecords req = Some records
    /\ records !! KEYSEND_CUSTOM_RECORD = Some preimage
    /\ ReqPaymentHash req = sha256 preimage.
Proof.
  intros Hk H. unfold createLnRpcSendRequest in H.
  rewrite Hk in H. cbn [negb] in H. unfold bind in H.
  destruct (makePreimageHex w) as [p w1|w1] eqn:Hp; [|discriminate].
  destruct (hex.DecodeString (DestinationPubkeyHex invoice)) as [dest [e|]];
    [discriminate|].
  destruct (DestinationCustomRecords invoice) as [m|]; [|discriminate].
  inversion H; subst; clear H. cbn.
  exists p, w', (<[KEYSEND_CUSTOM_RECORD:=p]> m). repeat split.
  apply lookup_insert_eq.
Qed.

Lemma incoming_invoice_preimage userID amount memo dh w invoice w' :
  AddIncomingInvoice userID amount memo dh w = Returned (Some invoice, None) w' ->
  exists preimage w1,
    makePreimageHex w = Returned preimage w1
    /\ length preimage = 32%nat
    /\ hex.DecodeString (Preimage invoice) = (preimage, None)
    /\ In invoice (invoices (db w')).
Proof.
  intros H. unfold AddIncomingInvoice in H.
  destruct (makePreimageHex_alphabet w) as (p & w1 & Hp & Hlen & _).
  unfold bind at 1 in H. rewrite Hp in H.
  exists p, w1. split; [exact Hp|]. split; [assumption|].
  destruct w1 as [d f c r t].
  unfold bind, time_Now, InsertInvoice, emit, statement, exec_fault, ret in H.
  cbn in H.
  destruct (hd false f); [discriminate|].
  destruct (hex.DecodeString dh) as [dhb [e|]]; [discriminate|]. cbn in H.
  match type of H with
  | context [LndAddInvoice ?c ?ln] => destruct (LndAddInvoice c ln) as [res|e]
  end; [|discriminate].
  unfold UpdateInvoice, bind, emit, statement, exec_fault, ret in H. cbn in H.
  destruct (hd false (tl f)); [discriminate|].
  inversion H; subst; clear H. cbn.
  rewrite DecodeString_EncodeToString, Z.eqb_refl. auto.
Qed.

(** C9: a keysend request built by [createLnRpcSendRequest] carries as
    payment hash the sha256 of the preimage it has just generated and
    filed under the keysend custom record; and the preimage string of
    an invoice created by [AddIncomingInvoice] hex-decodes to the 32
    bytes [makePreimageHex] generated for it. *)
Theorem preimage_hash_round_trip :
  (forall invoice w req invoice' w',
     Keysend invoice = true ->
     createLnRpcSendRequest invoice w = Returned (inl req, invoice') w' ->
     exists preimage w1 records,
       makePreimageHex w = Returned preimage w1
       /\ DestCustomRecords req = Some records
       /\ records !! KEYSEND_CUSTOM_RECORD = Some preimage
       /\ ReqPaymentHash req = sha256 preimage)
  /\
  (forall userID amount memo descriptionHashStr w invoice w',
     AddIncomingInvoice userID amount memo descriptionHashStr w
       = Returned (Some invoice, None) w' ->
     exists preimage w1,
       makePreimageHex w = Returned preimage w1
       /\ length preimage = 32%nat
       /\ hex.DecodeString (Preimage invoice) = (preimage, None)
       /\ In invoice (invoices (db w'))).
Proof.
  split.
  - apply keysend_request_hash.
  - apply incoming_invoice_preimage.
Qed.

(** ** SendPaymentSync: the answer of the node *)

(** C6: when the node answers without a transport error, a non-empty
    payment error or an absent preimage makes [SendPaymentSync] return
    an error; it returns a response (preimage, payment hash, route)
    only for an empty payment error and a present preimage. *)
Theorem SendPaymentSync_payload invoice w req invoice1 w1 res :
  createLnRpcSendRequest invoice w = Returned (inl req, invoice1) w1 ->
  LndSendPaymentSync (LndClient svc) req = inl res ->
  let w2 := set_trace (RpcSendPaymentSync req :: trace w1) w1 in
  (RespPaymentError res <> "" \/ RespPaymentPreimage res = None ->
   SendPaymentSync invoice w
   = Returned (SendPaymentResponse_zero,
               Some (ErrorsNew (RespPaymentError res)), invoice1) w2)
  /\
  (forall resp invoice' w',
     SendPaymentSync invoice w = Returned (resp, None, invoice') w' ->
     RespPaymentError res = ""
     /\ RespPaymentPreimage res = Some (PaymentPreimage resp)
     /\ PaymentHash resp = RespPaymentHash res
     /\ exists route,
          RespPaymentRoute res = Some route
          /\ PaymentRoute resp = Some {| TotalAmt := LnTotalAmt route;
                                         TotalFees := LnTotalFees route |})
  /\
  (forall preimage route,
     RespPaymentError res = "" ->
     RespPaymentPreimage res = Some preimage ->
     RespPaymentRoute res = Some route ->
     SendPaymentSync invoice w
     = Returned ({| PaymentPreimage := preimage;
                    PaymentPreimageStr := hex.EncodeToString preimage;
                    PaymentError := "";
                    PaymentHash := RespPaymentHash res;
                    PaymentHashStr := hex.EncodeToString (RespPaymentHash res);
                    PaymentRoute := Some {| TotalAmt := LnTotalAmt route;
                                            TotalFees := LnTotalFees route |};
                    RespTransactionEntry := None;
                    RespInvoice := None |}, None, invoice1) w2).
Proof.
  intros Hreq Hres w2.
  assert (Hrun : SendPaymentSync invoice w
                 = if negb (String.eqb (RespPaymentError res) "")
                      || is_nil (RespPaymentPreimage res)
                   then Returned (SendPaymentResponse_zero,
                                  Some (ErrorsNew (RespPaymentError res)), invoice1) w2
                   else match RespPaymentRoute res with
                        | None => Panicked w2
                        | Some route =>
                            Returned
                              ({| PaymentPreimage := default [] (RespPaymentPreimage res);
                                  PaymentPreimageStr :=
                                    hex.EncodeToString (default [] (RespPaymentPreimage res));
                                  PaymentError := "";
                                  PaymentHash := RespPaymentHash res;
                                  PaymentHashStr := hex.EncodeToString (RespPaymentHash res);
                                  PaymentRoute := Some {| TotalAmt := LnTotalAmt route;
                                                          TotalFees := LnTotalFees route |};
                                  RespTransactionEntry := None;
                                  RespInvoice := None |}, None, invoice1) w2
                        end).
  { unfold SendPaymentSync, bind at 1. rewrite Hreq.
    unfold bind, emit. rewrite Hres.
    destruct (negb _ || _); [reflexivity|].
    destruct (RespPaymentRoute res); reflexivity. }
  rewrite Hrun. clear Hrun.
  destruct (String.eqb_spec (RespPaymentError res) "") as [He|He]; cbn [negb orb].
  - destruct (RespPaymentPreimage res) as [p|] eqn:Hp; cbn [is_nil default].
    + split; [intros [H|H]; [contradiction|discriminate]|].
      split.
      * intros resp invoice' w' H.
        destruct (RespPaymentRoute res) as [rt|]; [|discriminate].
        inversion H; subst; clear H. cbn. repeat split; try assumption. exists rt. split; reflexivity.
      * intros preimage route _ Hpre Hrt. inversion Hpre; subst.
        rewrite Hrt. reflexivity.
    + split; [reflexivity|]. split; [intros ? ? ? H; discriminate|].
      intros ? ? _ H; discriminate.
  - split; [reflexivity|]. split; [intros ? ? ? H; discriminate|].
    intros ? ? H; contradiction.
Qed.

(** ** The store *)

Lemma AccountType_eqb_eq (a b : AccountType) : AccountType_eqb a b = true <-> a = b.
Proof. destruct a, b; cbn; split; congruence. Qed.

Lemma AccountType_eqb_refl (a : AccountType) : AccountType_eqb a a = true.
Proof. now destruct a. Qed.

Lemma account_for_eq k user d :
  account_for k user d = (inl (the_account k user d), with_account k user d).
Proof.
  unfold with_account, the_account, lookup_account, account_for.
  destruct (find _ _); reflexivity.
Qed.

Lemma lookup_account_Some k user d a :
  lookup_account k user d = Some a ->
  In a (accounts d) /\ AccountUserID a = user /\ AccountKind a = k.
Proof.
  unfold lookup_account. intros H. apply find_some in H as [Hin Hp].
  apply andb_true_iff in Hp as [Hu Hk].
  apply Z.eqb_eq in Hu. apply AccountType_eqb_eq in Hk. auto.
Qed.

Lemma the_account_kind k user d : AccountKind (the_account k user d) = k.
Proof.
  unfold the_account. destruct (lookup_account k user d) eqn:E; [|reflexivity].
  now apply lookup_account_Some in E.
Qed.

Lemma the_account_user k user d : AccountUserID (the_account k user d) = user.
Proof.
  unfold the_account. destruct (lookup_account k user d) eqn:E; [|reflexivity].
  now apply lookup_account_Some in E.
Qed.

Lemma with_account_accounts k user d :
  accounts (with_account k user d)
  = match lookup_account k user d with
    | Some _ => accounts d
    | None => the_account k user d :: accounts d
    end.
Proof.
  unfold with_account, the_account, account_for, lookup_account.
  destruct (find _ _); reflexivity.
Qed.

Lemma with_account_frame k user d :
  invoices (with_account k user d) = invoices d
  /\ transaction_entries (with_account k user d) = transaction_entries d
  /\ invoice_seq (with_account k user d) = invoice_seq d
  /\ entry_seq (with_account k user d) = entry_seq d.
Proof.
  unfold with_account, account_for. destruct (find _ _); cbn; auto.
Qed.

Lemma with_account_entries k user d :
  transaction_entries (with_account k user d) = transaction_entries d.
Proof. apply with_account_frame. Qed.

Lemma with_account_invoices k user d :
  invoices (with_account k user d) = invoices d.
Proof. apply with_account_frame. Qed.

Lemma with_account_entry_seq k user d :
  entry_seq (with_account k user d) = entry_seq d.
Proof. apply with_account_frame. Qed.

Lemma the_account_In k user d :
  In (the_account k user d) (accounts (with_account k user d)).
Proof.
  rewrite with_account_accounts. unfold the_account.
  destruct (lookup_account k user d) eqn:E.
  - now apply lookup_account_Some in E.
  - now left.
Qed.

Lemma with_account_incl k user d a :
  In a (accounts d) -> In a (accounts (with_account k user d)).
Proof.
  rewrite with_account_accounts. destruct (lookup_account k user d); [auto|now right].
Qed.

Lemma with_account_ok k user d : accounts_ok d -> accounts_ok (with_account k user d).
Proof.
  intros [Hnd Hlt]. unfold accounts_ok.
  unfold with_account, account_for. destruct (find _ _); [now split|]. cbn. split.
  - constructor; [|assumption]. intros Hin. apply in_map_iff in Hin as (a & Ha & Hin).
    rewrite List.Forall_forall in Hlt. specialize (Hlt a Hin). lia.
  - constructor; [cbn; lia|]. eapply List.Forall_impl; [|exact Hlt]. cbn. intros; lia.
Qed.

(** Once a user has an account of a kind, it stays the one found. *)
Lemma lookup_account_stable k user k' user' d a :
  lookup_account k user d = Some a ->
  lookup_account k user (with_account k' user' d) = Some a.
Proof.
  intros H. unfold lookup_account in *. rewrite with_account_accounts.
  unfold the_account, lookup_account.
  destruct (find _ (accounts d)) eqn:E' in |- *; [assumption|].
  cbn [find AccountUserID AccountKind].
  destruct ((user' =? user) && AccountType_eqb k' k) eqn:Hsame; [|assumption].
  apply andb_true_iff in Hsame as [Hu Hk].
  apply Z.eqb_eq in Hu. apply AccountType_eqb_eq in Hk. subst.
  rewrite H in E'. discriminate.
Qed.

Lemma lookup_with_account k user d :
  lookup_account k user (with_account k user d) = Some (the_account k user d).
Proof.
  unfold the_account. destruct (lookup_account k user d) eqn:E.
  - now apply lookup_account_stable.
  - unfold lookup_account at 1. rewrite with_account_accounts, E.
    unfold the_account. rewrite E. cbn.
    now rewrite Z.eqb_refl, AccountType_eqb_refl.
Qed.

Lemma the_account_stable k user k' user' d :
  lookup_account k user d = Some (the_account k user d) ->
  the_account k user (with_account k' user' d) = the_account k user d.
Proof.
  intros H. unfold the_account at 1.
  now rewrite (lookup_account_stable _ _ k' user' _ _ H).
Qed.

Lemma accounts_ok_inj d a b :
  accounts_ok d -> In a (accounts d) -> In b (accounts d) ->
  AccountID a = AccountID b -> a = b.
Proof.
  intros [Hnd _]. induction (accounts d) as [|x l IH]; [contradiction|].
  cbn in Hnd. inversion Hnd as [|? ? Hx Hl]; subst.
  intros [->|Ha] [->|Hb] Hid; auto.
  - exfalso. apply Hx. rewrite Hid. now apply in_map.
  - exfalso. apply Hx. rewrite <- Hid. now apply in_map.
Qed.

Lemma account_has_kind_In d k a :
  accounts_ok d -> In a (accounts d) ->
  account_has_kind d k (AccountID a) = AccountType_eqb (AccountKind a) k.
Proof.
  intros Hok Hin. unfold account_has_kind.
  destruct (AccountType_eqb (AccountKind a) k) eqn:Hk.
  - apply existsb_exists. exists a. now rewrite Z.eqb_refl, Hk.
  - apply not_true_is_false. intros H. apply existsb_exists in H as (b & Hb & Hp).
    apply andb_true_iff in Hp as [Hid Hkb]. apply Z.eqb_eq in Hid.
    rewrite (accounts_ok_inj d b a Hok Hb Hin Hid) in Hkb. congruence.
Qed.

Lemma distinct_kinds_distinct_ids d a b :
  accounts_ok d -> In a (accounts d) -> In b (accounts d) ->
  AccountKind a <> AccountKind b -> AccountID a <> AccountID b.
Proof.
  intros Hok Ha Hb Hk Hid. apply Hk. now rewrite (accounts_ok_inj d a b Hok Ha Hb Hid).
Qed.

(** ** Running the monad *)

Lemma bind_run {A B} (m : M A) (k : A -> M B) w a w' :
  m w = Returned a w' -> bind m k w = k a w'.
Proof. intros H. unfold bind. now rewrite H. Qed.

Lemma statement_world {A} (f : DB -> (A + error) * DB) d c r t :
  statement f (world d c r t)
  = Returned (fst (f d)) (world (snd (f d)) c r t).
Proof. unfold statement, bind, exec_fault, world. cbn. now destruct (f d). Qed.

Lemma AccountFor_world k user d c r t :
  AccountFor k user (world d c r t)
  = Returned (inl (the_account k user d)) (world (with_account k user d) c r t).
Proof. unfold AccountFor. now rewrite statement_world, account_for_eq. Qed.

Lemma InsertEntry_world e d c r t :
  InsertEntry e (world d c r t)
  = Returned (fst (insert_entry e d))
             (world (snd (insert_entry e d)) c r (SqlInsertEntry e :: t)).
Proof.
  unfold InsertEntry, bind, emit. cbn.
  change {| db := d; faults := []; clock := c; rand_src := r;
            trace := SqlInsertEntry e :: t |}
    with (world d c r (SqlInsertEntry e :: t)).
  apply statement_world.
Qed.

Lemma insert_entry_accepted e d :
  balance_guard d e = true ->
  insert_entry e d = (inl (with_EntryID (entry_seq d) e), post_entry e d).
Proof. intros H. unfold insert_entry. now rewrite H. Qed.

Lemma insert_entry_refused e d :
  balance_guard d e = false -> insert_entry e d = (inr InsufficientBalance, d).
Proof. intros H. unfold insert_entry. now rewrite H. Qed.

Lemma UpdateInvoice_world i d c r t :
  UpdateInvoice i (world d c r t)
  = Returned (inl tt) (world (snd (update_invoice i d)) c r (SqlUpdateInvoice i :: t)).
Proof. reflexivity. Qed.

Lemma SelectInvoice_world ty pr st d c r t :
  SelectInvoice ty pr st (world d c r t)
  = Returned (fst (select_invoice ty pr st d)) (world d c r t).
Proof.
  unfold SelectInvoice. rewrite statement_world.
  unfold select_invoice. now destruct (find _ _).
Qed.

Lemma CurrentUserBalance_world user d c r t :
  CurrentUserBalance user (world d c r t)
  = Returned (inl (current_balance user d))
             (world (with_account AccountTypeCurrent user d) c r t).
Proof.
  unfold CurrentUserBalance. rewrite statement_world.
  unfold current_user_balance, current_balance. rewrite account_for_eq. cbn.
  now rewrite with_account_entries.
Qed.

Lemma time_Now_world d c r t :
  time_Now (world d c r t) = Returned (hd 0 c) (world d (tl c) r t).
Proof. reflexivity. Qed.

(** ** The balance constraint *)

Lemma balance_guard_In d e a :
  accounts_ok d -> In a (accounts d) -> DebitAccountID e = AccountID a ->
  balance_guard d e
  = negb (AccountType_eqb (AccountKind a) AccountTypeCurrent)
    || (0 <=? account_balance (AccountID a) (e :: transaction_entries d)).
Proof.
  intros Hok Hin Hd. unfold balance_guard.
  now rewrite Hd, (account_has_kind_In d _ a Hok Hin).
Qed.

Lemma reserved_ok invoice d : accounts_ok d -> accounts_ok (reserved invoice d).
Proof. intros H. unfold reserved. now do 2 apply with_account_ok. Qed.

Lemma reserved_current_In invoice d :
  In (the_account AccountTypeCurrent (UserID invoice) d) (accounts (reserved invoice d)).
Proof. unfold reserved. apply with_account_incl, the_account_In. Qed.

Lemma reserved_outgoing_In invoice d :
  In (the_account AccountTypeOutgoing (UserID invoice)
        (with_account AccountTypeCurrent (UserID invoice) d))
     (accounts (reserved invoice d)).
Proof. unfold reserved. apply the_account_In. Qed.

Lemma reserved_entries invoice d :
  transaction_entries (reserved invoice d) = transaction_entries d.
Proof. unfold reserved. now rewrite !with_account_entries. Qed.

Lemma reserved_ids_differ invoice d :
  accounts_ok d ->
  AccountID (the_account AccountTypeOutgoing (UserID invoice)
               (with_account AccountTypeCurrent (UserID invoice) d))
  <> AccountID (the_account AccountTypeCurrent (UserID invoice) d).
Proof.
  intros Hok.
  apply (distinct_kinds_distinct_ids (reserved invoice d));
    auto using reserved_ok, reserved_current_In, reserved_outgoing_In.
  rewrite !the_account_kind. discriminate.
Qed.

(** The gate of [PayInvoice]: the provisional entry is accepted exactly
    when the payer's balance covers the amount. *)
Lemma principal_guard invoice d :
  accounts_ok d ->
  balance_guard (reserved invoice d) (principal_entry invoice d)
  = (Amount invoice <=? current_balance (UserID invoice) d).
Proof.
  intros Hok.
  rewrite (balance_guard_In _ _ (the_account AccountTypeCurrent (UserID invoice) d));
    auto using reserved_ok, reserved_current_In.
  rewrite the_account_kind. cbn [AccountType_eqb negb orb account_balance].
  rewrite reserved_entries. unfold entry_effect, current_balance. cbn.
  rewrite Z.eqb_refl.
  destruct (Z.eqb_spec
              (AccountID (the_account AccountTypeOutgoing (UserID invoice)
                            (with_account AccountTypeCurrent (UserID invoice) d)))
              (AccountID (the_account AccountTypeCurrent (UserID invoice) d))) as [E|_].
  - now apply reserved_ids_differ in E.
  - destruct (Z.leb_spec (Amount invoice)
                (account_balance (AccountID (the_account AccountTypeCurrent (UserID invoice) d))
                   (transaction_entries d)));
      [apply Z.leb_le | apply Z.leb_gt]; lia.
Qed.

(** ** Computations that do not call the node *)

Lemma no_rpc_ret {A} (a : A) : no_rpc (ret a).
Proof. now intros w. Qed.

Lemma no_rpc_panic {A} : no_rpc (@panic A).
Proof. now intros w. Qed.

Lemma no_rpc_bind {A B} (m : M A) (k : A -> M B) :
  no_rpc m -> (forall a, no_rpc (k a)) -> no_rpc (bind m k).
Proof.
  intros Hm Hk w. unfold bind. specialize (Hm w).
  destruct (m w) as [a w1|w1]; cbn in *; [|assumption].
  now rewrite Hk.
Qed.

Lemma no_rpc_statement {A} (f : DB -> (A + error) * DB) : no_rpc (statement f).
Proof.
  intros w. unfold statement, bind, exec_fault, ret.
  destruct (hd false (faults w)); [reflexivity|]. now destruct (f _).
Qed.

Lemma no_rpc_time_Now : no_rpc time_Now.
Proof. now intros w. Qed.

Lemma no_rpc_InsertEntry e : no_rpc (InsertEntry e).
Proof.
  apply no_rpc_bind; [now intros w | intros _; apply no_rpc_statement].
Qed.

Lemma no_rpc_UpdateInvoice i : no_rpc (UpdateInvoice i).
Proof.
  apply no_rpc_bind; [now intros w | intros _; apply no_rpc_statement].
Qed.

Ltac no_rpc_step :=
  match goal with
  | |- no_rpc (bind _ _) => apply no_rpc_bind; [|intros ?]
  | |- no_rpc (ret _) => apply no_rpc_ret
  | |- no_rpc panic => apply no_rpc_panic
  | |- no_rpc (InsertEntry _) => apply no_rpc_InsertEntry
  | |- no_rpc (UpdateInvoice _) => apply no_rpc_UpdateInvoice
  | |- no_rpc (AccountFor _ _) => apply no_rpc_statement
  | |- no_rpc (CurrentUserBalance _) => apply no_rpc_statement
  | |- no_rpc (SelectInvoice _ _ _) => apply no_rpc_statement
  | |- no_rpc time_Now => apply no_rpc_time_Now
  | |- no_rpc (match ?x with _ => _ end) => destruct x
  | |- no_rpc (let (_, _) := ?x in _) => destruct x
  end.

Lemma no_rpc_SendInternalPayment invoice : no_rpc (SendInternalPayment invoice).
Proof. unfold SendInternalPayment. repeat no_rpc_step. Qed.

Lemma no_rpc_HandleFailedPayment invoice entry err :
  no_rpc (HandleFailedPayment invoice entry err).
Proof. unfold HandleFailedPayment. repeat no_rpc_step. Qed.

Lemma no_rpc_HandleSuccessfulPayment invoice entry :
  no_rpc (HandleSuccessfulPayment invoice entry).
Proof. unfold HandleSuccessfulPayment. repeat no_rpc_step. Qed.

Lemma no_rpc_reconcile entry routed : no_rpc (reconcile entry routed).
Proof.
  unfold reconcile. destruct routed as [[resp [err|]] invoice].
  - apply no_rpc_bind; [apply no_rpc_HandleFailedPayment | intros; apply no_rpc_ret].
  - destruct (PaymentRoute resp); [|apply no_rpc_panic].
    apply no_rpc_bind; [apply no_rpc_HandleSuccessfulPayment|].
    intros [e i]. apply no_rpc_ret.
Qed.

(** ** Computations that leave the store alone *)

Lemma keeps_db_ret {A} (a : A) : keeps_db (ret a).
Proof. now intros w. Qed.

Lemma keeps_db_bind {A B} (m : M A) (k : A -> M B) :
  keeps_db m -> (forall a, keeps_db (k a)) -> keeps_db (bind m k).
Proof.
  intros Hm Hk w. unfold bind. specialize (Hm w).
  destruct (m w) as [a w1|w1]; cbn in *; [|assumption].
  destruct (Hk a w1) as (-> & -> & ->). assumption.
Qed.

Lemma keeps_db_fill_hex n : keeps_db (fill_hex n).
Proof.
  induction n as [|n IH]; [apply keeps_db_ret|].
  cbn [fill_hex]. apply keeps_db_bind; [now intros w|].
  intros k. destruct (nth_error _ k); [|now intros w].
  apply keeps_db_bind; [exact IH | intros; apply keeps_db_ret].
Qed.

Lemma keeps_db_createLnRpcSendRequest invoice :
  keeps_db (createLnRpcSendRequest invoice).
Proof.
  unfold createLnRpcSendRequest. destruct (negb _); [apply keeps_db_ret|].
  apply keeps_db_bind; [apply keeps_db_fill_hex|]. intros p.
  destruct (hex.DecodeString _) as [dest [e|]]; [apply keeps_db_ret|].
  destruct (DestinationCustomRecords invoice); [apply keeps_db_ret | now intros w].
Qed.

Lemma keeps_db_SendPaymentSync invoice : keeps_db (SendPaymentSync invoice).
Proof.
  unfold SendPaymentSync. apply keeps_db_bind; [apply keeps_db_createLnRpcSendRequest|].
  intros [[req|e] i]; [|apply keeps_db_ret].
  apply keeps_db_bind; [now intros w|]. intros _.
  destruct (LndSendPaymentSync _ _) as [res|e]; [|apply keeps_db_ret].
  destruct (negb _ || _); [apply keeps_db_ret|].
  destruct (RespPaymentRoute res); [apply keeps_db_ret | now intros w].
Qed.

(** ** PayInvoice: the choice of the path *)

Lemma PayInvoice_routes invoice w debit w1 credit w2 entry w3 :
  AccountFor AccountTypeCurrent (UserID invoice) w = Returned (inl debit) w1 ->
  AccountFor AccountTypeOutgoing (UserID invoice) w1 = Returned (inl credit) w2 ->
  InsertEntry {| EntryID := 0; EntryUserID := UserID invoice; InvoiceID := ID invoice;
                 ParentID := 0; CreditAccountID := AccountID credit;
                 DebitAccountID := AccountID debit;
                 EntryAmount := Amount invoice |} w2 = Returned (inl entry) w3 ->
  PayInvoice invoice w
  = if String.eqb (IdentityPubkey svc) (DestinationPubkeyHex invoice)
    then bind (SendInternalPayment invoice) (fun r => reconcile entry (r, invoice)) w3
    else bind (SendPaymentSync invoice) (reconcile entry) w3.
Proof.
  intros H1 H2 H3. unfold PayInvoice.
  rewrite (bind_run _ _ _ _ _ H1). cbv beta iota.
  rewrite (bind_run _ _ _ _ _ H2). cbv beta iota.
  rewrite (bind_run _ _ _ _ _ H3). cbv beta iota.
  destruct (String.eqb _ _); unfold bind at 1; [unfold bind at 3|unfold bind at 3].
  - destruct (SendInternalPayment invoice w3) as [[resp [e|]] w4|]; reflexivity.
  - destruct (SendPaymentSync invoice w3) as [[[resp [e|]] i] w4|]; reflexivity.
Qed.

Lemma no_rpc_after {A B} (m : M A) (k : A -> M B) w :
  (forall a, no_rpc (k a)) ->
  rpc_calls (trace (world_of (bind m k w))) = rpc_calls (trace (world_of (m w))).
Proof.
  intros Hk. unfold bind. destruct (m w) as [a w1|w1]; [apply Hk|reflexivity].
Qed.

Lemma createLnRpcSendRequest_trace invoice w :
  trace (world_of (createLnRpcSendRequest invoice w)) = trace w.
Proof.
  unfold createLnRpcSendRequest. destruct (negb _); [reflexivity|].
  unfold bind, makePreimageHex.
  destruct (fill_hex_total 32 w) as (p & w1 & -> & _ & _ & _ & _ & _ & Ht).
  destruct (hex.DecodeString _) as [dest [e|]]; [exact Ht|].
  destruct (DestinationCustomRecords invoice); exact Ht.
Qed.

Lemma SendPaymentSync_calls_node invoice w req invoice1 w1 :
  createLnRpcSendRequest invoice w = Returned (inl req, invoice1) w1 ->
  rpc_calls (trace (world_of (SendPaymentSync invoice w)))
  = RpcSendPaymentSync req :: rpc_calls (trace w).
Proof.
  intros H. pose proof (createLnRpcSendRequest_trace invoice w) as Ht.
  rewrite H in Ht. cbn in Ht.
  unfold SendPaymentSync. rewrite (bind_run _ _ _ _ _ H).
  unfold bind, emit.
  destruct (LndSendPaymentSync _ _) as [res|e]; [|cbn; now rewrite Ht].
  destruct (negb _ || _); [cbn; now rewrite Ht|].
  destruct (RespPaymentRoute res); cbn; now rewrite Ht.
Qed.

(** C3: once the provisional entry is in, the destination public key
    alone decides the path: when it equals the identity public key of
    the service the payment goes through [SendInternalPayment] and the
    whole call makes no call to the node; otherwise it goes through
    [SendPaymentSync], which leaves the store alone and submits the
    request it builds to the node. *)
Theorem PayInvoice_routing invoice w debit w1 credit w2 entry w3 :
  AccountFor AccountTypeCurrent (UserID invoice) w = Returned (inl debit) w1 ->
  AccountFor AccountTypeOutgoing (UserID invoice) w1 = Returned (inl credit) w2 ->
  InsertEntry {| EntryID := 0; EntryUserID := UserID invoice; InvoiceID := ID invoice;
                 ParentID := 0; CreditAccountID := AccountID credit;
                 DebitAccountID := AccountID debit;
                 EntryAmount := Amount invoice |} w2 = Returned (inl entry) w3 ->
  (IdentityPubkey svc = DestinationPubkeyHex invoice ->
   PayInvoice invoice w
   = bind (SendInternalPayment invoice) (fun r => reconcile entry (r, invoice)) w3
   /\ rpc_calls (trace (world_of (PayInvoice invoice w))) = rpc_calls (trace w))
  /\
  (IdentityPubkey svc <> DestinationPubkeyHex invoice ->
   PayInvoice invoice w = bind (SendPaymentSync invoice) (reconcile entry) w3
   /\ db (world_of (SendPaymentSync invoice w3)) = db w3
   /\ forall req invoice1 w4,
        createLnRpcSendRequest invoice w3 = Returned (inl req, invoice1) w4 ->
        rpc_calls (trace (world_of (PayInvoice invoice w)))
        = RpcSendPaymentSync req :: rpc_calls (trace w)).
Proof.
  intros H1 H2 H3.
  pose proof (PayInvoice_routes _ _ _ _ _ _ _ _ H1 H2 H3) as Hrun.
  assert (Ht : rpc_calls (trace w3) = rpc_calls (trace w)).
  { pose proof (no_rpc_statement (account_for AccountTypeCurrent (UserID invoice)) w) as E1.
    pose proof (no_rpc_statement (account_for AccountTypeOutgoing (UserID invoice)) w1) as E2.
    pose proof (no_rpc_InsertEntry
                  {| EntryID := 0; EntryUserID := UserID invoice; InvoiceID := ID invoice;
                     ParentID := 0; CreditAccountID := AccountID credit;
                     DebitAccountID := AccountID debit;
                     EntryAmount := Amount invoice |} w2) as E3.
    unfold AccountFor in H1, H2. rewrite H1 in E1. rewrite H2 in E2. rewrite H3 in E3.
    cbn in E1, E2, E3. congruence. }
  split; intros Hkey.
  - apply String.eqb_eq in Hkey. rewrite Hkey in Hrun. split; [exact Hrun|].
    rewrite Hrun, no_rpc_after by (intros; apply no_rpc_reconcile).
    now rewrite no_rpc_SendInternalPayment.
  - apply String.eqb_neq in Hkey. rewrite Hkey in Hrun. split; [exact Hrun|].
    split; [apply keeps_db_SendPaymentSync|].
    intros req invoice1 w4 Hreq.
    rewrite Hrun, no_rpc_after by (intros; apply no_rpc_reconcile).
    now rewrite (SendPaymentSync_calls_node _ _ _ _ _ Hreq), Ht.
Qed.

(** ** PayInvoice: the gate *)

Lemma statement_cases {A} (f : DB -> (A + error) * DB) w :
  statement f w
  = if hd false (faults w)
    then Returned (inr StoreError) (set_faults (tl (faults w)) w)
    else Returned (fst (f (db w)))
                  (set_db (snd (f (db w))) (set_faults (tl (faults w)) w)).
Proof.
  unfold statement, bind, exec_fault, ret.
  destruct (hd false (faults w)); [reflexivity|]. cbn. now destruct (f (db w)).
Qed.

(** C2: when the payer's balance does not cover the amount,
    [PayInvoice] returns an error and nothing else; it has made no call
    to the node and has taken no step of the internal settlement: the
    tables of the entries and of the invoices are as before, and the
    only write it has sent is the provisional entry, which the balance
    constraint of the store refused with InsufficientBalance. *)
Theorem PayInvoice_insufficient_balance invoice w :
  accounts_ok (db w) ->
  current_balance (UserID invoice) (db w) < Amount invoice ->
  exists err w',
    PayInvoice invoice w = Returned (None, Some err, invoice) w'
    /\ rpc_calls (trace w') = rpc_calls (trace w)
    /\ transaction_entries (db w') = transaction_entries (db w)
    /\ invoices (db w') = invoices (db w)
    /\ (trace w' = trace w
        \/ trace w' = SqlInsertEntry (principal_entry invoice (db w)) :: trace w)
    /\ (faults w = [] ->
        err = InsufficientBalance
        /\ trace w' = SqlInsertEntry (principal_entry invoice (db w)) :: trace w).
Proof.
  intros Hok Hlt. unfold PayInvoice, AccountFor.
  unfold bind at 1. rewrite statement_cases.
  destruct (hd false (faults w)) eqn:F1.
  { eexists _, _. split; [reflexivity|]. cbn. repeat match goal with |- _ /\ _ => split end; auto.
    intros E. rewrite E in F1. discriminate. }
  rewrite account_for_eq. cbn [fst snd].
  unfold bind at 1. rewrite statement_cases. cbn [faults db set_db set_faults].
  destruct (hd false (tl (faults w))) eqn:F2.
  { eexists _, _. split; [reflexivity|]. cbn.
    rewrite with_account_entries, with_account_invoices. repeat match goal with |- _ /\ _ => split end; auto.
    intros E. rewrite E in F2. discriminate. }
  rewrite account_for_eq. cbn [fst snd].
  unfold bind at 1, InsertEntry, bind at 1, emit. rewrite statement_cases.
  cbn [faults db set_db set_faults set_trace].
  fold (reserved invoice (db w)). fold (principal_entry invoice (db w)).
  destruct (hd false (tl (tl (faults w)))) eqn:F3.
  { eexists _, _. split; [reflexivity|]. cbn.
    rewrite reserved_entries. unfold reserved.
    rewrite !with_account_invoices. repeat match goal with |- _ /\ _ => split end; auto.
    intros E. rewrite E in F3. discriminate. }
  rewrite insert_entry_refused
    by (rewrite principal_guard by assumption; apply Z.leb_gt; lia).
  eexists _, _. split; [reflexivity|]. cbn.
  rewrite reserved_entries. unfold reserved.
  rewrite !with_account_invoices.
  repeat match goal with |- _ /\ _ => split end; auto.
Qed.

(** ** SendInternalPayment without a failure of the store *)

Lemma select_invoice_open pr d :
  select_invoice InvoiceTypeIncoming pr InvoiceStateOpen d
  = (match find_open_incoming pr d with
     | Some r => inl r
     | None => inr NotFound
     end, d).
Proof. unfold select_invoice, find_open_incoming. now destruct (find _ _). Qed.

Lemma recipient_guard invoice incoming d :
  accounts_ok d ->
  balance_guard (with_account AccountTypeIncoming (UserID incoming)
                   (with_account AccountTypeCurrent (UserID incoming) d))
                (recipient_entry invoice incoming d) = true.
Proof.
  intros Hok.
  rewrite (balance_guard_In _ _
             (the_account AccountTypeIncoming (UserID incoming)
                (with_account AccountTypeCurrent (UserID incoming) d)));
    [| now do 2 apply with_account_ok | apply the_account_In | reflexivity].
  now rewrite the_account_kind.
Qed.

Lemma SendInternalPayment_found invoice incoming d c r t :
  accounts_ok d ->
  find_open_incoming (PaymentRequest invoice) d = Some incoming ->
  SendInternalPayment invoice (world d c r t)
  = Returned (internal_response invoice incoming, None)
      (world (received invoice incoming (hd 0 c) d) (tl c) r
         (SqlUpdateInvoice (settled_incoming incoming (hd 0 c))
          :: SqlInsertEntry (recipient_entry invoice incoming d) :: t)).
Proof.
  intros Hok Hfind. unfold SendInternalPayment.
  rewrite (bind_run _ _ _ _ _ (SelectInvoice_world _ _ _ _ _ _ _)).
  rewrite select_invoice_open, Hfind. cbn [fst].
  rewrite (bind_run _ _ _ _ _ (AccountFor_world _ _ _ _ _ _)). cbv beta iota.
  rewrite (bind_run _ _ _ _ _ (AccountFor_world _ _ _ _ _ _)). cbv beta iota.
  fold (recipient_entry invoice incoming d).
  rewrite (bind_run _ _ _ _ _ (InsertEntry_world _ _ _ _ _)).
  rewrite insert_entry_accepted by now apply recipient_guard.
  cbn [fst snd].
  destruct (hex.DecodeString (Preimage incoming)) as [pre e1] eqn:E1.
  destruct (hex.DecodeString (RHash invoice)) as [ph e2] eqn:E2.
  rewrite (bind_run _ _ _ _ _ (time_Now_world _ _ _ _)).
  rewrite (bind_run _ _ _ _ _ (UpdateInvoice_world _ _ _ _ _)).
  unfold ret, internal_response, received, settled_incoming.
  now rewrite E1, E2.
Qed.

Lemma SendInternalPayment_not_found invoice d c r t :
  find_open_incoming (PaymentRequest invoice) d = None ->
  SendInternalPayment invoice (world d c r t)
  = Returned (SendPaymentResponse_zero, Some NotFound) (world d c r t).
Proof.
  intros Hfind. unfold SendInternalPayment.
  rewrite (bind_run _ _ _ _ _ (SelectInvoice_world _ _ _ _ _ _ _)).
  now rewrite select_invoice_open, Hfind.
Qed.

Lemma no_faults_world w :
  faults w = [] -> w = world (db w) (clock w) (rand_src w) (trace w).
Proof. destruct w. cbn. now intros ->. Qed.

Lemma received_invoices invoice incoming now d :
  invoices (received invoice incoming now d)
  = map (fun x => if ID x =? ID incoming then settled_incoming incoming now else x)
        (invoices d).
Proof.
  unfold received, update_invoice, post_entry. cbn.
  now rewrite !with_account_invoices.
Qed.

Lemma received_entries invoice incoming now d :
  transaction_entries (received invoice incoming now d)
  = with_EntryID (entry_seq d) (recipient_entry invoice incoming d)
    :: transaction_entries d.
Proof.
  unfold received, update_invoice, post_entry. cbn.
  now rewrite !with_account_entries, !with_account_entry_seq.
Qed.

Lemma find_open_incoming_Some pr d r :
  find_open_incoming pr d = Some r ->
  In r (invoices d) /\ Type_ r = InvoiceTypeIncoming /\ PaymentRequest r = pr
  /\ State r = InvoiceStateOpen.
Proof.
  unfold find_open_incoming. intros H. apply find_some in H as [Hin Hp].
  apply andb_true_iff in Hp as [Hp Hs]. apply andb_true_iff in Hp as [Ht Hpr].
  apply String.eqb_eq in Hpr.
  destruct (Type_ r); [|discriminate]. destruct (State r); try discriminate. auto.
Qed.

(** C4: when [SendInternalPayment] finds the matching Open incoming
    invoice, and the store does not fail, the response carries the
    preimage stored on that invoice, as the hex string and as the
    bytes it decodes to, and a route whose total fees are zero; the row
    of the incoming invoice is now internal, Settled, with the instant
    of the settlement. *)
Theorem SendInternalPayment_known_preimage invoice incoming w :
  faults w = [] ->
  accounts_ok (db w) ->
  find_open_incoming (PaymentRequest invoice) (db w) = Some incoming ->
  exists resp w',
    SendInternalPayment invoice w = Returned (resp, None) w'
    /\ PaymentPreimageStr resp = Preimage incoming
    /\ PaymentPreimage resp = fst (hex.DecodeString (Preimage incoming))
    /\ PaymentRoute resp = Some {| TotalAmt := Amount invoice; TotalFees := 0 |}
    /\ invoices (db w')
       = map (fun x => if ID x =? ID incoming
                       then settled_incoming incoming (hd 0 (clock w)) else x)
             (invoices (db w))
    /\ In (settled_incoming incoming (hd 0 (clock w))) (invoices (db w'))
    /\ Internal (settled_incoming incoming (hd 0 (clock w))) = true
    /\ State (settled_incoming incoming (hd 0 (clock w))) = InvoiceStateSettled
    /\ SettledAt (settled_incoming incoming (hd 0 (clock w))) = Some (hd 0 (clock w))
    /\ Preimage (settled_incoming incoming (hd 0 (clock w))) = Preimage incoming.
Proof.
  intros Hf Hok Hfind. destruct w as [d f c r t]. cbn in Hf, Hok, Hfind |- *. subst f.
  change {| db := d; faults := []; clock := c; rand_src := r; trace := t |}
    with (world d c r t).
  rewrite (SendInternalPayment_found _ _ _ _ _ _ Hok Hfind).
  eexists _, _. split; [reflexivity|]. cbn [db world].
  rewrite received_invoices.
  repeat match goal with |- _ /\ _ => split end; try reflexivity.
  apply find_open_incoming_Some in Hfind as (Hin & _).
  apply in_map_iff. exists incoming. now rewrite Z.eqb_refl.
Qed.

(** ** How the store grows *)

Lemma grows_refl d : grows d d.
Proof. unfold grows. auto. Qed.

Lemma grows_trans d1 d2 d3 : grows d1 d2 -> grows d2 d3 -> grows d1 d3.
Proof.
  intros (A1 & B1 & C1) (A2 & B2 & C2).
  split; [|split]; intros; [apply A2, A1 | apply B2, B1 | apply C2, C1]; assumption.
Qed.

Lemma grows_with_account k user d : grows d (with_account k user d).
Proof.
  split; [|split].
  - apply with_account_incl.
  - apply with_account_ok.
  - intros; now apply lookup_account_stable.
Qed.

Lemma grows_same d d' :
  accounts d' = accounts d -> account_seq d' = account_seq d -> grows d d'.
Proof.
  intros Ha Hs. unfold grows, accounts_ok, lookup_account. rewrite Ha, Hs.
  repeat match goal with |- _ /\ _ => split end; auto.
Qed.

Lemma grows_post_entry e d : grows d (post_entry e d).
Proof. now apply grows_same. Qed.

Lemma grows_update_invoice i d : grows d (snd (update_invoice i d)).
Proof. now apply grows_same. Qed.

Lemma grows_reserved invoice d : grows d (reserved invoice d).
Proof. unfold reserved. eapply grows_trans; apply grows_with_account. Qed.

Lemma grows_provisioned invoice d : grows d (provisioned invoice d).
Proof.
  unfold provisioned. eapply grows_trans; [apply grows_reserved|apply grows_post_entry].
Qed.

Lemma grows_received invoice incoming now d : grows d (received invoice incoming now d).
Proof.
  unfold received.
  eapply grows_trans; [|apply grows_update_invoice].
  eapply grows_trans; [|apply grows_post_entry].
  eapply grows_trans; apply grows_with_account.
Qed.

Lemma grows_reverted invoice entry e d : grows d (reverted invoice entry e d).
Proof.
  unfold reverted.
  eapply grows_trans; [apply grows_post_entry|apply grows_update_invoice].
Qed.

Lemma grows_charged invoice parent now d : grows d (charged invoice parent now d).
Proof.
  unfold charged.
  eapply grows_trans; [apply grows_update_invoice|].
  eapply grows_trans; [apply grows_with_account|].
  eapply grows_trans; [apply grows_post_entry|apply grows_with_account].
Qed.

(** The payer's Current account, once resolved, is the one found from
    then on. *)
Lemma the_account_grows k user d d' :
  grows (with_account k user d) d' ->
  the_account k user d' = the_account k user d.
Proof.
  intros (_ & _ & Hl). unfold the_account at 1.
  now rewrite (Hl _ _ _ (lookup_with_account k user d)).
Qed.

Lemma the_account_In_grows k user d d' :
  grows (with_account k user d) d' -> In (the_account k user d) (accounts d').
Proof. intros (Hi & _). apply Hi, the_account_In. Qed.

(** ** The tables after each step *)

Lemma provisioned_entries invoice d :
  transaction_entries (provisioned invoice d)
  = principal invoice d :: transaction_entries d.
Proof.
  unfold provisioned, post_entry, principal, reserved. cbn.
  now rewrite !with_account_entries, !with_account_entry_seq.
Qed.

Lemma provisioned_invoices invoice d :
  invoices (provisioned invoice d) = invoices d.
Proof.
  unfold provisioned, post_entry, reserved. cbn. now rewrite !with_account_invoices.
Qed.

Lemma provisioned_entry_seq invoice d :
  entry_seq (provisioned invoice d) = entry_seq d + 1.
Proof.
  unfold provisioned, post_entry, reserved. cbn.
  now rewrite !with_account_entry_seq.
Qed.

Lemma received_entry_seq invoice incoming now d :
  entry_seq (received invoice incoming now d) = entry_seq d + 1.
Proof.
  unfold received, update_invoice, post_entry. cbn.
  now rewrite !with_account_entry_seq.
Qed.

Lemma reverted_entries invoice entry e d :
  transaction_entries (reverted invoice entry e d)
  = with_EntryID (entry_seq d) (reversal invoice entry) :: transaction_entries d.
Proof. reflexivity. Qed.

Lemma reverted_invoices invoice entry e d :
  invoices (reverted invoice entry e d)
  = map (fun x => if ID x =? ID invoice then failed invoice e else x) (invoices d).
Proof. reflexivity. Qed.

Lemma charged_entries invoice parent now d :
  transaction_entries (charged invoice parent now d)
  = with_EntryID (entry_seq d)
      (fee_entry invoice parent (snd (update_invoice (settled invoice now) d)))
    :: transaction_entries d.
Proof.
  unfold charged, post_entry. rewrite with_account_entries. cbn.
  now rewrite !with_account_entries, !with_account_entry_seq.
Qed.

Lemma charged_invoices invoice parent now d :
  invoices (charged invoice parent now d)
  = map (fun x => if ID x =? ID invoice then settled invoice now else x) (invoices d).
Proof.
  unfold charged, post_entry. rewrite with_account_invoices. cbn.
  now rewrite !with_account_invoices.
Qed.

(** ** The two reconciliations without a failure of the store *)

Lemma HandleFailedPayment_run invoice entry e d c r t :
  balance_guard d (reversal invoice entry) = true ->
  HandleFailedPayment invoice entry (Some e) (world d c r t)
  = Returned (None, failed invoice e)
      (world (reverted invoice entry e d) c r
         (SqlUpdateInvoice (failed invoice e)
          :: SqlInsertEntry (reversal invoice entry) :: t)).
Proof.
  intros Hg. unfold HandleFailedPayment. fold (reversal invoice entry).
  rewrite (bind_run _ _ _ _ _ (InsertEntry_world _ _ _ _ _)).
  rewrite insert_entry_accepted by assumption. cbn [fst snd].
  rewrite (bind_run _ _ _ _ _ (UpdateInvoice_world _ _ _ _ _)).
  reflexivity.
Qed.

Lemma HandleSuccessfulPayment_run invoice parent d c r t :
  let now := hd 0 c in
  let d1 := snd (update_invoice (settled invoice now) d) in
  balance_guard (with_account AccountTypeFees (UserID invoice) d1)
                (fee_entry invoice parent d1) = true ->
  HandleSuccessfulPayment invoice parent (world d c r t)
  = Returned (None, settled invoice now)
      (world (charged invoice parent now d) (tl c) r
         (SqlInsertEntry (fee_entry invoice parent d1)
          :: SqlUpdateInvoice (settled invoice now) :: t)).
Proof.
  intros now d1 Hg. unfold HandleSuccessfulPayment.
  rewrite (bind_run _ _ _ _ _ (time_Now_world _ _ _ _)).
  rewrite (bind_run _ _ _ _ _ (UpdateInvoice_world _ _ _ _ _)).
  fold now. fold (settled invoice now). fold d1.
  rewrite (bind_run _ _ _ _ _ (AccountFor_world _ _ _ _ _ _)). cbv beta iota.
  change (UserID (settled invoice now)) with (UserID invoice).
  change (ID (settled invoice now)) with (ID invoice).
  change (Fee (settled invoice now)) with (Fee invoice).
  fold (fee_entry invoice parent d1).
  rewrite (bind_run _ _ _ _ _ (InsertEntry_world _ _ _ _ _)).
  rewrite insert_entry_accepted by assumption. cbn [fst snd].
  rewrite (bind_run _ _ _ _ _ (CurrentUserBalance_world _ _ _ _ _)).
  reflexivity.
Qed.

Lemma HandleSuccessfulPayment_fee_refused invoice parent d c r t :
  let now := hd 0 c in
  let d1 := snd (update_invoice (settled invoice now) d) in
  balance_guard (with_account AccountTypeFees (UserID invoice) d1)
                (fee_entry invoice parent d1) = false ->
  HandleSuccessfulPayment invoice parent (world d c r t)
  = Returned (Some InsufficientBalance, settled invoice now)
      (world (with_account AccountTypeFees (UserID invoice) d1) (tl c) r
         (SqlInsertEntry (fee_entry invoice parent d1)
          :: SqlUpdateInvoice (settled invoice now) :: t)).
Proof.
  intros now d1 Hg. unfold HandleSuccessfulPayment.
  rewrite (bind_run _ _ _ _ _ (time_Now_world _ _ _ _)).
  rewrite (bind_run _ _ _ _ _ (UpdateInvoice_world _ _ _ _ _)).
  fold now. fold (settled invoice now). fold d1.
  rewrite (bind_run _ _ _ _ _ (AccountFor_world _ _ _ _ _ _)). cbv beta iota.
  change (UserID (settled invoice now)) with (UserID invoice).
  change (ID (settled invoice now)) with (ID invoice).
  change (Fee (settled invoice now)) with (Fee invoice).
  fold (fee_entry invoice parent d1).
  rewrite (bind_run _ _ _ _ _ (InsertEntry_world _ _ _ _ _)).
  rewrite insert_entry_refused by assumption. reflexivity.
Qed.

(** ** SendPaymentSync: what it leaves and what it returns *)

Lemma same_payment_refl invoice : same_payment invoice invoice.
Proof. now destruct invoice. Qed.

Lemma createLnRpcSendRequest_same invoice w x invoice1 w1 :
  createLnRpcSendRequest invoice w = Returned (x, invoice1) w1 ->
  same_payment invoice invoice1.
Proof.
  unfold createLnRpcSendRequest. destruct (negb _).
  - intros H. inversion H. apply same_payment_refl.
  - unfold bind. destruct (makePreimageHex w) as [p w2|]; [|discriminate].
    destruct (hex.DecodeString _) as [dest [e|]].
    + intros H. inversion H. apply same_payment_refl.
    + destruct (DestinationCustomRecords invoice); [|discriminate].
      intros H. inversion H. reflexivity.
Qed.

Lemma createLnRpcSendRequest_returns invoice w :
  (Keysend invoice = true -> DestinationCustomRecords invoice <> None) ->
  exists x invoice1 w1, createLnRpcSendRequest invoice w = Returned (x, invoice1) w1.
Proof.
  intros Hrec. unfold createLnRpcSendRequest.
  destruct (Keysend invoice); cbn [negb]; [|eauto].
  unfold bind, makePreimageHex.
  destruct (fill_hex_total 32 w) as (p & w1 & -> & _).
  destruct (hex.DecodeString _) as [dest [e|]]; [eauto|].
  destruct (DestinationCustomRecords invoice); [eauto|].
  now destruct Hrec.
Qed.

Lemma SendPaymentSync_same invoice w resp err invoice1 w1 :
  SendPaymentSync invoice w = Returned (resp, err, invoice1) w1 ->
  same_payment invoice invoice1.
Proof.
  unfold SendPaymentSync, bind at 1.
  destruct (createLnRpcSendRequest invoice w) as [[x i] w2|] eqn:E; [|discriminate].
  apply createLnRpcSendRequest_same in E.
  destruct x as [req|e]; [|intros H; inversion H; now subst].
  unfold bind, emit.
  destruct (LndSendPaymentSync _ _) as [res|e]; [|intros H; inversion H; now subst].
  destruct (negb _ || _); [intros H; inversion H; now subst|].
  destruct (RespPaymentRoute res); [|discriminate].
  intros H; inversion H; now subst.
Qed.

(** Without a panic [SendPaymentSync] returns, and a response comes
    with no error only when the node reported the payment as made:
    it then carries the node's fee. *)
Lemma SendPaymentSync_returns invoice w :
  (Keysend invoice = true -> DestinationCustomRecords invoice <> None) ->
  routes_reported (LndClient svc) ->
  exists resp err invoice1 w1,
    SendPaymentSync invoice w = Returned (resp, err, invoice1) w1
    /\ (err = None ->
        RespInvoice resp = None
        /\ exists req res route,
             LndSendPaymentSync (LndClient svc) req = inl res
             /\ RespPaymentRoute res = Some route
             /\ PaymentRoute resp = Some {| TotalAmt := LnTotalAmt route;
                                            TotalFees := LnTotalFees route |}).
Proof.
  intros Hrec Hroute. unfold SendPaymentSync, bind at 1.
  destruct (createLnRpcSendRequest_returns invoice w Hrec) as (x & i & w1 & ->).
  destruct x as [req|e]; [|eexists _, _, _, _; split; [reflexivity|discriminate]].
  unfold bind, emit.
  destruct (LndSendPaymentSync _ _) as [res|e] eqn:Hres;
    [|eexists _, _, _, _; split; [reflexivity|discriminate]].
  destruct (negb _ || _) eqn:Hchk;
    [eexists _, _, _, _; split; [reflexivity|discriminate]|].
  apply orb_false_iff in Hchk as [He Hp]. apply negb_false_iff, String.eqb_eq in He.
  destruct (RespPaymentRoute res) as [route|] eqn:Hrt.
  - eexists _, _, _, _. split; [reflexivity|]. intros _. cbn. split; [reflexivity|].
    exists req, res, route. auto.
  - exfalso. apply (Hroute req res Hres He); [|assumption].
    destruct (RespPaymentPreimage res); [discriminate|discriminate].
Qed.

Lemma keeps_db_world {A} (m : M A) d c r t :
  keeps_db m ->
  world_of (m (world d c r t))
  = world d c (rand_src (world_of (m (world d c r t))))
              (trace (world_of (m (world d c r t)))).
Proof.
  intros H. destruct (H (world d c r t)) as (Hd & Hf & Hc).
  destruct (world_of _) as [d' f' c' r' t']. cbn in *. now subst.
Qed.

(** ** PayInvoice without a failure of the store: the provisional entry *)

Lemma PayInvoice_accepted invoice d c r t :
  accounts_ok d ->
  Amount invoice <= current_balance (UserID invoice) d ->
  PayInvoice invoice (world d c r t)
  = (if String.eqb (IdentityPubkey svc) (DestinationPubkeyHex invoice)
     then bind (SendInternalPayment invoice)
               (fun x => reconcile (principal invoice d) (x, invoice))
     else bind (SendPaymentSync invoice) (reconcile (principal invoice d)))
      (world (provisioned invoice d) c r
         (SqlInsertEntry (principal_entry invoice d) :: t)).
Proof.
  intros Hok Hle.
  erewrite (PayInvoice_routes invoice _ _ _ _ _ (principal invoice d));
    [now destruct (String.eqb _ _) | apply AccountFor_world | apply AccountFor_world |].
  fold (principal_entry invoice d). rewrite InsertEntry_world.
  fold (reserved invoice d).
  rewrite insert_entry_accepted
    by (rewrite principal_guard by assumption; now apply Z.leb_le).
  cbn [fst snd]. unfold principal, provisioned, reserved.
  now rewrite !with_account_entry_seq.
Qed.

(** The entry that reverses the provisional one is never refused: it
    debits the payer's Outgoing account. *)
Lemma reversal_guard invoice invoice1 d d' :
  accounts_ok d ->
  grows (reserved invoice d) d' ->
  balance_guard d' (reversal invoice1 (principal invoice d)) = true.
Proof.
  intros Hok Hg.
  rewrite (balance_guard_In _ _
             (the_account AccountTypeOutgoing (UserID invoice)
                (with_account AccountTypeCurrent (UserID invoice) d))).
  - now rewrite the_account_kind.
  - apply Hg. now apply reserved_ok.
  - apply Hg. apply reserved_outgoing_In.
  - reflexivity.
Qed.

(** The fee entry debits the payer's Current account: it is accepted
    exactly when what is left there covers the fee. *)
Lemma fee_guard invoice invoice2 d dX d1 :
  accounts_ok d ->
  UserID invoice2 = UserID invoice ->
  grows (reserved invoice d) dX ->
  grows dX d1 ->
  transaction_entries d1 = transaction_entries dX ->
  balance_guard (with_account AccountTypeFees (UserID invoice2) d1)
                (fee_entry invoice2 (principal invoice d) d1)
  = (Fee invoice2
     <=? account_balance (AccountID (the_account AccountTypeCurrent (UserID invoice) d))
           (transaction_entries dX)).
Proof.
  intros Hok Hu Hg Hg1 He.
  set (cur := the_account AccountTypeCurrent (UserID invoice) d).
  set (d2 := with_account AccountTypeFees (UserID invoice2) d1).
  assert (Hg2 : grows (reserved invoice d) d2).
  { eapply grows_trans; [exact Hg|]. eapply grows_trans; [exact Hg1|].
    apply grows_with_account. }
  assert (Hok2 : accounts_ok d2) by (apply Hg2; now apply reserved_ok).
  assert (Hcur : In cur (accounts d2)) by (apply Hg2; apply reserved_current_In).
  rewrite (balance_guard_In _ _ cur Hok2 Hcur) by reflexivity.
  subst cur. rewrite the_account_kind. cbn [AccountType_eqb negb orb account_balance].
  replace (transaction_entries d2) with (transaction_entries dX)
    by (unfold d2; now rewrite with_account_entries).
  unfold entry_effect. cbn [CreditAccountID DebitAccountID EntryAmount fee_entry principal
                            with_EntryID principal_entry].
  rewrite Z.eqb_refl.
  destruct (Z.eqb_spec (AccountID (the_account AccountTypeFees (UserID invoice2) d1))
              (AccountID (the_account AccountTypeCurrent (UserID invoice) d))) as [E|_].
  - exfalso. revert E.
    apply (distinct_kinds_distinct_ids d2); auto.
    + apply the_account_In.
    + rewrite !the_account_kind. discriminate.
  - destruct (Z.leb_spec (Fee invoice2)
                (account_balance
                   (AccountID (the_account AccountTypeCurrent (UserID invoice) d))
                   (transaction_entries dX)));
      [apply Z.leb_le | apply Z.leb_gt]; lia.
Qed.

(** ** The reconciliation after the path taken *)

Lemma reconcile_failed_run invoice invoice1 resp e d dX c r t :
  accounts_ok d ->
  grows (reserved invoice d) dX ->
  reconcile (principal invoice d) (resp, Some e, invoice1) (world dX c r t)
  = Returned (None, Some e, failed invoice1 e)
      (world (reverted invoice1 (principal invoice d) e dX) c r
         (SqlUpdateInvoice (failed invoice1 e)
          :: SqlInsertEntry (reversal invoice1 (principal invoice d)) :: t)).
Proof.
  intros Hok Hg. unfold reconcile.
  erewrite bind_run
    by (apply HandleFailedPayment_run; now apply (reversal_guard invoice _ d)).
  reflexivity.
Qed.

Lemma reconcile_settled_run invoice invoice1 resp route d dX c r t :
  let invoice2 := stamped resp (TotalFees route) invoice1 in
  let final := settled invoice2 (hd 0 c) in
  accounts_ok d ->
  UserID invoice1 = UserID invoice ->
  grows (reserved invoice d) dX ->
  PaymentRoute resp = Some route ->
  TotalFees route
  <= account_balance (AccountID (the_account AccountTypeCurrent (UserID invoice) d))
       (transaction_entries dX) ->
  reconcile (principal invoice d) (resp, None, invoice1) (world dX c r t)
  = Returned (Some (handed resp (principal invoice d) final), None, final)
      (world (charged invoice2 (principal invoice d) (hd 0 c) dX) (tl c) r
         (SqlInsertEntry
            (fee_entry invoice2 (principal invoice d)
               (snd (update_invoice final dX)))
          :: SqlUpdateInvoice final :: t)).
Proof.
  intros invoice2 final Hok Hu Hg Hrt Hfee. unfold reconcile. rewrite Hrt.
  fold (stamped resp (TotalFees route) invoice1). fold invoice2.
  erewrite bind_run.
  2:{ apply HandleSuccessfulPayment_run.
      rewrite (fee_guard invoice invoice2 d dX); auto.
      - now apply Z.leb_le.
      - apply grows_update_invoice. }
  unfold handed, ret. now rewrite Hrt.
Qed.

(** ** Balances *)

Lemma effect_of_principal invoice d :
  accounts_ok d ->
  entry_effect (AccountID (the_account AccountTypeCurrent (UserID invoice) d))
               (principal invoice d)
  = - Amount invoice.
Proof.
  intros Hok. unfold entry_effect. cbn. rewrite Z.eqb_refl.
  destruct (Z.eqb_spec
              (AccountID (the_account AccountTypeOutgoing (UserID invoice)
                            (with_account AccountTypeCurrent (UserID invoice) d)))
              (AccountID (the_account AccountTypeCurrent (UserID invoice) d))) as [E|_];
    [now apply reserved_ids_differ in E | lia].
Qed.

Lemma balance_provisioned invoice d :
  accounts_ok d ->
  account_balance (AccountID (the_account AccountTypeCurrent (UserID invoice) d))
                  (transaction_entries (provisioned invoice d))
  = current_balance (UserID invoice) d - Amount invoice.
Proof.
  intros Hok. rewrite provisioned_entries. cbn [account_balance].
  rewrite effect_of_principal by assumption. unfold current_balance. lia.
Qed.

(** What the recipient's entry adds to the payer's Current account: the
    amount when the payer is the recipient, nothing otherwise. *)
Lemma effect_of_receipt invoice incoming d :
  accounts_ok d ->
  let dP := provisioned invoice d in
  entry_effect (AccountID (the_account AccountTypeCurrent (UserID invoice) d))
               (with_EntryID (entry_seq dP) (recipient_entry invoice incoming dP))
  = if UserID incoming =? UserID invoice then Amount invoice else 0.
Proof.
  intros Hok dP.
  set (cur := the_account AccountTypeCurrent (UserID invoice) d).
  set (dA := with_account AccountTypeIncoming (UserID incoming)
               (with_account AccountTypeCurrent (UserID incoming) dP)).
  assert (HgP : grows (with_account AccountTypeCurrent (UserID invoice) d) dP).
  { unfold dP, provisioned, reserved.
    eapply grows_trans; [apply grows_with_account|apply grows_post_entry]. }
  assert (HgA : grows dP dA)
    by (unfold dA; eapply grows_trans; apply grows_with_account).
  assert (HokA : accounts_ok dA).
  { apply HgA, HgP. now apply with_account_ok. }
  assert (Hcur : In cur (accounts dA)) by (apply HgA, HgP, the_account_In).
  assert (HrC : In (the_account AccountTypeCurrent (UserID incoming) dP) (accounts dA))
    by (unfold dA; apply with_account_incl, the_account_In).
  assert (HrI : In (the_account AccountTypeIncoming (UserID incoming)
                      (with_account AccountTypeCurrent (UserID incoming) dP))
                   (accounts dA)) by apply the_account_In.
  unfold entry_effect. cbn [CreditAccountID DebitAccountID EntryAmount with_EntryID
                            recipient_entry].
  destruct (Z.eqb_spec
              (AccountID (the_account AccountTypeIncoming (UserID incoming)
                            (with_account AccountTypeCurrent (UserID incoming) dP)))
              (AccountID cur)) as [E|_].
  { exfalso. revert E. apply (distinct_kinds_distinct_ids dA); auto.
    unfold cur. rewrite !the_account_kind. discriminate. }
  destruct (Z.eqb_spec (UserID incoming) (UserID invoice)) as [Eu|Eu].
  - rewrite Eu. rewrite (the_account_grows _ _ _ _ HgP). fold cur.
    rewrite Z.eqb_refl. lia.
  - destruct (Z.eqb_spec (AccountID (the_account AccountTypeCurrent (UserID incoming) dP))
                (AccountID cur)) as [E|_]; [|lia].
    exfalso. apply Eu.
    apply (accounts_ok_inj dA _ _ HokA HrC Hcur) in E.
    apply (f_equal AccountUserID) in E. unfold cur in E.
    now rewrite !the_account_user in E.
Qed.

Lemma balance_received invoice incoming now d :
  accounts_ok d ->
  account_balance (AccountID (the_account AccountTypeCurrent (UserID invoice) d))
                  (transaction_entries
                     (received invoice incoming now (provisioned invoice d)))
  = current_balance (UserID invoice) d - Amount invoice
    + (if UserID incoming =? UserID invoice then Amount invoice else 0).
Proof.
  intros Hok. rewrite received_entries. cbn [account_balance].
  rewrite (effect_of_receipt invoice incoming d Hok).
  rewrite balance_provisioned by assumption. lia.
Qed.

(** An entry and its reversal cancel on every account. *)
Lemma reversal_cancels a invoice entry n :
  EntryAmount entry = Amount invoice ->
  entry_effect a (with_EntryID n (reversal invoice entry)) + entry_effect a entry = 0.
Proof.
  intros H. unfold entry_effect. cbn. rewrite H.
  destruct (DebitAccountID entry =? a), (CreditAccountID entry =? a); lia.
Qed.

(** ** PayInvoice without a failure of the store: the internal path *)

Lemma find_open_incoming_provisioned invoice pr d :
  find_open_incoming pr (provisioned invoice d) = find_open_incoming pr d.
Proof. unfold find_open_incoming. now rewrite provisioned_invoices. Qed.

Lemma PayInvoice_internal_settled invoice incoming d c r t :
  let invoice2 := stamped (internal_response invoice incoming) 0 invoice in
  let final := settled invoice2 (hd 0 (tl c)) in
  accounts_ok d ->
  0 <= Amount invoice ->
  Amount invoice <= current_balance (UserID invoice) d ->
  IdentityPubkey svc = DestinationPubkeyHex invoice ->
  find_open_incoming (PaymentRequest invoice) d = Some incoming ->
  exists t',
    PayInvoice invoice (world d c r t)
    = Returned (Some (handed (internal_response invoice incoming)
                        (principal invoice d) final), None, final)
        (world (charged invoice2 (principal invoice d) (hd 0 (tl c))
                  (received invoice incoming (hd 0 c) (provisioned invoice d)))
           (tl (tl c)) r t').
Proof.
  intros invoice2 final Hok Hpos Hle Hkey Hfind.
  rewrite PayInvoice_accepted by assumption.
  apply String.eqb_eq in Hkey. rewrite Hkey.
  erewrite bind_run.
  2:{ apply SendInternalPayment_found.
      - apply grows_provisioned, Hok.
      - rewrite find_open_incoming_provisioned. exact Hfind. }
  eexists.
  apply (reconcile_settled_run invoice invoice (internal_response invoice incoming)
           {| TotalAmt := Amount invoice; TotalFees := 0 |}); auto.
  - eapply grows_trans; [apply grows_post_entry|apply grows_received].
  - rewrite balance_received by assumption. cbn [TotalFees].
    destruct (UserID incoming =? UserID invoice); lia.
Qed.

Lemma PayInvoice_internal_not_found invoice d c r t :
  accounts_ok d ->
  Amount invoice <= current_balance (UserID invoice) d ->
  IdentityPubkey svc = DestinationPubkeyHex invoice ->
  find_open_incoming (PaymentRequest invoice) d = None ->
  exists t',
    PayInvoice invoice (world d c r t)
    = Returned (None, Some NotFound, failed invoice NotFound)
        (world (reverted invoice (principal invoice d) NotFound (provisioned invoice d))
           c r t').
Proof.
  intros Hok Hle Hkey Hfind.
  rewrite PayInvoice_accepted by assumption.
  apply String.eqb_eq in Hkey. rewrite Hkey.
  erewrite bind_run
    by (apply SendInternalPayment_not_found; now rewrite find_open_incoming_provisioned).
  eexists. apply reconcile_failed_run; [assumption|apply grows_post_entry].
Qed.

(** ** The rows after an update *)

Lemma stored_after_update invoice l :
  forall row,
    In row (map (fun x => if ID x =? ID invoice then invoice else x) l) ->
    ID row = ID invoice -> row = invoice.
Proof.
  intros row Hin Hid. apply in_map_iff in Hin as (x & Hx & _).
  destruct (Z.eqb_spec (ID x) (ID invoice)); congruence.
Qed.

Lemma entries_of_cons invoice_id e d l :
  transaction_entries d = e :: l ->
  entries_of invoice_id d
  = if InvoiceID e =? invoice_id then e :: List.filter (fun x => InvoiceID x =? invoice_id) l
    else List.filter (fun x => InvoiceID x =? invoice_id) l.
Proof. unfold entries_of. now intros ->. Qed.

(** ** PayInvoice: the two ends *)

Lemma same_payment_fields a b :
  same_payment a b -> ID b = ID a /\ UserID b = UserID a /\ Amount b = Amount a.
Proof. unfold same_payment. intros ->. now cbn. Qed.

Lemma stored_map key v l :
  ID v = key ->
  forall row,
    In row (map (fun x => if ID x =? key then v else x) l) ->
    ID row = ID v -> row = v.
Proof. intros <-. apply stored_after_update. Qed.

(** Where the failure path leaves the ledger and the invoice. *)
Lemma reverted_end invoice invoice1 e d :
  same_payment invoice invoice1 ->
  let rev := with_EntryID (entry_seq (provisioned invoice d))
               (reversal invoice1 (principal invoice d)) in
  let dF := reverted invoice1 (principal invoice d) e (provisioned invoice d) in
  stored (failed invoice1 e) dF
  /\ transaction_entries dF = rev :: principal invoice d :: transaction_entries d
  /\ entries_of (ID invoice) dF = rev :: principal invoice d :: entries_of (ID invoice) d
  /\ exact_reversal rev (principal invoice d)
  /\ forall a, account_balance a (transaction_entries dF)
               = account_balance a (transaction_entries d).
Proof.
  intros Hsame rev dF. destruct (same_payment_fields _ _ Hsame) as (Hid & Hu & Ha).
  assert (He : transaction_entries dF = rev :: principal invoice d :: transaction_entries d).
  { unfold dF. now rewrite reverted_entries, provisioned_entries. }
  split; [|split; [exact He|split; [|split]]].
  - unfold stored, dF. rewrite reverted_invoices. now apply stored_map.
  - unfold entries_of. rewrite He. cbn [List.filter]. unfold rev. cbn [InvoiceID with_EntryID
      reversal principal principal_entry]. now rewrite Hid, Z.eqb_refl.
  - unfold exact_reversal, rev. cbn. auto.
  - intros a. rewrite He. cbn [account_balance]. unfold rev.
    pose proof (reversal_cancels a invoice1 (principal invoice d)
                  (entry_seq (provisioned invoice d))) as Hc.
    cbn [EntryAmount principal with_EntryID principal_entry] in Hc.
    specialize (Hc (eq_sym Ha)). lia.
Qed.

(** Where the success path leaves the ledger and the invoice, [dX]
    being the store as the path taken left it and [others] the entries
    that path added for other invoices. *)
Lemma charged_end invoice invoice2 now d dX others :
  ID invoice2 = ID invoice ->
  transaction_entries dX
  = (others ++ principal invoice d :: transaction_entries d)%list ->
  Forall (fun x => InvoiceID x <> ID invoice) others ->
  let fee := with_EntryID (entry_seq dX)
               (fee_entry invoice2 (principal invoice d)
                  (snd (update_invoice (settled invoice2 now) dX))) in
  let dF := charged invoice2 (principal invoice d) now dX in
  stored (settled invoice2 now) dF
  /\ entries_of (ID invoice) dF = fee :: principal invoice d :: entries_of (ID invoice) d
  /\ ParentID fee = EntryID (principal invoice d)
  /\ EntryAmount fee = Fee invoice2.
Proof.
  intros Hid He Hoth fee dF. split; [|split; [|split]]; try reflexivity.
  - unfold stored, dF. rewrite charged_invoices. now apply stored_map.
  - unfold entries_of, dF. rewrite charged_entries, He. fold fee.
    cbn [List.filter]. unfold fee at 1. cbn [InvoiceID with_EntryID fee_entry].
    rewrite Hid, Z.eqb_refl. f_equal.
    rewrite List.filter_app. cbn [List.filter].
    cbn [InvoiceID principal with_EntryID principal_entry]. rewrite Z.eqb_refl.
    replace (List.filter (fun e => InvoiceID e =? ID invoice) others) with
      (@nil TransactionEntry); [reflexivity|].
    clear He. induction others as [|x l IH]; [reflexivity|].
    inversion Hoth as [|? ? Hx Hl]; subst. cbn [List.filter].
    apply Z.eqb_neq in Hx. rewrite Hx. now apply IH.
Qed.

(** C1 (as amended): when the store has no failure, the provisional
    entry is accepted, the payer's balance covers any fee the node may
    report and the call does not panic, [PayInvoice] ends in one of two
    ways.  Either the caller gets a response and no error, the invoice
    is Settled, and the invoice has exactly two new entries, the
    principal and the fee entry whose parent is the principal; or the
    caller gets an error and no response, the invoice is in state
    Error with the message of the error, the ledger has exactly two new
    entries, the principal and its exact reversal, and the balance of
    every account is what it was. *)
Theorem PayInvoice_settles_or_reverts invoice w :
  faults w = [] ->
  accounts_ok (db w) ->
  0 <= Amount invoice ->
  Amount invoice <= current_balance (UserID invoice) (db w) ->
  (Keysend invoice = true -> DestinationCustomRecords invoice <> None) ->
  routes_reported (LndClient svc) ->
  fees_within (LndClient svc)
    (current_balance (UserID invoice) (db w) - Amount invoice) ->
  (forall row, In row (invoices (db w)) ->
               Type_ row = InvoiceTypeIncoming -> ID row <> ID invoice) ->
  exists resp err invoice' w',
    PayInvoice invoice w = Returned (resp, err, invoice') w'
    /\ ID invoice' = ID invoice
    /\ stored invoice' (db w')
    /\ ((exists r entry fee route,
           resp = Some r /\ err = None
           /\ State invoice' = InvoiceStateSettled
           /\ entries_of (ID invoice) (db w')
              = fee :: entry :: entries_of (ID invoice) (db w)
           /\ ParentID fee = EntryID entry
           /\ EntryAmount entry = Amount invoice
           /\ PaymentRoute r = Some route
           /\ EntryAmount fee = TotalFees route
           /\ Fee invoice' = TotalFees route
           /\ Preimage invoice' = PaymentPreimageStr r)
        \/
        (exists e entry rev,
           resp = None /\ err = Some e
           /\ State invoice' = InvoiceStateError
           /\ ErrorMessage invoice' = Error e
           /\ transaction_entries (db w')
              = rev :: entry :: transaction_entries (db w)
           /\ entries_of (ID invoice) (db w')
              = rev :: entry :: entries_of (ID invoice) (db w)
           /\ exact_reversal rev entry
           /\ forall a, account_balance a (transaction_entries (db w'))
                        = account_balance a (transaction_entries (db w)))).
Proof.
  intros Hf Hok Hpos Hle Hrec Hroute Hfees Hout.
  destruct w as [d f c r t]. cbn in Hf, Hok, Hle, Hfees, Hout |- *. subst f.
  change {| db := d; faults := []; clock := c; rand_src := r; trace := t |}
    with (world d c r t).
  destruct (String.eqb_spec (IdentityPubkey svc) (DestinationPubkeyHex invoice))
    as [Hkey|Hkey].
  - (* the internal path *)
    destruct (find_open_incoming (PaymentRequest invoice) d) as [incoming|] eqn:Hfind.
    + destruct (PayInvoice_internal_settled invoice incoming d c r t
                  Hok Hpos Hle Hkey Hfind) as (t' & ->).
      eexists _, _, _, _. split; [reflexivity|]. cbn [db world].
      apply find_open_incoming_Some in Hfind as (Hin & Hty & _).
      edestruct (charged_end invoice
                   (stamped (internal_response invoice incoming) 0 invoice)
                   (hd 0 (tl c)) d
                   (received invoice incoming (hd 0 c) (provisioned invoice d))
                   [with_EntryID (entry_seq (provisioned invoice d))
                      (recipient_entry invoice incoming (provisioned invoice d))])
        as (Hst & Hen & Hpar & Hamt).
      { reflexivity. }
      { now rewrite received_entries, provisioned_entries. }
      { constructor; [|constructor]. cbn. now apply Hout. }
      split; [reflexivity|]. split; [exact Hst|]. left.
      eexists _, _, _, _.
      repeat match goal with |- _ /\ _ => split end;
        first [exact Hen | exact Hpar | reflexivity].
    + destruct (PayInvoice_internal_not_found invoice d c r t Hok Hle Hkey Hfind)
        as (t' & ->).
      eexists _, _, _, _. split; [reflexivity|]. cbn [db world].
      destruct (reverted_end invoice invoice NotFound d (same_payment_refl invoice))
        as (Hst & He & Hen & Hrev & Hbal).
      split; [reflexivity|]. split; [exact Hst|]. right.
      eexists _, _, _.
      repeat match goal with |- _ /\ _ => split end;
        first [exact He | exact Hen | exact Hrev | exact Hbal | reflexivity].
  - (* through the node *)
    rewrite PayInvoice_accepted by assumption.
    apply String.eqb_neq in Hkey. rewrite Hkey.
    set (w3 := world (provisioned invoice d) c r
                 (SqlInsertEntry (principal_entry invoice d) :: t)).
    destruct (SendPaymentSync_returns invoice w3 Hrec Hroute)
      as (resp & err & invoice1 & w4 & Hrun & Hsucc).
    pose proof (SendPaymentSync_same _ _ _ _ _ _ Hrun) as Hsame.
    destruct (same_payment_fields _ _ Hsame) as (Hid & Hu & Ha).
    pose proof (keeps_db_world (SendPaymentSync invoice) (provisioned invoice d) c r
                  (SqlInsertEntry (principal_entry invoice d) :: t)
                  (keeps_db_SendPaymentSync invoice)) as Hw.
    fold w3 in Hw. rewrite Hrun in Hw. cbn [world_of] in Hw.
    rewrite (bind_run _ _ _ _ _ Hrun), Hw.
    destruct err as [e|].
    + rewrite (reconcile_failed_run invoice invoice1 resp e d)
        by (assumption || apply grows_post_entry).
      eexists _, _, _, _. split; [reflexivity|]. cbn [db world].
      destruct (reverted_end invoice invoice1 e d Hsame)
        as (Hst & He & Hen & Hrev & Hbal).
      split; [exact Hid|]. split; [exact Hst|]. right.
      eexists _, _, _.
      repeat match goal with |- _ /\ _ => split end;
        first [exact He | exact Hen | exact Hrev | exact Hbal | reflexivity].
    + destruct (Hsucc eq_refl) as (Hri & req & res & route & Hres & Hrt & Hpr).
      rewrite (reconcile_settled_run invoice invoice1 resp _ d (provisioned invoice d)
                 _ _ _ Hok Hu (grows_post_entry _ _) Hpr).
      2:{ rewrite balance_provisioned by assumption. cbn [TotalFees].
          apply (Hfees req res route Hres Hrt). }
      eexists _, _, _, _. split; [reflexivity|]. cbn [db world].
      edestruct (charged_end invoice
                   (stamped resp (TotalFees {| TotalAmt := LnTotalAmt route;
                                               TotalFees := LnTotalFees route |})
                      invoice1)
                   (hd 0 c) d (provisioned invoice d) [])
        as (Hst & Hen & Hpar & Hamt).
      { exact Hid. }
      { now rewrite provisioned_entries. }
      { constructor. }
      split; [exact Hid|]. split; [exact Hst|]. left.
      eexists _, _, _, _.
      repeat match goal with |- _ /\ _ => split end;
        first [exact Hen | exact Hpar | exact Hpr | reflexivity].
Qed.

(** ** Paying the same internal invoice twice *)

Lemma find_none_all {A} (p : A -> bool) (l : list A) :
  (forall x, In x l -> p x = false) -> find p l = None.
Proof.
  induction l as [|x l IH]; [reflexivity|]. intros H. cbn.
  rewrite (H x) by now left. apply IH. intros y Hy. apply H. now right.
Qed.

Lemma effect_of_fee invoice invoice2 d dX d1 n :
  accounts_ok d ->
  UserID invoice2 = UserID invoice ->
  grows (reserved invoice d) dX ->
  grows dX d1 ->
  entry_effect (AccountID (the_account AccountTypeCurrent (UserID invoice) d))
               (with_EntryID n (fee_entry invoice2 (principal invoice d) d1))
  = - Fee invoice2.
Proof.
  intros Hok Hu Hg Hg1.
  set (d2 := with_account AccountTypeFees (UserID invoice2) d1).
  assert (Hg2 : grows (reserved invoice d) d2).
  { eapply grows_trans; [exact Hg|]. eapply grows_trans; [exact Hg1|].
    apply grows_with_account. }
  assert (Hok2 : accounts_ok d2) by (apply Hg2; now apply reserved_ok).
  unfold entry_effect. cbn [CreditAccountID DebitAccountID EntryAmount fee_entry principal
                            with_EntryID principal_entry].
  rewrite Z.eqb_refl.
  destruct (Z.eqb_spec (AccountID (the_account AccountTypeFees (UserID invoice2) d1))
              (AccountID (the_account AccountTypeCurrent (UserID invoice) d))) as [E|_];
    [|lia].
  exfalso. revert E. apply (distinct_kinds_distinct_ids d2); auto.
  - apply the_account_In.
  - apply Hg2, reserved_current_In.
  - rewrite !the_account_kind. discriminate.
Qed.

Lemma grows_current_reserved invoice d :
  grows (with_account AccountTypeCurrent (UserID invoice) d) (reserved invoice d).
Proof. unfold reserved. apply grows_with_account. Qed.

(** The balance of the payer after an internal payment that settled. *)
Lemma balance_internal_settled invoice incoming invoice2 now1 now2 d :
  accounts_ok d ->
  UserID invoice2 = UserID invoice ->
  let dF := charged invoice2 (principal invoice d) now2
              (received invoice incoming now1 (provisioned invoice d)) in
  current_balance (UserID invoice) dF
  = current_balance (UserID invoice) d - Amount invoice
    + (if UserID incoming =? UserID invoice then Amount invoice else 0)
    - Fee invoice2.
Proof.
  intros Hok Hu dF.
  assert (HgR : grows (reserved invoice d)
                  (received invoice incoming now1 (provisioned invoice d))).
  { eapply grows_trans; [apply grows_post_entry|apply grows_received]. }
  unfold current_balance at 1.
  rewrite (the_account_grows AccountTypeCurrent (UserID invoice) d dF).
  2:{ eapply grows_trans; [apply grows_current_reserved|].
      eapply grows_trans; [exact HgR|apply grows_charged]. }
  unfold dF. rewrite charged_entries. cbn [account_balance].
  rewrite (effect_of_fee invoice invoice2 d _ _ _ Hok Hu HgR (grows_update_invoice _ _)).
  rewrite balance_received by assumption. lia.
Qed.

Lemma no_open_incoming_left invoice incoming final now d dX :
  find_open_incoming (PaymentRequest invoice) d = Some incoming ->
  (forall row, In row (invoices d) ->
               Type_ row = InvoiceTypeIncoming ->
               PaymentRequest row = PaymentRequest invoice ->
               State row = InvoiceStateOpen -> ID row = ID incoming) ->
  State final = InvoiceStateSettled ->
  invoices dX
  = map (fun x => if ID x =? ID final then final else x)
      (map (fun x => if ID x =? ID incoming then settled_incoming incoming now else x)
         (invoices d)) ->
  find_open_incoming (PaymentRequest invoice) dX = None.
Proof.
  intros Hfind Huniq Hfinal Hinv. unfold find_open_incoming. rewrite Hinv.
  apply find_none_all. intros x Hx.
  apply in_map_iff in Hx as (y & <- & Hy). apply in_map_iff in Hy as (z & <- & Hz).
  destruct (ID (if ID z =? ID incoming then settled_incoming incoming now else z)
            =? ID final).
  { rewrite Hfinal. cbn. now rewrite andb_false_r. }
  destruct (Z.eqb_spec (ID z) (ID incoming)) as [E|E].
  { cbn. now rewrite andb_false_r. }
  destruct (InvoiceType_eqb (Type_ z) InvoiceTypeIncoming) eqn:Ht; [|reflexivity].
  destruct (String.eqb_spec (PaymentRequest z) (PaymentRequest invoice)) as [Hp|];
    [|reflexivity].
  destruct (InvoiceState_eqb (State z) InvoiceStateOpen) eqn:Hs; [|reflexivity].
  exfalso. apply E. apply Huniq; auto.
  - now destruct (Type_ z).
  - now destruct (State z).
Qed.

(** C5: an internal invoice that [PayInvoice] has settled cannot be
    paid again: the payment request no longer names an Open incoming
    invoice, so that a second [PayInvoice] for it, once its provisional
    entry is in, fails with NotFound; the failure path reverses that
    entry, every balance is what it was before the second attempt, and
    the balance of the first payer has moved by one amount only. *)
Theorem internal_payment_once invoice1 invoice2 incoming w :
  faults w = [] ->
  accounts_ok (db w) ->
  0 <= Amount invoice1 ->
  Amount invoice1 <= current_balance (UserID invoice1) (db w) ->
  IdentityPubkey svc = DestinationPubkeyHex invoice1 ->
  IdentityPubkey svc = DestinationPubkeyHex invoice2 ->
  PaymentRequest invoice2 = PaymentRequest invoice1 ->
  find_open_incoming (PaymentRequest invoice1) (db w) = Some incoming ->
  (forall row, In row (invoices (db w)) ->
               Type_ row = InvoiceTypeIncoming ->
               PaymentRequest row = PaymentRequest invoice1 ->
               State row = InvoiceStateOpen -> ID row = ID incoming) ->
  exists resp1 invoice1' w1,
    PayInvoice invoice1 w = Returned (Some resp1, None, invoice1') w1
    /\ State invoice1' = InvoiceStateSettled
    /\ find_open_incoming (PaymentRequest invoice1) (db w1) = None
    /\ current_balance (UserID invoice1) (db w1)
       = current_balance (UserID invoice1) (db w) - Amount invoice1
         + (if UserID incoming =? UserID invoice1 then Amount invoice1 else 0)
    /\ (Amount invoice2 <= current_balance (UserID invoice2) (db w1) ->
        exists invoice2' w2 entry rev,
          PayInvoice invoice2 w1 = Returned (None, Some NotFound, invoice2') w2
          /\ State invoice2' = InvoiceStateError
          /\ transaction_entries (db w2) = rev :: entry :: transaction_entries (db w1)
          /\ exact_reversal rev entry
          /\ (forall a, account_balance a (transaction_entries (db w2))
                        = account_balance a (transaction_entries (db w1)))
          /\ current_balance (UserID invoice1) (db w2)
             = current_balance (UserID invoice1) (db w1)).
Proof.
  intros Hf Hok Hpos Hle Hk1 Hk2 Hpr Hfind Huniq.
  destruct w as [d f c r t]. cbn in Hf, Hok, Hle, Hfind, Huniq |- *. subst f.
  change {| db := d; faults := []; clock := c; rand_src := r; trace := t |}
    with (world d c r t).
  destruct (PayInvoice_internal_settled invoice1 incoming d c r t
              Hok Hpos Hle Hk1 Hfind) as (t1 & ->).
  set (invoice1s := stamped (internal_response invoice1 incoming) 0 invoice1).
  set (d1 := charged invoice1s (principal invoice1 d) (hd 0 (tl c))
               (received invoice1 incoming (hd 0 c) (provisioned invoice1 d))).
  assert (Hg1 : grows d d1).
  { unfold d1. eapply grows_trans; [apply grows_provisioned|].
    eapply grows_trans; [apply grows_received|apply grows_charged]. }
  assert (Hok1 : accounts_ok d1) by now apply Hg1.
  assert (Hnone : find_open_incoming (PaymentRequest invoice1) d1 = None).
  { apply (no_open_incoming_left invoice1 incoming
             (settled invoice1s (hd 0 (tl c))) (hd 0 c) d); auto.
    unfold d1. now rewrite charged_invoices, received_invoices, provisioned_invoices. }
  eexists _, _, _. split; [reflexivity|]. cbn [db world].
  split; [reflexivity|]. split; [exact Hnone|]. split.
  { unfold d1. rewrite (balance_internal_settled invoice1 incoming invoice1s); auto.
    cbn [Fee invoice1s stamped with_Fee]. lia. }
  intros Hle2. rewrite <- Hpr in Hnone.
  destruct (PayInvoice_internal_not_found invoice2 d1 (tl (tl c)) r t1
              Hok1 Hle2 Hk2 Hnone) as (t2 & ->).
  destruct (reverted_end invoice2 invoice2 NotFound d1 (same_payment_refl invoice2))
    as (_ & He & _ & Hrev & Hbal).
  eexists _, _, _, _. split; [reflexivity|]. cbn [db world].
  repeat match goal with |- _ /\ _ => split end;
    first [exact He | exact Hrev | exact Hbal | reflexivity | idtac].
  set (d2 := reverted invoice2 (principal invoice2 d1) NotFound (provisioned invoice2 d1)).
  unfold current_balance. rewrite Hbal.
  replace (the_account AccountTypeCurrent (UserID invoice1) d2)
    with (the_account AccountTypeCurrent (UserID invoice1) d1); [reflexivity|].
  symmetry. unfold the_account at 1.
  assert (Hl : lookup_account AccountTypeCurrent (UserID invoice1) d1
               = Some (the_account AccountTypeCurrent (UserID invoice1) d1)).
  { unfold d1, charged. change (UserID invoice1s) with (UserID invoice1).
    match goal with
    | |- lookup_account _ _ (with_account _ _ ?X) = _ =>
        rewrite (the_account_grows AccountTypeCurrent (UserID invoice1) X _
                   (grows_refl _))
    end.
    apply lookup_with_account. }
  assert (Hg2 : grows d1 d2).
  { unfold d2. eapply grows_trans; [apply grows_provisioned|apply grows_reverted]. }
  now rewrite (proj2 (proj2 Hg2) _ _ _ Hl).
Qed.

(** ** The amounts of the entries *)

Lemma inserts_ret {A} P (R : A -> Prop) a : R a -> inserts P R (ret a).
Proof.
  intros Ha w. split.
  - exists []. now split.
  - intros a' w' H. inversion H. now subst.
Qed.

Lemma inserts_panic {A} P (R : A -> Prop) : inserts P R panic.
Proof.
  intros w. split; [|discriminate]. exists []. now split.
Qed.

Lemma inserts_bind {A B} P (R : A -> Prop) (R' : B -> Prop) (m : M A) (k : A -> M B) :
  inserts P R m -> (forall a, R a -> inserts P R' (k a)) -> inserts P R' (bind m k).
Proof.
  intros Hm Hk w. destruct (Hm w) as ((delta & He & HP) & HR). unfold bind.
  destruct (m w) as [a w1|w1] eqn:E.
  - specialize (HR a w1 eq_refl). destruct (Hk a HR w1) as ((delta' & He' & HP') & HR').
    split; [|exact HR'].
    exists (delta' ++ delta)%list. cbn in He. rewrite He', He, app_assoc.
    split; [reflexivity|]. apply Forall_app. now split.
  - split; [|discriminate]. exists delta. now split.
Qed.

Lemma inserts_weaken {A} (P P' : TransactionEntry -> Prop) (R R' : A -> Prop) m :
  (forall e, P e -> P' e) -> (forall a, R a -> R' a) ->
  inserts P R m -> inserts P' R' m.
Proof.
  intros HP HR Hm w. destruct (Hm w) as ((delta & He & Hd) & Hr). split.
  - exists delta. split; [exact He|]. eapply List.Forall_impl; [|exact Hd]. exact HP.
  - intros a w' E. apply HR. now apply (Hr a w').
Qed.

Lemma inserts_keeps {A} P (m : M A) : keeps_db m -> inserts P (fun _ => True) m.
Proof.
  intros Hm w. destruct (Hm w) as (Hd & _). split; [|auto].
  exists []. rewrite Hd. now split.
Qed.

Lemma inserts_statement {A} P (f : DB -> (A + error) * DB) :
  (forall d, transaction_entries (snd (f d)) = transaction_entries d) ->
  inserts P (fun _ => True) (statement f).
Proof.
  intros Hf w. split; [|auto]. exists []. rewrite statement_cases.
  destruct (hd false (faults w)); cbn; [now split|]. now rewrite Hf.
Qed.

Lemma inserts_AccountFor P k user : inserts P (fun _ => True) (AccountFor k user).
Proof.
  apply inserts_statement. intros d. rewrite account_for_eq. apply with_account_entries.
Qed.

Lemma inserts_CurrentUserBalance P user :
  inserts P (fun _ => True) (CurrentUserBalance user).
Proof.
  apply inserts_statement. intros d. unfold current_user_balance.
  rewrite account_for_eq. apply with_account_entries.
Qed.

Lemma inserts_UpdateInvoice P i : inserts P (fun _ => True) (UpdateInvoice i).
Proof.
  intros w. split; [|auto]. exists []. unfold UpdateInvoice, bind, emit.
  rewrite statement_cases. destruct (hd false _); now split.
Qed.

Lemma inserts_SelectInvoice P ty pr st :
  inserts P (fun _ => True) (SelectInvoice ty pr st).
Proof.
  apply inserts_statement. intros d. unfold select_invoice. now destruct (find _ _).
Qed.

Lemma inserts_time_Now P : inserts P (fun _ => True) time_Now.
Proof. intros w. split; [|auto]. exists []. now split. Qed.

Lemma inserts_InsertEntry (P : TransactionEntry -> Prop) e :
  (forall n, P (with_EntryID n e)) -> inserts P (fun _ => True) (InsertEntry e).
Proof.
  intros HP w. split; [|auto]. unfold InsertEntry, bind, emit.
  rewrite statement_cases. destruct (hd false _); [exists []; now split|].
  cbn. unfold insert_entry. destruct (balance_guard _ _); cbn.
  - eexists [_]. split; [reflexivity|]. constructor; [apply HP|constructor].
  - exists []. now split.
Qed.

Ltac inserts_step :=
  match goal with
  | |- inserts _ _ (ret _) => apply inserts_ret
  | |- inserts _ _ panic => apply inserts_panic
  | |- inserts _ _ (bind (AccountFor _ _) _) =>
      eapply inserts_bind; [apply inserts_AccountFor | intros ? _]
  | |- inserts _ _ (bind (CurrentUserBalance _) _) =>
      eapply inserts_bind; [apply inserts_CurrentUserBalance | intros ? _]
  | |- inserts _ _ (bind (UpdateInvoice _) _) =>
      eapply inserts_bind; [apply inserts_UpdateInvoice | intros ? _]
  | |- inserts _ _ (bind (SelectInvoice _ _ _) _) =>
      eapply inserts_bind; [apply inserts_SelectInvoice | intros ? _]
  | |- inserts _ _ (bind time_Now _) =>
      eapply inserts_bind; [apply inserts_time_Now | intros ? _]
  | |- inserts _ _ (bind (InsertEntry _) _) =>
      eapply inserts_bind; [apply inserts_InsertEntry; intros ?; cbn; auto | intros ? _]
  | |- inserts _ _ (match ?x with _ => _ end) => destruct x
  | |- inserts _ _ (let (_, _) := ?x in _) => destruct x
  end.

Lemma inserts_SendInternalPayment invoice :
  inserts (fun e => EntryAmount e = Amount invoice)
          (fun r => snd r = None ->
                    PaymentRoute (fst r)
                    = Some {| TotalAmt := Amount invoice; TotalFees := 0 |}
                    /\ RespTransactionEntry (fst r) = None)
          (SendInternalPayment invoice).
Proof.
  unfold SendInternalPayment.
  repeat inserts_step; cbn; auto; try discriminate.
Qed.

Lemma inserts_HandleFailedPayment invoice entry err :
  inserts (fun e => EntryAmount e = Amount invoice) (fun r => snd r = invoice \/ ID (snd r) = ID invoice)
          (HandleFailedPayment invoice entry err).
Proof.
  unfold HandleFailedPayment.
  repeat inserts_step; cbn; auto; destruct err; cbn; auto.
Qed.

Lemma inserts_HandleSuccessfulPayment invoice entry :
  inserts (fun e => EntryAmount e = Fee invoice) (fun _ => True)
          (HandleSuccessfulPayment invoice entry).
Proof.
  unfold HandleSuccessfulPayment.
  repeat inserts_step; cbn; auto.
Qed.

Lemma SendPaymentSync_success invoice w resp invoice1 w1 :
  SendPaymentSync invoice w = Returned (resp, None, invoice1) w1 ->
  exists req res route,
    LndSendPaymentSync (LndClient svc) req = inl res
    /\ RespPaymentRoute res = Some route
    /\ PaymentRoute resp = Some {| TotalAmt := LnTotalAmt route;
                                   TotalFees := LnTotalFees route |}.
Proof.
  unfold SendPaymentSync, bind at 1.
  destruct (createLnRpcSendRequest invoice w) as [[[req|e] i] w2|]; try discriminate.
  unfold bind, emit.
  destruct (LndSendPaymentSync _ _) as [res|e] eqn:Hres; [|discriminate].
  destruct (negb _ || _); [discriminate|].
  destruct (RespPaymentRoute res) as [route|] eqn:Hrt; [|discriminate].
  intros H. inversion H; subst. exists req, res, route. auto.
Qed.

Lemma inserts_SendPaymentSync P invoice :
  inserts P
    (fun r => same_payment invoice (snd r)
              /\ (snd (fst r) = None ->
                  exists req res route,
                    LndSendPaymentSync (LndClient svc) req = inl res
                    /\ RespPaymentRoute res = Some route
                    /\ PaymentRoute (fst (fst r))
                       = Some {| TotalAmt := LnTotalAmt route;
                                 TotalFees := LnTotalFees route |}))
    (SendPaymentSync invoice).
Proof.
  intros w. split.
  - apply (inserts_keeps P _ (keeps_db_SendPaymentSync invoice) w).
  - intros [[resp err] invoice1] w1 H. cbn. split.
    + eapply SendPaymentSync_same, H.
    + intros ->. eapply SendPaymentSync_success, H.
Qed.

Lemma inserts_mono {A} (P P' : TransactionEntry -> Prop) (R : A -> Prop) m :
  (forall e, P e -> P' e) -> inserts P R m -> inserts P' R m.
Proof. intros HP. now apply inserts_weaken. Qed.

Lemma inserts_PayInvoice invoice :
  inserts (fun e => EntryAmount e = Amount invoice
                    \/ route_fee svc invoice (EntryAmount e))
          (fun _ => True)
          (PayInvoice invoice).
Proof.
  unfold PayInvoice. cbv zeta.
  inserts_step. inserts_step; [|now apply inserts_ret].
  inserts_step. inserts_step; [|now apply inserts_ret].
  inserts_step. inserts_step; [|now apply inserts_ret].
  unfold route_fee.
  destruct (String.eqb (IdentityPubkey svc) (DestinationPubkeyHex invoice)).
  - eapply inserts_bind.
    { eapply inserts_mono; [|apply inserts_SendInternalPayment]. cbn. auto. }
    intros [resp [e|]] HR; cbn in HR.
    + eapply inserts_bind; [|intros; now apply inserts_ret].
      eapply inserts_mono; [|apply inserts_HandleFailedPayment]. cbn. auto.
    + destruct (HR eq_refl) as [-> _].
      eapply inserts_bind; [|intros [? ?] _; now apply inserts_ret].
      eapply inserts_mono; [|apply inserts_HandleSuccessfulPayment]. cbn. auto.
  - eapply inserts_bind; [apply inserts_SendPaymentSync|].
    intros [[resp [e|]] invoice1] [Hsame HR]; cbn in Hsame, HR.
    + eapply inserts_bind; [|intros; now apply inserts_ret].
      eapply inserts_mono; [|apply inserts_HandleFailedPayment].
      cbn. intros x ->. left. now apply same_payment_fields in Hsame.
    + destruct (HR eq_refl) as (req & res & route & Hres & Hrt & ->).
      eapply inserts_bind; [|intros [? ?] _; now apply inserts_ret].
      eapply inserts_mono; [|apply inserts_HandleSuccessfulPayment].
      cbn. intros x ->. right. exists req, res, route. auto.
Qed.

(** C7 (as amended): every entry that [PayInvoice],
    [SendInternalPayment] and [HandleFailedPayment] insert carries the
    amount of the invoice, and the fee entry that
    [HandleSuccessfulPayment] inserts carries the fee stamped on the
    invoice, which is the total fees of the route: zero on the internal
    path, what the node reported otherwise.  The amounts are thus as
    positive as the invoice amount and the fee are, and no more. *)
Theorem entry_amounts invoice :
  inserts (fun e => EntryAmount e = Amount invoice
                    \/ route_fee svc invoice (EntryAmount e))
          (fun _ => True) (PayInvoice invoice)
  /\ inserts (fun e => EntryAmount e = Amount invoice)
             (fun r => snd r = None ->
                       PaymentRoute (fst r)
                       = Some {| TotalAmt := Amount invoice; TotalFees := 0 |}
                       /\ RespTransactionEntry (fst r) = None)
             (SendInternalPayment invoice)
  /\ (forall entry err,
        inserts (fun e => EntryAmount e = Amount invoice)
                (fun r => snd r = invoice \/ ID (snd r) = ID invoice)
                (HandleFailedPayment invoice entry err))
  /\ (forall entry,
        inserts (fun e => EntryAmount e = Fee invoice) (fun _ => True)
                (HandleSuccessfulPayment invoice entry)).
Proof.
  split; [apply inserts_PayInvoice|].
  split; [apply inserts_SendInternalPayment|].
  split; [apply inserts_HandleFailedPayment|apply inserts_HandleSuccessfulPayment].
Qed.

(** ** AddIncomingInvoice *)

(** C8: [AddIncomingInvoice] first sends to the store an invoice in
    state Initialized that expires 24 hours later, and calls the node
    only after, with the row in the table.  When the call to the node
    fails the error is returned and the row stays as inserted.  The
    row carries the payment request, the payment hash, the preimage
    and the add index of the node's answer, and state Open, only when
    the node answered. *)
Theorem AddIncomingInvoice_row userID amount memo descriptionHashStr w :
  exists preimage w0 res err w' later,
    makePreimageHex w = Returned preimage w0
    /\ AddIncomingInvoice userID amount memo descriptionHashStr w = Returned (res, err) w'
    /\ let sent := initialized_invoice userID amount memo descriptionHashStr
                     (hd 0 (clock w)) in
       let row := with_ID (invoice_seq (db w)) sent in
       trace w' = (later ++ SqlInsertInvoice sent :: trace w)%list
       /\ State sent = InvoiceStateInitialized
       /\ ExpiresAt sent = Some (hd 0 (clock w) + 24 * 3600 * 1000000000)
       /\ (forall ln, In (RpcAddInvoice ln) later ->
                      Expiry ln = 86400 /\ RPreimage ln = preimage
                      /\ exists x, In x (invoices (db w')) /\ ID x = ID row)
       /\ (forall ln e, In (RpcAddInvoice ln) later ->
                        LndAddInvoice (LndClient svc) ln = inr e ->
                        res = None /\ err = Some e
                        /\ invoices (db w') = row :: invoices (db w))
       /\ (invoices (db w') = invoices (db w) /\ res = None
           \/ invoices (db w') = row :: invoices (db w) /\ res = None
           \/ exists ln answer,
                In (RpcAddInvoice ln) later
                /\ LndAddInvoice (LndClient svc) ln = inl answer
                /\ res = Some (opened_invoice svc answer preimage row)
                /\ err = None
                /\ invoices (db w')
                   = map (fun x => if ID x =? ID row
                                   then opened_invoice svc answer preimage row else x)
                         (row :: invoices (db w))).
Proof.
  destruct (fill_hex_total 32 w) as (p & w0 & Hp & _ & _ & Hd & Hf & Hc & Ht).
  exists p, w0. unfold AddIncomingInvoice, bind at 1.
  change (makePreimageHex w) with (fill_hex 32 w). rewrite Hp.
  rewrite <- Hd, <- Hc, <- Ht.
  destruct w0 as [d f c r t]. cbn [db clock trace faults] in *.
  unfold bind at 1, time_Now. cbn [clock set_clock db faults rand_src trace].
  fold (initialized_invoice userID amount memo descriptionHashStr (hd 0 c)).
  set (sent := initialized_invoice userID amount memo descriptionHashStr (hd 0 c)).
  unfold bind at 1, InsertInvoice, bind at 1, emit. rewrite statement_cases.
  cbn [faults db set_db set_faults set_trace set_clock trace clock rand_src].
  destruct (hd false f).
  { eexists _, _, _, []. split; [reflexivity|]. split; [reflexivity|]. cbn.
    repeat match goal with |- _ /\ _ => split end; try reflexivity;
      try (intros; contradiction). left. now split. }
  cbn [insert_invoice fst snd].
  destruct (hex.DecodeString descriptionHashStr) as [dh [e|]].
  { eexists _, _, _, []. split; [reflexivity|]. split; [reflexivity|]. cbn.
    repeat match goal with |- _ /\ _ => split end; try reflexivity;
      try (intros; contradiction). right. left. now split. }
  unfold bind at 1, emit. cbn [set_trace set_clock trace db faults clock rand_src].
  set (ln := {| LnMemo := memo; LnDescriptionHash := dh; LnValue := amount;
                RPreimage := p; Expiry := Duration_Seconds (time_Hour * 24) |}).
  destruct (LndAddInvoice (LndClient svc) ln) as [answer|e] eqn:Hln.
  - fold (opened_invoice svc answer p (with_ID (invoice_seq d) sent)).
    unfold bind at 1, UpdateInvoice, bind at 1, emit. rewrite statement_cases.
    cbn [faults db set_db set_faults set_trace set_clock trace clock rand_src].
    destruct (hd false (tl f)).
    + eexists _, _, _, [_; _]. split; [reflexivity|]. split; [reflexivity|]. cbn.
      repeat match goal with |- _ /\ _ => split end; try reflexivity.
      * intros ln' [H|[H|[]]]; [discriminate|]. inversion H; subst ln'.
        repeat split. eexists. split; [now left|reflexivity].
      * intros ln' e [H|[H|[]]]; [discriminate|]. inversion H; subst ln'.
        rewrite Hln. discriminate.
      * right. left. now split.
    + eexists _, _, _, [_; _]. split; [reflexivity|]. split; [reflexivity|].
      cbv zeta. split; [reflexivity|]. split; [reflexivity|]. split; [reflexivity|].
      split; [|split].
      * intros ln' [H|[H|[]]]; [discriminate|]. inversion H; subst ln'.
        split; [reflexivity|]. split; [reflexivity|].
        eexists. split; [left; reflexivity|]. cbn [ID with_ID].
        now rewrite Z.eqb_refl.
      * intros ln' e [H|[H|[]]]; [discriminate|]. inversion H; subst ln'.
        rewrite Hln. discriminate.
      * right. right. exists ln, answer.
        split; [right; now left|]. split; [exact Hln|].
        split; [reflexivity|]. split; reflexivity.
  - eexists _, _, _, [_]. split; [reflexivity|]. split; [reflexivity|]. cbn.
    repeat match goal with |- _ /\ _ => split end; try reflexivity.
    + intros ln' [H|[]]. inversion H; subst ln'.
      repeat split. eexists. split; [now left|reflexivity].
    + intros ln' e' [H|[]]. inversion H; subst ln'. rewrite Hln.
      intros E. inversion E. auto.
    + right. left. now split.
Qed.

(** * More of lib/service/invoices.go *)

(** ** FindInvoiceByPaymentHash *)

Lemma find_Some_In {A} (p : A -> bool) (l : list A) (x : A) :
  find p l = Some x -> In x l /\ p x = true.
Proof. apply find_some. Qed.

Lemma find_None_all {A} (p : A -> bool) (l : list A) :
  find p l = None -> forall x, In x l -> p x = false.
Proof. intros H x Hin. exact (find_none p l H x Hin). Qed.

(** X1: [FindInvoiceByPaymentHash] only reads.  A row it returns is a
    row of the table that belongs to the asking user and carries the
    asked payment hash; when it returns none, either the store failed
    or the user has no row with that hash. *)
Theorem FindInvoiceByPaymentHash_owner (userId : Z) (rHash : string) (w : World) :
  exists res err w',
    FindInvoiceByPaymentHash userId rHash w = Returned (res, err) w'
    /\ db w' = db w /\ trace w' = trace w
    /\ (forall invoice, res = Some invoice ->
          err = None /\ In invoice (invoices (db w))
          /\ UserID invoice = userId /\ RHash invoice = rHash)
    /\ (res = None ->
          err = Some StoreError /\ hd false (faults w) = true
          \/ err = Some NotFound
             /\ forall row, In row (invoices (db w)) ->
                            UserID row = userId -> RHash row <> rHash).
Proof.
  unfold FindInvoiceByPaymentHash, SelectInvoiceByHash, bind.
  rewrite statement_cases. destruct (hd false (faults w)) eqn:Hf.
  - eexists _, _, _. split; [reflexivity|]. cbn. repeat split; try discriminate.
    intros _. now left.
  - unfold select_invoice_by_hash.
    destruct (find _ (invoices (db w))) as [row|] eqn:Hfind; cbn.
    + eexists _, _, _. split; [reflexivity|]. cbn.
      apply find_Some_In in Hfind. destruct Hfind as [Hin Hp].
      apply andb_prop in Hp. destruct Hp as [Hu Hh].
      apply Z.eqb_eq in Hu. apply String.eqb_eq in Hh.
      repeat match goal with |- _ /\ _ => split end; try reflexivity.
      * intros invoice [= <-]. now repeat split.
      * discriminate.
    + eexists _, _, _. split; [reflexivity|]. cbn.
      repeat match goal with |- _ /\ _ => split end; try reflexivity.
      * discriminate.
      * intros _. right. split; [reflexivity|]. intros row Hin Hu Hh.
        pose proof (find_None_all _ _ Hfind row Hin) as Hp. cbn in Hp.
        rewrite Hu, Hh, Z.eqb_refl, String.eqb_refl in Hp. discriminate.
Qed.

(** ** AddOutgoingInvoice *)

(** The row [AddOutgoingInvoice] sends to the store. *)
Lemma AddOutgoingInvoice_cases userID paymentRequest lnPayReq w :
  AddOutgoingInvoice userID paymentRequest lnPayReq w
  = let sent := outgoing_invoice userID paymentRequest lnPayReq in
    let w1 := set_faults (tl (faults w)) (set_trace (SqlInsertInvoice sent :: trace w) w) in
    if hd false (faults w)
    then Returned (None, Some StoreError) w1
    else Returned (Some (with_ID (invoice_seq (db w)) sent), None)
           (set_db (set_invoices (with_ID (invoice_seq (db w)) sent :: invoices (db w))
                      (invoice_seq (db w) + 1) (db w)) w1).
Proof.
  unfold AddOutgoingInvoice, outgoing_invoice, InsertInvoice, bind, emit.
  rewrite statement_cases. cbn [faults trace db set_trace].
  destruct (hd false (faults w)); reflexivity.
Qed.


(** X3: an invoice recorded by [AddOutgoingInvoice] is found again by
    its user under its payment hash, provided the user had no row with
    that hash before ([Limit(1)] has no order: of several matching rows
    any may come back).  For every other user, and every hash, the
    lookup finds what it found before. *)
Theorem AddOutgoingInvoice_found userID paymentRequest lnPayReq w :
  hd false (faults w) = false ->
  hd false (tl (faults w)) = false ->
  (forall row, In row (invoices (db w)) -> UserID row = userID ->
               RHash row <> PayReqPaymentHash (LNPayReq_PayReq lnPayReq)) ->
  exists row w1 w2,
    AddOutgoingInvoice userID paymentRequest lnPayReq w = Returned (Some row, None) w1
    /\ FindInvoiceByPaymentHash userID (PayReqPaymentHash (LNPayReq_PayReq lnPayReq)) w1
       = Returned (Some row, None) w2
    /\ db w2 = db w1
    /\ (forall r, In r (invoices (db w1)) -> UserID r = userID ->
                  RHash r = PayReqPaymentHash (LNPayReq_PayReq lnPayReq) -> r = row)
    /\ forall other rHash,
         other <> userID ->
         fst (select_invoice_by_hash other rHash (db w1))
         = fst (select_invoice_by_hash other rHash (db w)).
Proof.
  intros Hf1 Hf2 Hnew.
  rewrite AddOutgoingInvoice_cases. cbv zeta. rewrite Hf1.
  eexists _, _, _. split; [reflexivity|].
  unfold FindInvoiceByPaymentHash, SelectInvoiceByHash, bind.
  rewrite statement_cases. cbn [faults set_db set_faults set_trace db].
  rewrite Hf2. unfold select_invoice_by_hash at 1 2.
  cbn [invoices set_invoices find UserID RHash with_ID outgoing_invoice].
  rewrite Z.eqb_refl, String.eqb_refl. cbn [andb fst snd].
  split; [reflexivity|]. split; [reflexivity|]. split.
  { intros r [<-|Hin] Hu Hh; [reflexivity|]. now destruct (Hnew r Hin Hu). }
  intros other rHash Hother. unfold select_invoice_by_hash.
  cbn [invoices set_invoices find UserID RHash with_ID outgoing_invoice].
  destruct (Z.eqb_spec userID other) as [->|_]; [contradiction|].
  cbn [andb]. now destruct (find _ (invoices (db w))).
Qed.

(** ** makePreimageHex *)

Lemma skipn_tl {A} (n : nat) (l : list A) : skipn n (tl l) = skipn (S n) l.
Proof. destruct l; [apply skipn_nil|reflexivity]. Qed.

Lemma fill_hex_draws (n : nat) (w : World) :
  fill_hex n w
  = Returned (map hex_pick (draws n (rand_src w)))
             (set_rand_src (skipn n (rand_src w)) w).
Proof.
  revert w. induction n as [|n IH]; intros w.
  - destruct w; reflexivity.
  - cbn [fill_hex]. unfold bind at 1, rand_Intn.
    change (String.length hexBytes) with 16%nat.
    assert (Hk : (hd 0%nat (rand_src w) mod 16 < 16)%nat)
      by (apply Nat.mod_upper_bound; discriminate).
    destruct (nth_error (list_byte_of_string hexBytes) (hd 0%nat (rand_src w) mod 16))
      as [c|] eqn:Hc.
    + unfold bind at 1. rewrite IH. unfold ret. cbn [rand_src set_rand_src draws map].
      rewrite skipn_tl. f_equal; try (destruct w; reflexivity).
      f_equal. unfold hex_pick. symmetry. now apply nth_error_nth.
    + apply nth_error_None in Hc. change (length (list_byte_of_string hexBytes)) with 16%nat in Hc.
      lia.
Qed.

Lemma draws_all (r : list nat) : draws (length r) r = r.
Proof. induction r as [|k r IH]; [reflexivity|]. cbn. now rewrite IH. Qed.

Lemma hex_pick_value (c : byte) :
  In c hex_alphabet -> hex_pick (N.to_nat (hex_value c)) = c.
Proof.
  intros Hin. cbv [hex_alphabet hexBytes list_byte_of_string] in Hin. cbn in Hin.
  repeat (destruct Hin as [<-|Hin]; [vm_compute; reflexivity|]). contradiction.
Qed.

(** X4: the preimage [makePreimageHex] returns is a function of the
    next 32 readings of the random source, which it consumes: its i-th
    byte is the character of hexBytes at the i-th reading modulo 16.
    It touches nothing else, and every string of 32 hex characters is
    the preimage of some readings. *)
Theorem makePreimageHex_draws :
  (forall w,
     makePreimageHex w
     = Returned (map hex_pick (draws 32 (rand_src w)))
                (set_rand_src (skipn 32 (rand_src w)) w))
  /\ (forall p,
        length p = 32%nat -> Forall (fun b => In b hex_alphabet) p ->
        exists r, forall w, rand_src w = r ->
          makePreimageHex w = Returned p (set_rand_src [] w)).
Proof.
  split; [intros w; apply fill_hex_draws|].
  intros p Hlen Hp. exists (map (fun b => N.to_nat (hex_value b)) p).
  intros w Hr. unfold makePreimageHex. rewrite fill_hex_draws, Hr.
  replace 32%nat with (length (map (fun b => N.to_nat (hex_value b)) p))
    by now rewrite length_map.
  rewrite draws_all, skipn_all, map_map. f_equal.
  rewrite <- (map_id p) at 2. apply map_ext_in. intros b Hb.
  apply hex_pick_value. rewrite List.Forall_forall in Hp. now apply Hp.
Qed.

(** ** createLnRpcSendRequest *)

Lemma createLnRpcSendRequest_keysend invoice w :
  Keysend invoice = true ->
  createLnRpcSendRequest invoice w
  = let preImage := map hex_pick (draws 32 (rand_src w)) in
    let w1 := set_rand_src (skipn 32 (rand_src w)) w in
    match hex.DecodeString (DestinationPubkeyHex invoice) with
    | (_, Some err) => Returned (inr err, invoice) w1
    | (destBytes, None) =>
        match DestinationCustomRecords invoice with
        | None => Panicked w1
        | Some records =>
            Returned
              (inl {| Dest := destBytes; Amt := Amount invoice;
                      ReqPaymentHash := sha256 preImage; ReqPaymentRequest := "";
                      ReqFeeLimit := Some (FeeLimit_Fixed 300);
                      DestFeatures := [FeatureBit_TLV_ONION_REQ];
                      DestCustomRecords :=
                        Some (<[KEYSEND_CUSTOM_RECORD := preImage]> records) |},
               with_DestinationCustomRecords
                 (Some (<[KEYSEND_CUSTOM_RECORD := preImage]> records)) invoice) w1
        end
    end.
Proof.
  intros Hk. unfold createLnRpcSendRequest. rewrite Hk. cbn [negb].
  unfold bind, makePreimageHex. rewrite fill_hex_draws. cbv zeta.
  destruct (hex.DecodeString (DestinationPubkeyHex invoice)) as [destBytes [err|]];
    [reflexivity|].
  destruct (DestinationCustomRecords invoice); reflexivity.
Qed.

(** X5: the request [createLnRpcSendRequest] builds always carries the
    amount of the invoice and the fixed fee limit of 300.  For an
    ordinary invoice it carries the payment request and nothing else,
    and neither the invoice nor the world changes.  For a keysend
    invoice it carries the decoded destination, the TLV feature bit and
    the invoice's custom records, which it shares with the invoice:
    every record the caller supplied under another key is still there,
    and the 32 readings of the preimage are consumed. *)
Theorem createLnRpcSendRequest_request invoice w :
  (Keysend invoice = false ->
   createLnRpcSendRequest invoice w
   = Returned (inl {| Dest := []; Amt := Amount invoice; ReqPaymentHash := [];
                      ReqPaymentRequest := PaymentRequest invoice;
                      ReqFeeLimit := Some (FeeLimit_Fixed 300); DestFeatures := [];
                      DestCustomRecords := None |}, invoice) w)
  /\
  (forall destBytes records,
     Keysend invoice = true ->
     hex.DecodeString (DestinationPubkeyHex invoice) = (destBytes, None) ->
     DestinationCustomRecords invoice = Some records ->
     exists req invoice' sent,
       createLnRpcSendRequest invoice w
       = Returned (inl req, invoice') (set_rand_src (skipn 32 (rand_src w)) w)
       /\ Amt req = Amount invoice
       /\ ReqFeeLimit req = Some (FeeLimit_Fixed 300)
       /\ Dest req = destBytes
       /\ ReqPaymentRequest req = ""
       /\ DestFeatures req = [FeatureBit_TLV_ONION_REQ]
       /\ DestCustomRecords req = Some sent
       /\ DestinationCustomRecords invoice' = Some sent
       /\ invoice' = with_DestinationCustomRecords (Some sent) invoice
       /\ (forall k, k <> KEYSEND_CUSTOM_RECORD -> sent !! k = records !! k)
       /\ sent !! KEYSEND_CUSTOM_RECORD = Some (map hex_pick (draws 32 (rand_src w)))).
Proof.
  split.
  - intros Hk. unfold createLnRpcSendRequest. now rewrite Hk.
  - intros destBytes records Hk Hdec Hrec.
    rewrite (createLnRpcSendRequest_keysend _ _ Hk), Hdec, Hrec. cbv zeta.
    eexists _, _, _. split; [reflexivity|]. cbn.
    repeat match goal with |- _ /\ _ => split end; try reflexivity.
    + intros k Hne. now apply lookup_insert_ne.
    + apply lookup_insert_eq.
Qed.

(** ** SendPaymentSync: when no answer comes *)

Lemma SendPaymentSync_bad_destination invoice w x e :
  Keysend invoice = true ->
  hex.DecodeString (DestinationPubkeyHex invoice) = (x, Some e) ->
  SendPaymentSync invoice w
  = Returned (SendPaymentResponse_zero, Some e, invoice)
             (set_rand_src (skipn 32 (rand_src w)) w).
Proof.
  intros Hk Hdec. unfold SendPaymentSync, bind.
  now rewrite (createLnRpcSendRequest_keysend _ _ Hk), Hdec.
Qed.

Lemma SendPaymentSync_nil_records invoice w x :
  Keysend invoice = true ->
  hex.DecodeString (DestinationPubkeyHex invoice) = (x, None) ->
  DestinationCustomRecords invoice = None ->
  SendPaymentSync invoice w = Panicked (set_rand_src (skipn 32 (rand_src w)) w).
Proof.
  intros Hk Hdec Hrec. unfold SendPaymentSync, bind.
  now rewrite (createLnRpcSendRequest_keysend _ _ Hk), Hdec, Hrec.
Qed.

(** X6: when the destination of a keysend invoice is not valid hex,
    [SendPaymentSync] returns the decoding error with an empty response
    and the invoice as it was, and the node is not called.  When the
    destination is valid and the invoice's custom records are a nil
    map, the write to the map panics, again before any call to the
    node.  The store is untouched in both cases. *)
Theorem SendPaymentSync_request_not_built invoice w :
  Keysend invoice = true ->
  (forall x e,
     hex.DecodeString (DestinationPubkeyHex invoice) = (x, Some e) ->
     exists w',
       SendPaymentSync invoice w
       = Returned (SendPaymentResponse_zero, Some e, invoice) w'
       /\ trace w' = trace w /\ db w' = db w)
  /\
  (forall x,
     hex.DecodeString (DestinationPubkeyHex invoice) = (x, None) ->
     DestinationCustomRecords invoice = None ->
     exists w',
       SendPaymentSync invoice w = Panicked w'
       /\ trace w' = trace w /\ db w' = db w).
Proof.
  intros Hk. split.
  - intros x e Hdec. rewrite (SendPaymentSync_bad_destination _ _ _ _ Hk Hdec).
    eexists. split; [reflexivity|]. now split.
  - intros x Hdec Hrec. rewrite (SendPaymentSync_nil_records _ _ _ Hk Hdec Hrec).
    eexists. split; [reflexivity|]. now split.
Qed.

(** X7: a keysend invoice whose custom records are a nil map, as
    [AddOutgoingInvoice] leaves them, makes [PayInvoice] panic once the
    payer has been debited: the provisional entry is in the ledger, no
    reversal follows, the invoice row is as it was and the node was not
    called. *)
Theorem PayInvoice_nil_records invoice w x :
  faults w = [] ->
  accounts_ok (db w) ->
  Amount invoice <= current_balance (UserID invoice) (db w) ->
  IdentityPubkey svc <> DestinationPubkeyHex invoice ->
  Keysend invoice = true ->
  hex.DecodeString (DestinationPubkeyHex invoice) = (x, None) ->
  DestinationCustomRecords invoice = None ->
  exists w',
    PayInvoice invoice w = Panicked w'
    /\ transaction_entries (db w')
       = principal invoice (db w) :: transaction_entries (db w)
    /\ EntryAmount (principal invoice (db w)) = Amount invoice
    /\ account_balance
         (AccountID (the_account AccountTypeCurrent (UserID invoice) (db w)))
         (transaction_entries (db w'))
       = current_balance (UserID invoice) (db w) - Amount invoice
    /\ invoices (db w') = invoices (db w)
    /\ rpc_calls (trace w') = rpc_calls (trace w).
Proof.
  intros Hf Hok Hbal Hkey Hk Hdec Hrec.
  rewrite (no_faults_world w Hf).
  rewrite (PayInvoice_accepted _ _ _ _ _ Hok Hbal).
  apply String.eqb_neq in Hkey. rewrite Hkey.
  unfold bind at 1. rewrite (SendPaymentSync_nil_records _ _ _ Hk Hdec Hrec).
  eexists. split; [reflexivity|]. cbn [db trace set_rand_src world].
  split; [apply provisioned_entries|].
  split; [reflexivity|].
  split; [now apply balance_provisioned|].
  split; [apply provisioned_invoices|reflexivity].
Qed.

(** X8: [SendPaymentSync] never writes to the store and calls the node
    at most once.  Whenever it returns an error the response is empty:
    no preimage, hash or route comes with it.  An error of the
    transport is returned as it is, after the one call. *)
Theorem SendPaymentSync_failure invoice w :
  db (world_of (SendPaymentSync invoice w)) = db w
  /\ (trace (world_of (SendPaymentSync invoice w)) = trace w
      \/ exists req, trace (world_of (SendPaymentSync invoice w))
                     = RpcSendPaymentSync req :: trace w)
  /\ (forall resp e invoice' w',
        SendPaymentSync invoice w = Returned (resp, Some e, invoice') w' ->
        resp = SendPaymentResponse_zero)
  /\ (forall req invoice1 w1 e,
        createLnRpcSendRequest invoice w = Returned (inl req, invoice1) w1 ->
        LndSendPaymentSync (LndClient svc) req = inr e ->
        SendPaymentSync invoice w
        = Returned (SendPaymentResponse_zero, Some e, invoice1)
                   (set_trace (RpcSendPaymentSync req :: trace w1) w1)).
Proof.
  split; [apply keeps_db_SendPaymentSync|].
  pose proof (createLnRpcSendRequest_trace invoice w) as Ht.
  unfold SendPaymentSync, bind.
  destruct (createLnRpcSendRequest invoice w) as [[[req|e0] invoice1] w1|w1];
    cbn [world_of] in Ht.
  - unfold emit. cbn [trace].
    destruct (LndSendPaymentSync (LndClient svc) req) as [res|e1] eqn:Hres.
    + destruct (negb (RespPaymentError res =? "")%string
                || is_nil (RespPaymentPreimage res)).
      * cbn. split; [right; exists req; now rewrite Ht|].
        split; [now intros resp e invoice' w' [= <- _ _ _]|].
        intros req' invoice1' w1' e [= <- <- <-] He. rewrite Hres in He. discriminate.
      * destruct (RespPaymentRoute res); cbn.
        -- split; [right; exists req; now rewrite Ht|]. split; [discriminate|].
           intros req' invoice1' w1' e [= <- <- <-] He. rewrite Hres in He. discriminate.
        -- split; [right; exists req; now rewrite Ht|]. split; [discriminate|].
           intros req' invoice1' w1' e [= <- <- <-] He. rewrite Hres in He. discriminate.
    + cbn. split; [right; exists req; now rewrite Ht|].
      split; [now intros resp e invoice' w' [= <- _ _ _]|].
      intros req' invoice1' w1' e [= <- <- <-] He. rewrite Hres in He.
      now injection He as <-.
  - cbn. split; [now left|]. split; [now intros resp e invoice' w' [= <- _ _ _]|].
    discriminate.
  - cbn. split; [now left|]. split; discriminate.
Qed.

(** ** SendInternalPayment: failures *)

Ltac store_step :=
  rewrite statement_cases;
  cbn [faults db set_db set_faults set_trace set_clock trace clock rand_src];
  match goal with
  | |- context [if hd false ?f then _ else _] => destruct (hd false f)
  end.


(** ** HandleFailedPayment and HandleSuccessfulPayment: when the store fails *)

(** X10: [HandleFailedPayment] marks the invoice as failed only once
    the reversing entry is in the ledger.  When that entry is refused
    or the store fails on it, the error is returned, the invoice is
    handed back as it came and no update is sent.  When the entry is in
    and the update fails, the caller's invoice is marked, with the
    message of the payment's error, and the row of the store is not. *)
Theorem HandleFailedPayment_outcomes invoice entry failure w :
  let marked := match failure with
                | Some e => failed invoice e
                | None => with_State InvoiceStateError invoice
                end in
  exists err invoice' w',
    HandleFailedPayment invoice entry failure w = Returned (err, invoice') w'
    /\ (err <> None /\ invoice' = invoice /\ db w' = db w
        /\ trace w' = SqlInsertEntry (reversal invoice entry) :: trace w
        \/ invoice' = marked
           /\ trace w' = SqlUpdateInvoice marked
                         :: SqlInsertEntry (reversal invoice entry) :: trace w
           /\ transaction_entries (db w')
              = with_EntryID (entry_seq (db w)) (reversal invoice entry)
                :: transaction_entries (db w)
           /\ (err = None
               /\ invoices (db w')
                  = map (fun x => if ID x =? ID marked then marked else x)
                        (invoices (db w))
               \/ err = Some StoreError /\ invoices (db w') = invoices (db w))).
Proof.
  intros marked. unfold HandleFailedPayment, InsertEntry, UpdateInvoice.
  fold (reversal invoice entry).
  unfold bind at 1. unfold bind at 1. unfold emit at 1. store_step.
  { eexists _, _, _. split; [reflexivity|]. left. cbn. now repeat split. }
  unfold insert_entry.
  destruct (balance_guard (db w) (reversal invoice entry)); cbn [fst snd].
  2:{ eexists _, _, _. split; [reflexivity|]. left. cbn. now repeat split. }
  assert (Hm : match failure with
               | Some e => with_ErrorMessage (Error e)
                             (with_State InvoiceStateError invoice)
               | None => with_State InvoiceStateError invoice
               end = marked) by (subst marked; now destruct failure).
  rewrite Hm. unfold bind at 1. unfold bind at 1. unfold emit at 1. store_step.
  - eexists _, _, _. split; [reflexivity|]. right. cbn.
    split; [reflexivity|]. split; [reflexivity|]. split; [reflexivity|]. now right.
  - eexists _, _, _. split; [reflexivity|]. right. cbn.
    split; [reflexivity|]. split; [reflexivity|]. split; [reflexivity|]. now left.
Qed.

(** X11: [HandleSuccessfulPayment] overwrites the error of its first
    update.  When the store fails on that update alone and accepts the
    fee entry, the function returns no error and hands back the invoice
    as Settled, the fee entry is in the ledger, and the row of the
    invoice in the store is as it was. *)
Theorem HandleSuccessfulPayment_update_lost invoice parent w :
  let now := hd 0 (clock w) in
  let fee := fee_entry invoice parent (db w) in
  faults w = [true] ->
  balance_guard (with_account AccountTypeFees (UserID invoice) (db w)) fee = true ->
  exists w',
    HandleSuccessfulPayment invoice parent w = Returned (None, settled invoice now) w'
    /\ State (settled invoice now) = InvoiceStateSettled
    /\ invoices (db w') = invoices (db w)
    /\ transaction_entries (db w')
       = with_EntryID (entry_seq (db w)) fee :: transaction_entries (db w)
    /\ trace w' = SqlInsertEntry fee :: SqlUpdateInvoice (settled invoice now) :: trace w.
Proof.
  intros now fee Hf Hg. destruct w as [d f c r t]. cbn [faults db clock trace] in *.
  subst f. unfold HandleSuccessfulPayment.
  unfold bind at 1, time_Now. cbn [clock set_clock db faults rand_src trace].
  fold now. fold (settled invoice now).
  unfold bind at 1, UpdateInvoice. unfold bind at 1, emit at 1.
  rewrite statement_cases.
  cbn [faults db set_db set_faults set_trace set_clock trace clock rand_src hd tl].
  match goal with
  | |- context [set_faults [] ?x] =>
      change (set_faults [] x)
        with (world d (tl c) r (SqlUpdateInvoice (settled invoice now) :: t))
  end.
  rewrite (bind_run _ _ _ _ _ (AccountFor_world _ _ _ _ _ _)).
  change (UserID (settled invoice now)) with (UserID invoice).
  change (ID (settled invoice now)) with (ID invoice).
  change (Fee (settled invoice now)) with (Fee invoice).
  fold (fee_entry invoice parent d). fold fee.
  rewrite (bind_run _ _ _ _ _ (InsertEntry_world _ _ _ _ _)).
  rewrite insert_entry_accepted by exact Hg. cbn [fst snd].
  rewrite (bind_run _ _ _ _ _ (CurrentUserBalance_world _ _ _ _ _)).
  eexists. split; [reflexivity|]. cbn [db trace world].
  split; [reflexivity|].
  split.
  { rewrite with_account_invoices. unfold post_entry. cbn [invoices set_transaction_entries].
    apply with_account_invoices. }
  split; [|reflexivity].
  rewrite with_account_entries. unfold post_entry.
  cbn [transaction_entries set_transaction_entries].
  now rewrite with_account_entry_seq, with_account_entries.
Qed.

(** ** PayInvoice: when the store fails *)





Lemma statement_runs {A} (f : DB -> (A + error) * DB) w :
  hd false (faults w) = false ->
  statement f w
  = Returned (fst (f (db w))) (set_db (snd (f (db w))) (set_faults (tl (faults w)) w)).
Proof. intros H. now rewrite statement_cases, H. Qed.

Lemma statement_fails {A} (f : DB -> (A + error) * DB) w :
  hd false (faults w) = true ->
  statement f w = Returned (inr StoreError) (set_faults (tl (faults w)) w).
Proof. intros H. now rewrite statement_cases, H. Qed.

Lemma inserts_reconcile entry routed :
  inserts (fun _ => True) (fun _ => True) (reconcile entry routed).
Proof.
  unfold reconcile. destruct routed as [[resp [e|]] invoice1].
  - eapply inserts_bind; [|intros; now apply inserts_ret].
    eapply inserts_weaken; [| |apply inserts_HandleFailedPayment]; intros; exact I.
  - destruct (PaymentRoute resp); [|apply inserts_panic].
    eapply inserts_bind; [|intros [? ?] _; now apply inserts_ret].
    eapply inserts_weaken; [| |apply inserts_HandleSuccessfulPayment]; intros; exact I.
Qed.

Lemma inserts_routed invoice entry :
  inserts (fun _ => True) (fun _ => True)
    (if String.eqb (IdentityPubkey svc) (DestinationPubkeyHex invoice)
     then bind (SendInternalPayment invoice) (fun r => reconcile entry (r, invoice))
     else bind (SendPaymentSync invoice) (reconcile entry)).
Proof.
  destruct (String.eqb _ _).
  - eapply inserts_bind; [|intros; apply inserts_reconcile].
    eapply inserts_weaken; [| |apply inserts_SendInternalPayment]; intros; exact I.
  - eapply inserts_bind; [|intros; apply inserts_reconcile].
    eapply inserts_weaken; [| |apply (inserts_SendPaymentSync (fun _ => True))];
      intros; exact I.
Qed.

(** X13: in every execution of [PayInvoice], whatever the store and the
    node do, the node is called only once the provisional entry that
    debits the payer is in the ledger, and the entry is still there
    when [PayInvoice] ends. *)
Theorem PayInvoice_debit_first invoice w :
  let w' := world_of (PayInvoice invoice w) in
  rpc_calls (trace w') = rpc_calls (trace w)
  \/ exists later,
       transaction_entries (db w')
       = (later ++ principal invoice (db w) :: transaction_entries (db w))%list.
Proof.
  cbv zeta.
  destruct (hd false (faults w)) eqn:F1.
  { left. unfold PayInvoice, bind at 1, AccountFor.
    now rewrite (statement_fails _ _ F1). }
  pose proof (statement_runs (account_for AccountTypeCurrent (UserID invoice)) w F1) as H1.
  rewrite account_for_eq in H1. cbn [fst snd] in H1.
  set (w1 := set_db _ _) in H1.
  destruct (hd false (faults w1)) eqn:F2.
  { left. unfold PayInvoice. unfold AccountFor at 1.
    rewrite (bind_run _ _ _ _ _ H1). cbv beta iota.
    unfold bind at 1, AccountFor. now rewrite (statement_fails _ _ F2). }
  pose proof (statement_runs (account_for AccountTypeOutgoing (UserID invoice)) w1 F2)
    as H2.
  rewrite account_for_eq in H2. cbn [fst snd] in H2.
  set (w2 := set_db _ _) in H2.
  assert (Hd2 : db w2 = reserved invoice (db w)) by reflexivity.
  assert (Ht2 : trace w2 = trace w) by reflexivity.
  set (entry := {| EntryID := 0; EntryUserID := UserID invoice; InvoiceID := ID invoice;
                   ParentID := 0;
                   CreditAccountID :=
                     AccountID (the_account AccountTypeOutgoing (UserID invoice) (db w1));
                   DebitAccountID :=
                     AccountID (the_account AccountTypeCurrent (UserID invoice) (db w));
                   EntryAmount := Amount invoice |}).
  assert (He : entry = principal_entry invoice (db w)) by reflexivity.
  set (w2' := set_trace (SqlInsertEntry entry :: trace w2) w2).
  assert (Hi : InsertEntry entry w2 = statement (insert_entry entry) w2') by reflexivity.
  destruct (hd false (faults w2')) eqn:F3.
  { left. unfold PayInvoice. unfold AccountFor at 1.
    rewrite (bind_run _ _ _ _ _ H1). cbv beta iota. unfold AccountFor at 1.
    rewrite (bind_run _ _ _ _ _ H2). cbv beta iota. fold entry.
    unfold bind at 1. rewrite Hi, (statement_fails _ _ F3). reflexivity. }
  pose proof (statement_runs (insert_entry entry) w2' F3) as H3.
  rewrite <- Hi in H3. unfold insert_entry in H3.
  destruct (balance_guard (db w2') entry) eqn:Hg; cbn [fst snd] in H3.
  2:{ left. unfold PayInvoice. unfold AccountFor at 1.
      rewrite (bind_run _ _ _ _ _ H1). cbv beta iota. unfold AccountFor at 1.
      rewrite (bind_run _ _ _ _ _ H2). cbv beta iota. fold entry.
      rewrite (bind_run _ _ _ _ _ H3). reflexivity. }
  right. set (w3 := set_db _ _) in H3.
  unfold AccountFor in H1, H2.
  rewrite (PayInvoice_routes invoice w _ w1 _ w2 _ w3 H1 H2 H3).
  destruct (inserts_routed invoice (with_EntryID (entry_seq (db w2')) entry) w3)
    as [(later & Hl & _) _].
  exists later.
  assert (H : transaction_entries (db w3)
              = principal invoice (db w) :: transaction_entries (db w)).
  { subst w3. cbn [db set_db transaction_entries set_transaction_entries].
    change (db w2') with (db w2). rewrite Hd2, He.
    unfold principal, reserved.
    now rewrite !with_account_entry_seq, !with_account_entries. }
  rewrite <- H. now destruct (String.eqb _ _).
Qed.

(** ** AddIncomingInvoice *)

(** The run of [AddIncomingInvoice] up to the decoding of the
    description hash, when the store takes the row. *)
Lemma AddIncomingInvoice_inserted userID amount memo descriptionHashStr w :
  hd false (faults w) = false ->
  let preimage := map hex_pick (draws 32 (rand_src w)) in
  let sent := initialized_invoice userID amount memo descriptionHashStr
                (hd 0 (clock w)) in
  let row := with_ID (invoice_seq (db w)) sent in
  let w1 := {| db := set_invoices (row :: invoices (db w)) (invoice_seq (db w) + 1) (db w);
               faults := tl (faults w); clock := tl (clock w);
               rand_src := skipn 32 (rand_src w);
               trace := SqlInsertInvoice sent :: trace w |} in
  AddIncomingInvoice userID amount memo descriptionHashStr w
  = match hex.DecodeString descriptionHashStr with
    | (_, Some err) => Returned (None, Some err) w1
    | (descriptionHash, None) =>
        let lnInvoice :=
          {| LnMemo := memo; LnDescriptionHash := descriptionHash; LnValue := amount;
             RPreimage := preimage; Expiry := 86400 |} in
        let w2 := set_trace (RpcAddInvoice lnInvoice :: trace w1) w1 in
        match LndAddInvoice (LndClient svc) lnInvoice with
        | inr err => Returned (None, Some err) w2
        | inl answer =>
            bind (UpdateInvoice (opened_invoice svc answer preimage row))
                 (fun r => match r with
                           | inr err => ret (None, Some err)
                           | inl _ => ret (Some (opened_invoice svc answer preimage row), None)
                           end) w2
        end
    end.
Proof.
  destruct w as [d f c r t].
  intros Hf preimage sent row w1. cbn [faults db clock rand_src trace] in *.
  unfold AddIncomingInvoice. unfold bind at 1, makePreimageHex. rewrite fill_hex_draws.
  cbn [rand_src]. fold preimage. unfold bind at 1, time_Now, set_rand_src, set_clock.
  cbn [clock db faults rand_src trace].
  fold (initialized_invoice userID amount memo descriptionHashStr (hd 0 c)).
  fold sent. unfold bind at 1, InsertInvoice. unfold bind at 1, emit at 1, set_trace.
  cbn [clock db faults rand_src trace].
  rewrite statement_cases. cbn [faults db]. rewrite Hf.
  unfold insert_invoice, set_db, set_faults. cbn [fst snd faults db clock rand_src trace].
  fold row. fold w1.
  destruct (hex.DecodeString descriptionHashStr) as [descriptionHash [err|]];
    [reflexivity|].
  change (Duration_Seconds (time_Hour * 24)) with 86400.
  unfold bind at 1, emit at 1.
  destruct (LndAddInvoice (LndClient svc) _) as [answer|err]; reflexivity.
Qed.

(** X14: the description hash is decoded after the row is inserted.
    When it is not valid hex, [AddIncomingInvoice] returns the decoding
    error, the Initialized row stays in the table, and the node is not
    called. *)
Theorem AddIncomingInvoice_bad_hash userID amount memo descriptionHashStr w x e :
  hd false (faults w) = false ->
  hex.DecodeString descriptionHashStr = (x, Some e) ->
  exists w',
    AddIncomingInvoice userID amount memo descriptionHashStr w
    = Returned (None, Some e) w'
    /\ invoices (db w')
       = with_ID (invoice_seq (db w))
           (initialized_invoice userID amount memo descriptionHashStr (hd 0 (clock w)))
         :: invoices (db w)
    /\ trace w'
       = SqlInsertInvoice
           (initialized_invoice userID amount memo descriptionHashStr (hd 0 (clock w)))
         :: trace w
    /\ transaction_entries (db w') = transaction_entries (db w).
Proof.
  intros Hf Hdec. rewrite (AddIncomingInvoice_inserted _ _ _ _ _ Hf). cbv zeta.
  rewrite Hdec. eexists. split; [reflexivity|]. now repeat split.
Qed.



(** ** The invoices of others *)

Lemma update_ids i (l : list Invoice) :
  map ID (map (fun r => if ID r =? ID i then i else r) l) = map ID l.
Proof.
  rewrite map_map. apply map_ext. intros r.
  destruct (Z.eqb_spec (ID r) (ID i)); congruence.
Qed.

Lemma update_spares i (l : list Invoice) row :
  In row l -> ID row <> ID i ->
  In row (map (fun r => if ID r =? ID i then i else r) l).
Proof.
  intros Hin Hne. apply in_map_iff. exists row. split; [|exact Hin].
  apply Z.eqb_neq in Hne. now rewrite Hne.
Qed.

Lemma spares_same {A} invoice (m : M A) :
  (forall w, invoices (db (world_of (m w))) = invoices (db w)) -> spares invoice m.
Proof. intros H w _. rewrite H. split; auto. Qed.

Lemma spares_ret {A} invoice (a : A) : spares invoice (ret a).
Proof. now apply spares_same. Qed.

Lemma spares_panic {A} invoice : spares invoice (@panic A).
Proof. now apply spares_same. Qed.

Lemma spares_keeps {A} invoice (m : M A) : keeps_db m -> spares invoice m.
Proof. intros H. apply spares_same. intros w. now destruct (H w) as [-> _]. Qed.

Lemma spares_statement {A} invoice (f : DB -> (A + error) * DB) :
  (forall d, invoices (snd (f d)) = invoices d) -> spares invoice (statement f).
Proof.
  intros H. apply spares_same. intros w. rewrite statement_cases.
  destruct (hd false (faults w)); cbn; [reflexivity|apply H].
Qed.

Lemma spares_bind {A B} invoice (R : A -> Prop) (m : M A) (k : A -> M B) :
  spares invoice m ->
  (forall w a w', m w = Returned a w' -> R a) ->
  (forall a, R a -> spares invoice (k a)) ->
  spares invoice (bind m k).
Proof.
  intros Hm HR Hk w Hok. specialize (Hm w Hok). unfold bind.
  destruct (m w) as [a w1|w1] eqn:Hrun; cbn [world_of] in Hm; [|exact Hm].
  destruct Hm as [Hids Hrows].
  assert (Hok1 : invoices_ok (db w1)) by (unfold invoices_ok; now rewrite Hids).
  destruct (Hk a (HR _ _ _ Hrun) w1 Hok1) as [Hids1 Hrows1].
  split; [now rewrite Hids1|]. auto.
Qed.

Lemma spares_seq {A B} invoice (m : M A) (k : A -> M B) :
  spares invoice m -> (forall a, spares invoice (k a)) -> spares invoice (bind m k).
Proof.
  intros Hm Hk. apply (spares_bind invoice (fun _ => True)); auto.
Qed.

Lemma spares_UpdateInvoice invoice i :
  ID i = ID invoice -> spares invoice (UpdateInvoice i).
Proof.
  intros Hid w _. unfold UpdateInvoice, bind, emit. rewrite statement_cases.
  cbn [faults set_trace db]. destruct (hd false (faults w)); cbn.
  - split; auto.
  - split; [apply update_ids|]. intros row Hin Hne _.
    apply update_spares; [exact Hin|congruence].
Qed.

Lemma spares_InsertEntry invoice e : spares invoice (InsertEntry e).
Proof.
  apply spares_same. intros w. unfold InsertEntry, bind, emit.
  rewrite statement_cases. cbn [faults set_trace db].
  destruct (hd false (faults w)); cbn; [reflexivity|].
  unfold insert_entry. now destruct (balance_guard _ _).
Qed.

Lemma spares_AccountFor invoice k user : spares invoice (AccountFor k user).
Proof.
  apply spares_statement. intros d. rewrite account_for_eq. apply with_account_invoices.
Qed.

Lemma spares_CurrentUserBalance invoice user :
  spares invoice (CurrentUserBalance user).
Proof.
  apply spares_statement. intros d. unfold current_user_balance.
  rewrite account_for_eq. apply with_account_invoices.
Qed.

Lemma spares_time_Now invoice : spares invoice time_Now.
Proof. now apply spares_same. Qed.

Lemma spares_HandleFailedPayment invoice invoice1 entry err :
  ID invoice1 = ID invoice -> spares invoice (HandleFailedPayment invoice1 entry err).
Proof.
  intros Hid. unfold HandleFailedPayment.
  apply spares_seq; [apply spares_InsertEntry|]. intros [_|e]; [|apply spares_ret].
  apply spares_seq; [|intros [_|e]; apply spares_ret].
  apply spares_UpdateInvoice. now destruct err.
Qed.

Lemma spares_HandleSuccessfulPayment invoice invoice1 entry :
  ID invoice1 = ID invoice -> spares invoice (HandleSuccessfulPayment invoice1 entry).
Proof.
  intros Hid. unfold HandleSuccessfulPayment.
  apply spares_seq; [apply spares_time_Now|]. intros now.
  apply spares_seq; [now apply spares_UpdateInvoice|]. intros _.
  apply spares_seq; [apply spares_AccountFor|]. intros [a|e]; [|apply spares_ret].
  apply spares_seq; [apply spares_InsertEntry|]. intros [e'|e]; [|apply spares_ret].
  apply spares_seq; [apply spares_CurrentUserBalance|].
  intros [b|e]; apply spares_ret.
Qed.

Lemma spares_reconcile invoice entry routed :
  ID (snd routed) = ID invoice -> spares invoice (reconcile entry routed).
Proof.
  destruct routed as [[resp [e|]] invoice1]; cbn [snd]; intros Hid; unfold reconcile.
  - apply spares_seq; [now apply spares_HandleFailedPayment|]. intros r. apply spares_ret.
  - destruct (PaymentRoute resp); [|apply spares_panic].
    apply spares_seq; [now apply spares_HandleSuccessfulPayment|].
    intros [e i]. apply spares_ret.
Qed.

Lemma NoDup_map_eq {A B} (f : A -> B) (l : list A) a b :
  List.NoDup (map f l) -> In a l -> In b l -> f a = f b -> a = b.
Proof.
  induction l as [|x l IH]; cbn; [contradiction|].
  intros Hnd Ha Hb Hf. inversion Hnd as [|? ? Hx Hl]; subst.
  destruct Ha as [<-|Ha], Hb as [<-|Hb]; auto.
  - destruct Hx. rewrite Hf. now apply in_map.
  - destruct Hx. rewrite <- Hf. now apply in_map.
Qed.

Lemma SendInternalPayment_invoices invoice w :
  exists l,
    invoices (db (world_of (SendInternalPayment invoice w))) = l
    /\ (l = invoices (db w)
        \/ exists incoming now,
             find_open_incoming (PaymentRequest invoice) (db w) = Some incoming
             /\ l = map (fun r => if ID r =? ID incoming
                                  then settled_incoming incoming now else r)
                        (invoices (db w))).
Proof.
  unfold SendInternalPayment, SelectInvoice, AccountFor, InsertEntry, UpdateInvoice.
  unfold bind at 1. store_step; [eexists; split; [reflexivity|now left]|].
  rewrite select_invoice_open. cbn [fst snd].
  destruct (find_open_incoming (PaymentRequest invoice) (db w)) as [incoming|] eqn:Hfind;
    [|eexists; split; [reflexivity|now left]].
  unfold bind at 1. store_step; [eexists; split; [reflexivity|now left]|].
  rewrite account_for_eq. cbn [fst snd].
  unfold bind at 1. store_step;
    [eexists; split; [reflexivity|left; cbn; now rewrite with_account_invoices]|].
  rewrite account_for_eq. cbn [fst snd].
  unfold bind at 1. unfold bind at 1. unfold emit at 1. store_step;
    [eexists; split; [reflexivity|left; cbn; now rewrite !with_account_invoices]|].
  unfold insert_entry. destruct (balance_guard _ _); cbn [fst snd];
    [|eexists; split; [reflexivity|left; cbn; now rewrite !with_account_invoices]].
  destruct (hex.DecodeString (Preimage incoming)) as [preimage e1].
  destruct (hex.DecodeString (RHash invoice)) as [paymentHash e2].
  unfold bind at 1, time_Now. unfold bind at 1. unfold bind at 1. unfold emit at 1.
  store_step;
    [eexists; split; [reflexivity|left; cbn; now rewrite !with_account_invoices]|].
  eexists. split; [reflexivity|]. right. exists incoming. eexists.
  split; [reflexivity|]. cbn. now rewrite !with_account_invoices.
Qed.

Lemma spares_SendInternalPayment invoice : spares invoice (SendInternalPayment invoice).
Proof.
  intros w Hok.
  destruct (SendInternalPayment_invoices invoice w)
    as (l & -> & [->|(incoming & now & Hfind & ->)]); [split; auto|].
  split; [exact (update_ids (settled_incoming incoming now) _)|].
  intros row Hin _ Hnot.
  apply (update_spares (settled_incoming incoming now)); [exact Hin|].
  change (ID (settled_incoming incoming now)) with (ID incoming).
  intros Heq. apply find_open_incoming_Some in Hfind.
  destruct Hfind as (Hin' & Hty & Hpr & Hst).
  assert (row = incoming) by (eapply NoDup_map_eq; eauto). subst row.
  now apply Hnot.
Qed.

(** X16: [PayInvoice] leaves the invoices of others alone.  Whatever
    the store and the node do, it adds and removes no row of the
    invoices, and the only rows it may change are those with the id of
    the invoice it pays and, on the internal path, an Open incoming
    row for the same payment request. *)
Theorem PayInvoice_other_invoices invoice w :
  invoices_ok (db w) ->
  let w' := world_of (PayInvoice invoice w) in
  map ID (invoices (db w')) = map ID (invoices (db w))
  /\ forall row,
       In row (invoices (db w)) ->
       ID row <> ID invoice ->
       (Type_ row = InvoiceTypeIncoming -> State row = InvoiceStateOpen ->
        PaymentRequest row <> PaymentRequest invoice) ->
       In row (invoices (db w')).
Proof.
  revert w. change (spares invoice (PayInvoice invoice)).
  unfold PayInvoice. cbv zeta.
  apply spares_seq; [apply spares_AccountFor|]. intros [debit|e]; [|apply spares_ret].
  apply spares_seq; [apply spares_AccountFor|]. intros [credit|e]; [|apply spares_ret].
  apply spares_seq; [apply spares_InsertEntry|]. intros [entry|e]; [|apply spares_ret].
  destruct (String.eqb _ _).
  - apply spares_seq; [apply spares_SendInternalPayment|]. intros [resp [e|]].
    + apply spares_seq; [now apply spares_HandleFailedPayment|].
      intros r. apply spares_ret.
    + destruct (PaymentRoute resp); [|apply spares_panic].
      apply spares_seq; [now apply spares_HandleSuccessfulPayment|].
      intros [e i]. apply spares_ret.
  - apply (spares_bind invoice (fun r => same_payment invoice (snd r))).
    + apply spares_keeps, keeps_db_SendPaymentSync.
    + intros w [[resp err] invoice1] w' H. eapply SendPaymentSync_same, H.
    + intros [[resp [e|]] invoice1] Hsame; cbn [snd] in Hsame;
        apply same_payment_fields in Hsame; destruct Hsame as [Hid _].
      * apply spares_seq; [now apply spares_HandleFailedPayment|].
        intros r. apply spares_ret.
      * destruct (PaymentRoute resp); [|apply spares_panic].
        apply spares_seq; [now apply spares_HandleSuccessfulPayment|].
        intros [e i]. apply spares_ret.
Qed.

(** ** From the payment request to the check of the payment *)


End Service.


(** * The code on the small ledger *)

Lemma ex_accounts_ok : accounts_ok ex_db.
Proof.
  split.
  - cbn. repeat constructor; cbn; intuition discriminate.
  - cbn. repeat constructor; cbn; lia.
Defined.

Lemma ex_routes_reported : routes_reported ex_lnd.
Proof. intros req res H _ _. inversion H. discriminate. Defined.

Lemma ex_fees_within : fees_within ex_lnd 500.
Proof.
  intros req res route H Hr. inversion H; subst. inversion Hr; subst. cbn. lia.
Defined.

Lemma PayInvoice_insufficient_balance_witness :
  current_balance (UserID ex_pay_poor) (db ex_world) < Amount ex_pay_poor
  /\ exists w',
       PayInvoice ex_digest ex_keysend_record ex_svc ex_pay_poor ex_world
       = Returned (None, Some InsufficientBalance, ex_pay_poor) w'
       /\ rpc_calls (trace w') = []
       /\ transaction_entries (db w') = transaction_entries ex_db.
Proof.
  assert (Hlt : current_balance (UserID ex_pay_poor) (db ex_world) < Amount ex_pay_poor)
    by (vm_compute; reflexivity).
  split; [exact Hlt|].
  destruct (PayInvoice_insufficient_balance ex_digest ex_keysend_record ex_svc
              ex_pay_poor ex_world ex_accounts_ok Hlt)
    as (err & w' & Hrun & Hrpc & Hent & _ & _ & Hnf).
  destruct (Hnf eq_refl) as [-> _].
  exists w'. split; [exact Hrun|]. split; [exact Hrpc|exact Hent].
Defined.

Lemma SendInternalPayment_known_preimage_witness :
  find_open_incoming (PaymentRequest ex_pay_internal) (db ex_world) = Some ex_incoming
  /\ exists resp w',
       SendInternalPayment ex_pay_internal ex_world = Returned (resp, None) w'
       /\ PaymentPreimageStr resp = "3031"
       /\ PaymentPreimage resp = [x30; x31]
       /\ PaymentRoute resp = Some {| TotalAmt := 500; TotalFees := 0 |}
       /\ In (settled_incoming ex_incoming 1000) (invoices (db w')).
Proof.
  split; [reflexivity|].
  destruct (SendInternalPayment_known_preimage ex_pay_internal ex_incoming ex_world
              eq_refl ex_accounts_ok eq_refl)
    as (resp & w' & Hrun & Hs & Hp & Hr & _ & Hin & _).
  exists resp, w'. split; [exact Hrun|]. split; [exact Hs|].
  split; [exact Hp|]. split; [exact Hr|exact Hin].
Defined.

Lemma ex_outgoing_rows (id : Z) :
  id <> 20 ->
  forall row, In row (invoices (db ex_world)) ->
              Type_ row = InvoiceTypeIncoming -> ID row <> id.
Proof.
  intros Hid row Hin Hty. cbn in Hin.
  repeat (destruct Hin as [<-|Hin]; [first [discriminate Hty | exact (not_eq_sym Hid)]|]).
  destruct Hin.
Defined.

Lemma PayInvoice_settles_or_reverts_witness :
  Amount ex_pay_internal <= current_balance (UserID ex_pay_internal) (db ex_world)
  /\ exists resp err invoice' w',
       PayInvoice ex_digest ex_keysend_record ex_svc ex_pay_internal ex_world
       = Returned (resp, err, invoice') w'
       /\ ID invoice' = 21
       /\ stored invoice' (db w').
Proof.
  assert (Hle : Amount ex_pay_internal
                <= current_balance (UserID ex_pay_internal) (db ex_world))
    by (vm_compute; discriminate).
  split; [exact Hle|].
  destruct (PayInvoice_settles_or_reverts ex_digest ex_keysend_record ex_svc
              ex_pay_internal ex_world eq_refl ex_accounts_ok
              ltac:(vm_compute; discriminate) Hle
              ltac:(discriminate) ex_routes_reported ex_fees_within
              (ex_outgoing_rows 21 ltac:(discriminate)))
    as (resp & err & invoice' & w' & Hrun & Hid & Hst & _).
  exists resp, err, invoice', w'. split; [exact Hrun|]. split; [exact Hid|exact Hst].
Defined.

Lemma PayInvoice_routing_witness :
  IdentityPubkey ex_svc = DestinationPubkeyHex ex_pay_internal
  /\ rpc_calls (trace (world_of (PayInvoice ex_digest ex_keysend_record ex_svc
                                   ex_pay_internal ex_world)))
     = rpc_calls (trace ex_world).
Proof.
  split; [reflexivity|].
  eapply (PayInvoice_routing ex_digest ex_keysend_record ex_svc ex_pay_internal ex_world);
    [vm_compute; reflexivity | vm_compute; reflexivity | vm_compute; reflexivity
    | reflexivity].
Defined.

Lemma internal_payment_once_witness :
  exists resp1 invoice1' w1,
    PayInvoice ex_digest ex_keysend_record ex_svc ex_pay_internal ex_world
    = Returned (Some resp1, None, invoice1') w1
    /\ current_balance 1 (db w1) = 500
    /\ exists invoice2' w2,
         PayInvoice ex_digest ex_keysend_record ex_svc ex_pay_again w1
         = Returned (None, Some NotFound, invoice2') w2
         /\ State invoice2' = InvoiceStateError
         /\ current_balance 1 (db w2) = 500.
Proof.
  destruct (internal_payment_once ex_digest ex_keysend_record ex_svc
              ex_pay_internal ex_pay_again ex_incoming ex_world
              eq_refl ex_accounts_ok ltac:(vm_compute; discriminate)
              ltac:(vm_compute; discriminate) eq_refl eq_refl eq_refl eq_refl)
    as (resp1 & invoice1' & w1 & Hrun & _ & _ & Hbal & Hsecond).
  { intros row Hin Hty Hpr Hst. cbn in Hin.
    repeat (destruct Hin as [<-|Hin]; [first [discriminate Hty | reflexivity]|]).
    destruct Hin. }
  exists resp1, invoice1', w1. split; [exact Hrun|].
  change (current_balance (UserID ex_pay_internal) (db ex_world)) with 1000 in Hbal.
  cbn in Hbal. split; [exact Hbal|].
  destruct Hsecond as (invoice2' & w2 & entry & rev & Hrun2 & Hst2 & _ & _ & _ & Hb2).
  { change (UserID ex_pay_again) with 1. change (Amount ex_pay_again) with 500.
    rewrite Hbal. lia. }
  exists invoice2', w2. split; [exact Hrun2|]. split; [exact Hst2|].
  change (UserID ex_pay_internal) with 1 in Hb2. now rewrite Hb2.
Defined.

Lemma SendPaymentSync_payload_witness :
  exists req res w2,
    createLnRpcSendRequest ex_digest ex_keysend_record ex_pay_external ex_world
    = Returned (inl req, ex_pay_external) ex_world
    /\ LndSendPaymentSync (LndClient ex_svc) req = inl res
    /\ SendPaymentSync ex_digest ex_keysend_record ex_svc ex_pay_external ex_world
       = Returned ({| PaymentPreimage := [x01; x02];
                      PaymentPreimageStr := "0102";
                      PaymentError := "";
                      PaymentHash := [xab; xcd];
                      PaymentHashStr := "abcd";
                      PaymentRoute := Some {| TotalAmt := 503; TotalFees := 3 |};
                      RespTransactionEntry := None;
                      RespInvoice := None |}, None, ex_pay_external) w2.
Proof.
  eexists _, _, _. split; [reflexivity|]. split; [reflexivity|].
  exact (proj2 (proj2 (SendPaymentSync_payload ex_digest ex_keysend_record ex_svc
                         ex_pay_external ex_world _ _ _ _ eq_refl eq_refl))
           [x01; x02] {| LnTotalAmt := 503; LnTotalFees := 3 |}
           eq_refl eq_refl eq_refl).
Defined.

Lemma entry_amounts_witness :
  exists delta,
    transaction_entries
      (db (world_of (PayInvoice ex_digest ex_keysend_record ex_svc
                       ex_pay_external ex_world)))
    = (delta ++ transaction_entries ex_db)%list
    /\ Forall (fun e => EntryAmount e = 500
                        \/ route_fee ex_svc ex_pay_external (EntryAmount e)) delta.
Proof.
  exact (proj1 (proj1 (entry_amounts ex_digest ex_keysend_record ex_svc ex_pay_external)
                  ex_world)).
Defined.

Lemma AddIncomingInvoice_row_witness :
  exists preimage w0 res err w' later,
    makePreimageHex ex_world = Returned preimage w0
    /\ AddIncomingInvoice ex_svc 2 500 "memo" "" ex_world = Returned (res, err) w'
    /\ trace w'
       = (later ++ [SqlInsertInvoice (initialized_invoice 2 500 "memo" "" 1000)])%list
    /\ forall ln, In (RpcAddInvoice ln) later ->
                  Expiry ln = 86400 /\ RPreimage ln = preimage.
Proof.
  destruct (AddIncomingInvoice_row ex_svc 2 500 "memo" "" ex_world)
    as (p & w0 & res & err & w' & later & Hp & Hrun & Ht & _ & _ & Hrpc & _).
  exists p, w0, res, err, w', later. split; [exact Hp|]. split; [exact Hrun|].
  split; [exact Ht|]. intros ln Hin. destruct (Hrpc ln Hin) as (He & Hr & _). now split.
Defined.

Lemma preimage_hash_round_trip_witness :
  (exists req invoice' w',
     createLnRpcSendRequest ex_digest ex_keysend_record ex_keysend ex_world
     = Returned (inl req, invoice') w'
     /\ exists preimage w1 records,
          makePreimageHex ex_world = Returned preimage w1
          /\ DestCustomRecords req = Some records
          /\ records !! ex_keysend_record = Some preimage
          /\ ReqPaymentHash req = ex_digest preimage)
  /\
  (exists invoice w',
     AddIncomingInvoice ex_svc 2 500 "memo" "" ex_world = Returned (Some invoice, None) w'
     /\ exists preimage w1,
          makePreimageHex ex_world = Returned preimage w1
          /\ length preimage = 32%nat
          /\ hex.DecodeString (Preimage invoice) = (preimage, None)
          /\ In invoice (invoices (db w'))).
Proof.
  split.
  - eexists _, _, _. split; [vm_compute; reflexivity|].
    eapply (proj1 (preimage_hash_round_trip ex_digest ex_keysend_record ex_svc)
              ex_keysend ex_world _ _ _ eq_refl).
    vm_compute; reflexivity.
  - eexists _, _. split; [vm_compute; reflexivity|].
    eapply (proj2 (preimage_hash_round_trip ex_digest ex_keysend_record ex_svc)
              2 500 "memo" "" ex_world).
    vm_compute; reflexivity.
Defined.

(** Paying the whole balance outside: the route's fee no longer fits,
    the fee entry is refused, and the caller gets the response of the
    payment together with the error, on an invoice already Settled whose
    only entry is the principal. *)
Lemma PayInvoice_partial_success :
  exists resp invoice' w',
    PayInvoice ex_digest ex_keysend_record ex_svc ex_pay_all ex_world
    = Returned (Some resp, Some InsufficientBalance, invoice') w'
    /\ State invoice' = InvoiceStateSettled
    /\ PaymentPreimage resp = [x01; x02]
    /\ length (entries_of (ID ex_pay_all) (db w')) = 1%nat.
Proof.
  eexists _, _, _. split; [vm_compute; reflexivity|].
  repeat split.
Qed.

(** An internal payment records a fee entry of amount zero. *)
Lemma internal_fee_entry_zero :
  exists e,
    In e (transaction_entries
            (db (world_of (PayInvoice ex_digest ex_keysend_record ex_svc
                             ex_pay_internal ex_world))))
    /\ InvoiceID e = ID ex_pay_internal
    /\ ParentID e <> 0
    /\ EntryAmount e = 0
    /\ ~ EntryAmount e > 0.
Proof.
  eexists. split; [vm_compute; left; reflexivity|].
  vm_compute. repeat split; intro H; discriminate H.
Qed.


(** * The rest of the code on the small ledger *)

Lemma ex_invoices_ok : invoices_ok ex_db.
Proof.
  unfold invoices_ok. cbn.
  repeat (constructor; [cbn; intuition discriminate|]).
  constructor.
Defined.

Lemma AddOutgoingInvoice_found_witness :
  exists row w1 w2,
    AddOutgoingInvoice 1 "lnbc100" ex_payreq ex_world = Returned (Some row, None) w1
    /\ FindInvoiceByPaymentHash 1 "beef" w1 = Returned (Some row, None) w2.
Proof.
  destruct (AddOutgoingInvoice_found 1 "lnbc100" ex_payreq ex_world eq_refl eq_refl)
    as (row & w1 & w2 & Hadd & Hfind & _).
  - intros row Hin Hu. cbn in Hin.
    repeat destruct Hin as [<-|Hin]; try discriminate; contradiction.
  - exists row, w1, w2. split; [exact Hadd|exact Hfind].
Defined.

Lemma makePreimageHex_draws_witness :
  exists r, forall w, rand_src w = r ->
    makePreimageHex w
    = Returned (list_byte_of_string "0123456789abcdef0123456789abcdef")
               (set_rand_src [] w).
Proof.
  apply (proj2 makePreimageHex_draws); [reflexivity|].
  apply List.Forall_forall. intros b Hb.
  repeat (destruct Hb as [<-|Hb]; [vm_compute; tauto|]). destruct Hb.
Defined.

Lemma createLnRpcSendRequest_request_witness :
  createLnRpcSendRequest ex_digest ex_keysend_record ex_pay_external ex_world
  = Returned (inl {| Dest := []; Amt := 500; ReqPaymentHash := [];
                     ReqPaymentRequest := "lnbc9";
                     ReqFeeLimit := Some (FeeLimit_Fixed 300); DestFeatures := [];
                     DestCustomRecords := None |}, ex_pay_external) ex_world
  /\ exists req invoice' sent,
       createLnRpcSendRequest ex_digest ex_keysend_record ex_keysend ex_world
       = Returned (inl req, invoice') (set_rand_src [] ex_world)
       /\ Dest req = [x03; xbb]
       /\ DestCustomRecords req = Some sent
       /\ DestinationCustomRecords invoice' = Some sent.
Proof.
  split.
  - exact (proj1 (createLnRpcSendRequest_request ex_digest ex_keysend_record
                    ex_pay_external ex_world) eq_refl).
  - destruct (proj2 (createLnRpcSendRequest_request ex_digest ex_keysend_record
                       ex_keysend ex_world) [x03; xbb] ∅ eq_refl eq_refl eq_refl)
      as (req & invoice' & sent & Hrun & _ & _ & Hd & _ & _ & Hs & Hi & _).
    exists req, invoice', sent. now repeat split.
Defined.

Lemma SendPaymentSync_request_not_built_witness :
  (exists w',
     SendPaymentSync ex_digest ex_keysend_record ex_svc ex_keysend_bad ex_world
     = Returned (SendPaymentResponse_zero, Some (InvalidByteError "z"), ex_keysend_bad) w'
     /\ trace w' = [])
  /\ (exists w',
        SendPaymentSync ex_digest ex_keysend_record ex_svc ex_keysend_nil ex_world
        = Panicked w'
        /\ trace w' = []).
Proof.
  split.
  - destruct (proj1 (SendPaymentSync_request_not_built ex_digest ex_keysend_record
                       ex_svc ex_keysend_bad ex_world eq_refl)
                [] (InvalidByteError "z") eq_refl) as (w' & Hrun & Ht & _).
    exists w'. now split.
  - destruct (proj2 (SendPaymentSync_request_not_built ex_digest ex_keysend_record
                       ex_svc ex_keysend_nil ex_world eq_refl)
                [x03; xbb] eq_refl eq_refl) as (w' & Hrun & Ht & _).
    exists w'. now split.
Defined.

Lemma PayInvoice_nil_records_witness :
  exists w',
    PayInvoice ex_digest ex_keysend_record ex_svc ex_keysend_nil ex_world = Panicked w'
    /\ length (transaction_entries (db w')) = 2%nat
    /\ rpc_calls (trace w') = [].
Proof.
  assert (Hbal : Amount ex_keysend_nil <= current_balance (UserID ex_keysend_nil) (db ex_world))
    by (vm_compute; intros H; discriminate H).
  assert (Hkey : IdentityPubkey ex_svc <> DestinationPubkeyHex ex_keysend_nil)
    by (intros H; discriminate H).
  destruct (PayInvoice_nil_records ex_digest ex_keysend_record ex_svc ex_keysend_nil
              ex_world [x03; xbb] eq_refl ex_accounts_ok Hbal Hkey eq_refl eq_refl eq_refl)
    as (w' & Hrun & Hent & _ & _ & _ & Hrpc).
  exists w'. split; [exact Hrun|]. split; [now rewrite Hent|exact Hrpc].
Defined.

Lemma SendPaymentSync_failure_witness :
  exists w',
    SendPaymentSync ex_digest ex_keysend_record ex_svc_down ex_pay_external ex_world
    = Returned (SendPaymentResponse_zero, Some (LndError "unreachable"), ex_pay_external) w'
    /\ db w' = ex_db.
Proof.
  destruct (SendPaymentSync_failure ex_digest ex_keysend_record ex_svc_down
              ex_pay_external ex_world) as (Hdb & _ & _ & Hdown).
  eexists. split; [exact (Hdown _ _ _ _ eq_refl eq_refl)|reflexivity].
Defined.

Lemma HandleSuccessfulPayment_update_lost_witness :
  exists w',
    HandleSuccessfulPayment (with_Fee 3 ex_pay_external)
      {| EntryID := 2; EntryUserID := 1; InvoiceID := 24; ParentID := 0;
         CreditAccountID := 3; DebitAccountID := 1; EntryAmount := 500 |}
      (ex_world_failing [true])
    = Returned (None, settled (with_Fee 3 ex_pay_external) 1000) w'
    /\ invoices (db w') = invoices ex_db.
Proof.
  destruct (HandleSuccessfulPayment_update_lost (with_Fee 3 ex_pay_external)
              {| EntryID := 2; EntryUserID := 1; InvoiceID := 24; ParentID := 0;
                 CreditAccountID := 3; DebitAccountID := 1; EntryAmount := 500 |}
              (ex_world_failing [true]) eq_refl eq_refl)
    as (w' & Hrun & _ & Hinv & _).
  exists w'. split; [exact Hrun|exact Hinv].
Defined.


Lemma AddIncomingInvoice_bad_hash_witness :
  exists w',
    AddIncomingInvoice ex_svc 2 500 "memo" "zz" ex_world
    = Returned (None, Some (InvalidByteError "z")) w'
    /\ length (invoices (db w')) = 7%nat
    /\ trace w' = [SqlInsertInvoice (initialized_invoice 2 500 "memo" "zz" 1000)].
Proof.
  destruct (AddIncomingInvoice_bad_hash ex_svc 2 500 "memo" "zz" ex_world []
              (InvalidByteError "z") eq_refl eq_refl)
    as (w' & Hrun & Hinv & Ht & _).
  exists w'. split; [exact Hrun|]. split; [now rewrite Hinv|exact Ht].
Defined.


Lemma PayInvoice_other_invoices_witness :
  In ex_pay_poor
     (invoices (db (world_of (PayInvoice ex_digest ex_keysend_record ex_svc
                                ex_pay_internal ex_world)))).
Proof.
  apply (PayInvoice_other_invoices ex_digest ex_keysend_record ex_svc ex_pay_internal
           ex_world ex_invoices_ok).
  - cbn. tauto.
  - intros H; discriminate H.
  - intros H; discriminate H.
Defined.

